(** * Nexus indexer (packages/indexer-py): chunker, walker, store and scan loop

    A shallow embedding of [chunker.py], [scanner.py] and [database.py].
    Python integers are unbounded, so they are [Z]; Python strings are
    [string] (sequences of code points below 256); a generator is the list
    of the values it yields, in order. *)

From Stdlib Require Import ZArith List String Ascii Bool Lia Sorted.
Import ListNotations.
Open Scope Z_scope.

(** ** Python string and list primitives used by the sources *)

Module Py.

Definition newline : ascii := ascii_of_nat 10.

Definition len {A} (l : list A) : Z := Z.of_nat (List.length l).
Definition str_len (s : string) : Z := Z.of_nat (String.length s).

(** [s.split(sep)] for a one-character separator: never the empty list. *)
Fixpoint split (sep : ascii) (s : string) : list string :=
  match s with
  | EmptyString => [EmptyString]
  | String c rest =>
      if Ascii.eqb c sep then EmptyString :: split sep rest
      else match split sep rest with
           | h :: t => String c h :: t
           | [] => [String c EmptyString]
           end
  end.

(** [sep.join(parts)] *)
Fixpoint join (sep : string) (parts : list string) : string :=
  match parts with
  | [] => EmptyString
  | [p] => p
  | p :: rest => (p ++ sep ++ join sep rest)%string
  end.

(** A slice bound as Python normalises it: a negative index counts from the
    end, and both ends are clamped to [0, len]. *)
Definition norm_index (n i : Z) : Z :=
  if i <? 0 then Z.max (i + n) 0 else Z.min i n.

(** [l[lo:hi]] *)
Definition slice {A} (l : list A) (lo hi : Z) : list A :=
  let n := len l in
  let lo' := norm_index n lo in
  let hi' := norm_index n hi in
  firstn (Z.to_nat (hi' - lo')) (skipn (Z.to_nat lo') l).

(** [s[:k]] for a non-negative constant [k] *)
Definition str_prefix (k : nat) (s : string) : string := substring 0 k s.

(** [needle in hay] *)
Fixpoint str_in (needle hay : string) : bool :=
  String.prefix needle hay
  || match hay with
     | EmptyString => false
     | String _ r => str_in needle r
     end.

(** [c in s] for one character *)
Fixpoint char_in (c : ascii) (s : string) : bool :=
  match s with
  | EmptyString => false
  | String d r => Ascii.eqb d c || char_in c r
  end.

Definition startswith (s p : string) : bool := String.prefix p s.

Definition str_rev (s : string) : string :=
  string_of_list_ascii (rev (list_ascii_of_string s)).

Definition endswith (s p : string) : bool :=
  String.prefix (str_rev p) (str_rev s).

Definition lower_char (c : ascii) : ascii :=
  let n := nat_of_ascii c in
  if (Nat.leb 65 n && Nat.leb n 90)%bool then ascii_of_nat (n + 32) else c.

(** [s.lower()] on the ASCII letters *)
Fixpoint lower (s : string) : string :=
  match s with
  | EmptyString => EmptyString
  | String c r => String (lower_char c) (lower r)
  end.

(** [x in xs] for a collection of strings *)
Definition str_mem (x : string) (xs : list string) : bool :=
  existsb (String.eqb x) xs.

(** [s.rfind(c)]: index of the last occurrence, or -1. *)
Fixpoint rfind (c : ascii) (s : string) : Z :=
  match s with
  | EmptyString => -1
  | String d r =>
      let i := rfind c r in
      if i >=? 0 then i + 1 else if Ascii.eqb d c then 0 else -1
  end.

(** [s[i:]] for [0 <= i] *)
Definition str_from (i : nat) (s : string) : string :=
  substring i (String.length s - i) s.

(** [s.replace("**", "*")]: left to right, occurrences do not overlap. *)
Fixpoint collapse_stars (s : string) : string :=
  match s with
  | EmptyString => EmptyString
  | String c r =>
      match r with
      | String d r' =>
          if (Ascii.eqb c "*" && Ascii.eqb d "*")%bool
          then String "*" (collapse_stars r')
          else String c (collapse_stars r)
      | EmptyString => String c EmptyString
      end
  end.

(** Code points below 256 for which [str.isspace()] holds. *)
Definition is_space (c : ascii) : bool :=
  let n := nat_of_ascii c in
  (Nat.leb 9 n && Nat.leb n 13) || (Nat.leb 28 n && Nat.leb n 32)
  || Nat.eqb n 133 || Nat.eqb n 160.

(** Code points below 256 at which [str.splitlines()] breaks a line. *)
Definition is_linebreak (c : ascii) : bool :=
  let n := nat_of_ascii c in
  (Nat.leb 10 n && Nat.leb n 13) || (Nat.leb 28 n && Nat.leb n 30)
  || Nat.eqb n 133.

Fixpoint lstrip_by (f : ascii -> bool) (s : string) : string :=
  match s with
  | EmptyString => EmptyString
  | String c r => if f c then lstrip_by f r else s
  end.

Definition rstrip_by (f : ascii -> bool) (s : string) : string :=
  str_rev (lstrip_by f (str_rev s)).

(** [s.strip()] *)
Definition strip (s : string) : string := rstrip_by is_space (lstrip_by is_space s).

(** [s.splitlines()]: [cur] is the line being read, reversed. A carriage
    return followed by a line feed is one break; there is no empty last
    line. *)
Fixpoint splitlines_from (cur : string) (s : string) : list string :=
  match s with
  | EmptyString =>
      match cur with
      | EmptyString => []
      | _ => [str_rev cur]
      end
  | String c r =>
      if is_linebreak c then
        match r with
        | String d r' =>
            if (Ascii.eqb c (ascii_of_nat 13) && Ascii.eqb d (ascii_of_nat 10))%bool
            then str_rev cur :: splitlines_from EmptyString r'
            else str_rev cur :: splitlines_from EmptyString r
        | EmptyString => [str_rev cur]
        end
      else splitlines_from (String c cur) r
  end.

Definition splitlines (s : string) : list string := splitlines_from EmptyString s.

(** Truthiness of an optional string: [None] and the empty string are false. *)
Definition truthy (o : option string) : bool :=
  match o with
  | Some (String _ _) => true
  | _ => false
  end.

End Py.

(** ** chunker.py *)

Module Chunker.

Import Py.

Record chunk := mkChunk {
  start_line : Z;
  end_line : Z;
  content : string;
  symbol : option string;
  kind : string;
  token_count : Z
}.

(** [LANGUAGE_MAP], in insertion order (the order [detect_language] scans it). *)
Definition LANGUAGE_MAP : list (string * string) :=
  [ (".ts", "typescript"); (".tsx", "typescript"); (".js", "javascript");
    (".jsx", "javascript"); (".mjs", "javascript"); (".cjs", "javascript");
    (".py", "python"); (".pyi", "python"); (".rs", "rust"); (".go", "go");
    (".java", "java"); (".kt", "kotlin"); (".kts", "kotlin"); (".rb", "ruby");
    (".php", "php"); (".c", "c"); (".h", "c"); (".cpp", "cpp"); (".hpp", "cpp");
    (".cc", "cpp"); (".cs", "csharp"); (".swift", "swift"); (".scala", "scala");
    (".lua", "lua"); (".sh", "shell"); (".bash", "shell"); (".zsh", "shell");
    (".sql", "sql"); (".md", "markdown"); (".json", "json"); (".yaml", "yaml");
    (".yml", "yaml"); (".toml", "toml"); (".xml", "xml"); (".html", "html");
    (".css", "css"); (".scss", "scss"); (".sass", "sass"); (".less", "less");
    (".vue", "vue"); (".svelte", "svelte") ]%string.

(** [SYMBOL_PATTERNS]: language tag to the source text of its regular
    expression. *)
Definition SYMBOL_PATTERNS : list (string * string) :=
  [ ("typescript", "(?:function|class|interface|type|const|let|export)\s+(\w+)");
    ("javascript", "(?:function|class|const|let|export)\s+(\w+)");
    ("python", "(?:def|class|async def)\s+(\w+)");
    ("rust", "(?:fn|struct|enum|impl|trait|mod)\s+(\w+)");
    ("go", "(?:func|type|struct)\s+(\w+)");
    ("java", "(?:class|interface|enum|void|public|private)\s+(\w+)") ]%string.

Fixpoint assoc (k : string) (m : list (string * string)) : option string :=
  match m with
  | [] => None
  | (k', v) :: r => if String.eqb k k' then Some v else assoc k r
  end.

Fixpoint detect_language_in (m : list (string * string)) (filename : string)
  : option string :=
  match m with
  | [] => None
  | (ext, lang) :: r =>
      if endswith filename ext then Some lang else detect_language_in r filename
  end.

Definition detect_language (filename : string) : option string :=
  detect_language_in LANGUAGE_MAP filename.

Section WithRegex.

(** The regular-expression engine of Python's [re] module:
    [re_search pattern text] is group 1 of the first match of
    [re.compile(pattern).search(text)], when there is one. *)
Variable re_search : string -> string -> option string.

Definition extract_symbol (content : string) (language : option string)
  : option string * option string :=
  match language with
  | Some lang =>
      if negb (truthy language) then (None, None)
      else match assoc lang SYMBOL_PATTERNS with
      | None => (None, None)
      | Some pattern =>
          match re_search pattern content with
          | None => (None, None)
          | Some sym =>
              let head := str_prefix 100 content in
              let kind :=
                if existsb (fun kw => str_in kw head)
                     ["function "; "fn "; "def "; "func "]%string
                then "function"%string
                else if existsb (fun kw => str_in kw head)
                          ["class "; "struct "; "interface "; "trait "]%string
                then "class"%string
                else "block"%string in
              (Some sym, Some kind)
          end
      end
  | None => (None, None)
  end.

Section Loop.

Variable lines : list string.
Variables max_lines overlap min_lines : Z.
Variable language : option string.

Let total_lines : Z := len lines.

(** The window the loop body builds at [start], when it is yielded. *)
Definition window (start : Z) : list chunk :=
  let en := Z.min (start + max_lines) total_lines in
  let chunk_lines := slice lines start en in
  if (len chunk_lines >=? min_lines) || (start =? 0) then
    let chunk_text := join (String newline EmptyString) chunk_lines in
    let '(sym, knd) := extract_symbol chunk_text language in
    [ {| start_line := start + 1;
         end_line := en;
         content := chunk_text;
         symbol := sym;
         kind := if truthy knd then match knd with Some k => k | None => "block"%string end
                 else "block"%string;
         token_count := str_len chunk_text / 4 |} ]
  else [].

(** The [while start < total_lines] loop. The result is the chunks yielded
    from this point on and the number of times the loop body was entered;
    [None] means the fuel ran out before the loop left. *)
Fixpoint chunk_loop (fuel : nat) (start prev_start : Z)
  : option (list chunk * nat) :=
  if negb (start <? total_lines) then Some ([], O)
  else
    match fuel with
    | O => None
    | S fuel' =>
        if start =? prev_start then Some ([], 1%nat)
        else
          let prev_start' := start in
          let en := Z.min (start + max_lines) total_lines in
          let out := window start in
          if en >=? total_lines then Some (out, 1%nat)
          else
            let new_start := en - overlap in
            let new_start := if new_start <=? start then start + 1 else new_start in
            match chunk_loop fuel' new_start prev_start' with
            | Some (rest, n) => Some (out ++ rest, S n)
            | None => None
            end
    end.

End Loop.

(** [chunk_content] run with a given amount of fuel. *)
Definition chunk_content_run (fuel : nat) (content : string)
    (max_lines overlap min_lines : Z) (language : option string)
  : option (list chunk * nat) :=
  let lines := split newline content in
  let total_lines := len lines in
  if total_lines =? 0 then Some ([], O)
  else chunk_loop lines max_lines overlap min_lines language fuel 0 (-1).

(** The chunks [chunk_content] yields. One unit of fuel per line is always
    enough: the start moves forward by at least one line per iteration. *)
Definition chunk_content (content : string)
    (max_lines overlap min_lines : Z) (language : option string) : list chunk :=
  match chunk_content_run (List.length (split newline content)) content
          max_lines overlap min_lines language with
  | Some (cs, _) => cs
  | None => []
  end.

End WithRegex.

(** Line [i] lies in the [start_line .. end_line] range of one of [cs]. *)
Definition covered (cs : list chunk) (i : Z) : bool :=
  existsb (fun c => (start_line c <=? i) && (i <=? end_line c)) cs.

Definition range (c : chunk) : Z * Z := (start_line c, end_line c).

(** A text given by its lines. *)
Definition text_of (ls : list string) : string :=
  join (String newline EmptyString) ls.

(** A text given by its lines, each of them ended by a newline, as a text
    file is written. *)
Definition text_of_ended (ls : list string) : string :=
  fold_right (fun l acc => (l ++ String newline acc)%string) EmptyString ls.

End Chunker.

(** ** scanner.py: ignore policy and walker *)

Module Walker.

Import Py.

Definition DEFAULT_IGNORE : list string :=
  [ "node_modules"; ".npm"; ".yarn"; ".pnpm-store"; "bower_components";
    "vendor";
    "__pycache__"; ".pytest_cache"; ".mypy_cache"; ".ruff_cache"; "venv";
    ".venv"; "env"; ".env"; "site-packages"; ".tox"; ".nox"; "eggs";
    "*.egg-info";
    "dist"; "build"; "out"; "target"; "_build"; "public/build";
    ".next"; ".nuxt"; ".output"; ".vinxi"; ".svelte-kit"; ".vercel";
    ".netlify"; "var"; "storage"; "bootstrap/cache";
    ".idea"; ".vscode"; ".vs"; "*.sublime-workspace";
    ".git"; ".svn"; ".hg";
    "coverage"; ".nyc_output"; "htmlcov";
    ".cache"; ".turbo"; ".parcel-cache"; ".webpack"; ".rollup.cache";
    ".eslintcache"; ".stylelintcache";
    "logs"; "*.log";
    "tmp"; "temp"; ".tmp";
    ".DS_Store"; "Thumbs.db";
    ".docker" ]%string.

Definition IGNORE_EXTENSIONS : list string :=
  [ ".min.js"; ".min.css"; ".bundle.js"; ".map"; ".db"; ".db-shm"; ".db-wal";
    ".pyc"; ".pyo"; ".so"; ".dylib"; ".dll"; ".exe"; ".bin"; ".png"; ".jpg";
    ".jpeg"; ".gif"; ".ico"; ".svg"; ".woff"; ".woff2"; ".ttf"; ".eot";
    ".mp3"; ".mp4"; ".wav"; ".avi"; ".mov"; ".pdf"; ".zip"; ".tar"; ".gz";
    ".rar"; ".7z" ]%string.

(** What [Path.stat()] gives for a file: the size and the modification time
    already converted to whole milliseconds, or the message of the [OSError]
    it raises. *)
Inductive stat_result :=
| StatOk (st_size : Z) (st_mtime_ms : Z)
| StatError (msg : string).

(** What [Path.read_text(encoding="utf-8", errors="ignore")] gives. *)
Inductive read_result :=
| ReadOk (text : string)
| ReadDecodeError
| ReadError (msg : string).

(** A directory entry. A directory whose listing is [None] raises
    [PermissionError] on [iterdir()]; [Special] is an entry for which both
    [is_dir()] and [is_file()] are false. *)
#[warnings="-register-all"]
Inductive entry :=
| File (name : string) (st : stat_result) (rd : read_result)
| Dir (name : string) (listing : option (list entry))
| Special (name : string).

Definition entry_name (e : entry) : string :=
  match e with
  | File n _ _ => n
  | Dir n _ => n
  | Special n => n
  end.

(** A path yielded by the walker, with what the scan loop asks of it. *)
Record walked := mkWalked {
  rel_path : string;      (* str(path.relative_to(root_path)) *)
  name : string;          (* path.name *)
  stat : stat_result;     (* path.stat() *)
  read_text : read_result (* path.read_text(...) *)
}.

(** [PurePath.suffix]: from the last dot of the name, unless that dot is the
    first or the last character. *)
Definition suffix (name : string) : string :=
  let i := rfind "." name in
  if (0 <? i) && (i <? str_len name - 1) then str_from (Z.to_nat i) name
  else EmptyString.

(** The loop of [parse_gitignore] over the lines of the file. *)
Fixpoint gitignore_lines (ls : list string) : list string :=
  match ls with
  | [] => []
  | line :: rest =>
      let line := strip line in
      if (String.eqb line EmptyString || startswith line "#")%bool
      then gitignore_lines rest
      else
        let pattern := rstrip_by (Ascii.eqb "/") line in
        if startswith pattern "!" then gitignore_lines rest
        else pattern :: gitignore_lines rest
  end.

Fixpoint find_entry (n : string) (es : list entry) : option entry :=
  match es with
  | [] => None
  | e :: r => if String.eqb (entry_name e) n then Some e else find_entry n r
  end.

(** [parse_gitignore]: the pattern set, as a list. [root] is the listing of
    the workspace root. A missing file gives no pattern, and so does one
    that cannot be read (the exception is swallowed). *)
Definition parse_gitignore (root : list entry) : list string :=
  match find_entry ".gitignore" root with
  | Some (File _ _ (ReadOk content)) => gitignore_lines (splitlines content)
  | _ => []
  end.

Section WithFnmatch.

(** [fnmatch.fnmatch(name, pattern)] of the Python library. *)
Variable fnmatch : string -> string -> bool.

Definition should_ignore (name rel_path : string) (gitignore_patterns : list string)
  : bool :=
  if str_mem name DEFAULT_IGNORE then true
  else
    existsb (fun pattern =>
               fnmatch name pattern
               || fnmatch rel_path pattern
               || (str_in "**" pattern
                   && fnmatch rel_path (collapse_stars pattern)))
            gitignore_patterns.

Section Walk.

Variable max_depth : Z.
Variable gitignore_patterns : list string.

(** The body of the [for entry in entries] loop of [_walk(path, depth)] for
    one entry; [dir] are the components of [path] below the root. For a
    directory that is kept, the recursive call [_walk(entry, depth + 1)] is
    unfolded in place. *)
Fixpoint walk_entry (dir : list string) (depth : Z) (e : entry) : list walked :=
  let rel := join "/" (dir ++ [entry_name e]) in
  match e with
  | Dir n listing =>
      if startswith n "." then []
      else if should_ignore n rel gitignore_patterns then []
      else if depth + 1 >? max_depth then []
      else match listing with
           | None => []
           | Some entries => flat_map (walk_entry (dir ++ [n]) (depth + 1)) entries
           end
  | File n st rd =>
      if startswith n "." then []
      else if str_mem (lower (suffix n)) IGNORE_EXTENSIONS then []
      else if should_ignore n rel gitignore_patterns then []
      else [ {| rel_path := rel; name := n; stat := st; read_text := rd |} ]
  | Special _ => []
  end.

Definition _walk (dir : list string) (depth : Z) (listing : option (list entry))
  : list walked :=
  if depth >? max_depth then []
  else match listing with
       | None => []
       | Some entries => flat_map (walk_entry dir depth) entries
       end.

End Walk.

(** [walk_files(root_path, max_depth)]: the paths it yields, in order. *)
Definition walk_files (root : list entry) (max_depth : Z) : list walked :=
  let gitignore_patterns := parse_gitignore root in
  _walk max_depth gitignore_patterns [] 0 (Some root).

End WithFnmatch.

End Walker.

(** ** database.py *)

Module Database.

Import Py.

(** A row of [files]. *)
Record file_row := mkFileRow {
  f_id : Z;
  f_path : string;
  f_hash : string;
  f_mtime : option Z;
  f_size : Z;
  f_lang : option string;
  f_indexed_at : Z;
  f_project_id : option Z;
  f_ignored : bool
}.

(** A row of [chunks]. *)
Record chunk_row := mkChunkRow {
  c_id : Z;
  c_file_id : Z;
  c_start_line : Z;
  c_end_line : Z;
  c_content : string;
  c_symbol : option string;
  c_kind : option string
}.

(** The tables, the rows of the [chunks_fts] shadow index (rowid and
    content, kept by the triggers [chunks_ai] and [chunks_ad]) and the two
    AUTOINCREMENT counters. *)
Record db := mkDb {
  files : list file_row;
  chunks : list chunk_row;
  chunks_fts : list (Z * string);
  files_seq : Z;
  chunks_seq : Z
}.

Definition empty_db : db :=
  {| files := []; chunks := []; chunks_fts := []; files_seq := 0; chunks_seq := 0 |}.

(** A connection. [working] is what the connection sees: the committed
    database plus the writes of its open transaction. [faults] tells what
    the next calls on the connection do: [None] (or nothing left) lets the
    call go through, [Some msg] makes it raise [sqlite3.Error(msg)]. *)
Record conn := mkConn {
  working : db;
  committed : db;
  faults : list (option string)
}.

(** Opening the database file anew: the writes that were never committed
    are gone. *)
Definition reconnect (c : conn) (sched : list (option string)) : conn :=
  {| working := committed c; committed := committed c; faults := sched |}.

(** Code running on a connection: a value or the message of the exception
    raised, and the connection afterwards. What was written before an
    exception stays written. *)
Definition Sql (A : Type) : Type := conn -> (A + string) * conn.

Definition sql_ret {A} (a : A) : Sql A := fun c => (inl a, c).

Definition sql_bind {A B} (m : Sql A) (k : A -> Sql B) : Sql B :=
  fun c =>
    match m c with
    | (inl a, c') => k a c'
    | (inr msg, c') => (inr msg, c')
    end.

Definition sql_raise {A} (msg : string) : Sql A := fun c => (inr msg, c).

Declare Scope sql_scope.
Delimit Scope sql_scope with sql.
Notation "x <- m ;; k" := (sql_bind m (fun x => k))
  (at level 61, m at next level, right associativity) : sql_scope.

(** [conn.execute(statement)] *)
Definition execute {A} (stmt : db -> A * db) : Sql A :=
  fun c =>
    match faults c with
    | Some msg :: rest =>
        (inr msg, {| working := working c; committed := committed c; faults := rest |})
    | sched =>
        let '(a, d) := stmt (working c) in
        (inl a, {| working := d; committed := committed c; faults := tl sched |})
    end.

(** [conn.commit()] *)
Definition commit : Sql unit :=
  fun c =>
    match faults c with
    | Some msg :: rest =>
        (inr msg, {| working := working c; committed := committed c; faults := rest |})
    | sched =>
        (inl tt, {| working := working c; committed := working c; faults := tl sched |})
    end.

(** The next call on the connection goes through. *)
Definition next_call_ok (c : conn) : bool :=
  match faults c with
  | Some _ :: _ => false
  | _ => true
  end.

(** The columns [get_file_by_path] selects. *)
Record file_dict := mkFileDict {
  d_id : Z;
  d_path : string;
  d_hash : string;
  d_size : Z;
  d_lang : option string
}.

Definition select_file (path : string) (d : db) : option file_dict * db :=
  (match find (fun r => String.eqb (f_path r) path) (files d) with
   | Some r => Some {| d_id := f_id r; d_path := f_path r; d_hash := f_hash r;
                       d_size := f_size r; d_lang := f_lang r |}
   | None => None
   end, d).

Definition get_file_by_path (path : string) : Sql (option file_dict) :=
  execute (select_file path).

(** [UPDATE files SET ... WHERE path = ?]; the value is [rowcount]. *)
Definition update_file (content_hash : string) (mtime : option Z) (size : Z)
    (lang : option string) (now : Z) (project_id : option Z) (path : string)
    (d : db) : Z * db :=
  (len (filter (fun r => String.eqb (f_path r) path) (files d)),
   {| files := map (fun r =>
                      if String.eqb (f_path r) path then
                        {| f_id := f_id r; f_path := f_path r; f_hash := content_hash;
                           f_mtime := mtime; f_size := size; f_lang := lang;
                           f_indexed_at := now; f_project_id := project_id;
                           f_ignored := f_ignored r |}
                      else r) (files d);
      chunks := chunks d; chunks_fts := chunks_fts d;
      files_seq := files_seq d; chunks_seq := chunks_seq d |}).

Definition select_id (path : string) (d : db) : option Z * db :=
  (option_map f_id (find (fun r => String.eqb (f_path r) path) (files d)), d).

(** The rowid an AUTOINCREMENT table gives to a new row: one more than the
    largest that ever existed. *)
Definition next_id (seq : Z) (ids : list Z) : Z :=
  fold_right Z.max seq ids + 1.

(** [INSERT INTO files ...]; the value is [lastrowid]. *)
Definition insert_file (path content_hash : string) (mtime : option Z) (size : Z)
    (lang : option string) (now : Z) (project_id : option Z) (d : db) : Z * db :=
  let id := next_id (files_seq d) (map f_id (files d)) in
  (id,
   {| files := files d ++
               [ {| f_id := id; f_path := path; f_hash := content_hash;
                    f_mtime := mtime; f_size := size; f_lang := lang;
                    f_indexed_at := now; f_project_id := project_id;
                    f_ignored := false |} ];
      chunks := chunks d; chunks_fts := chunks_fts d;
      files_seq := id; chunks_seq := chunks_seq d |}).

(** [now] is the reading of [time.time()] in milliseconds. *)
Definition upsert_file (now : Z) (path content_hash : string) (size : Z)
    (lang : option string) (mtime : option Z) (project_id : option Z) : Sql Z :=
  (rowcount <- execute (update_file content_hash mtime size lang now project_id path) ;;
   if rowcount >? 0 then
     row <- execute (select_id path) ;;
     match row with
     | Some id => sql_ret id
     | None => sql_raise "'NoneType' object is not subscriptable"
     end
   else
     execute (insert_file path content_hash mtime size lang now project_id))%sql.

(** [DELETE FROM chunks WHERE file_id = ?], with the trigger [chunks_ad]. *)
Definition delete_chunks (file_id : Z) (d : db) : unit * db :=
  let gone := filter (fun c => c_file_id c =? file_id) (chunks d) in
  (tt,
   {| files := files d;
      chunks := filter (fun c => negb (c_file_id c =? file_id)) (chunks d);
      chunks_fts := filter (fun e => negb (existsb (fun c => c_id c =? fst e) gone))
                      (chunks_fts d);
      files_seq := files_seq d; chunks_seq := chunks_seq d |}).

Definition delete_chunks_for_file (file_id : Z) : Sql unit :=
  execute (delete_chunks file_id).

(** [INSERT INTO chunks ...], with the trigger [chunks_ai]. *)
Definition insert_chunk_row (file_id start_line end_line : Z) (content : string)
    (symbol kind : option string) (d : db) : Z * db :=
  let id := next_id (chunks_seq d) (map c_id (chunks d)) in
  (id,
   {| files := files d;
      chunks := chunks d ++
                [ {| c_id := id; c_file_id := file_id; c_start_line := start_line;
                     c_end_line := end_line; c_content := content;
                     c_symbol := symbol; c_kind := kind |} ];
      chunks_fts := chunks_fts d ++ [(id, content)];
      files_seq := files_seq d; chunks_seq := id |}).

Definition insert_chunk (file_id start_line end_line : Z) (content : string)
    (symbol kind : option string) : Sql Z :=
  execute (insert_chunk_row file_id start_line end_line content symbol kind).

(** [DELETE FROM chunks], with the trigger [chunks_ad] run for each deleted
    row: the index loses the entries whose rowid is that of a chunk row. *)
Definition delete_all_chunks (d : db) : unit * db :=
  (tt,
   {| files := files d;
      chunks := [];
      chunks_fts := filter (fun e => negb (existsb (fun c => c_id c =? fst e) (chunks d)))
                      (chunks_fts d);
      files_seq := files_seq d; chunks_seq := chunks_seq d |}).

Definition delete_all_files (d : db) : unit * db :=
  (tt, {| files := []; chunks := chunks d; chunks_fts := chunks_fts d;
          files_seq := files_seq d; chunks_seq := chunks_seq d |}).

Definition clear_index : Sql unit :=
  (_ <- execute delete_all_chunks ;;
   _ <- execute delete_all_files ;;
   commit)%sql.

End Database.

(** ** scanner.py: the scan loop *)

Module Scanner.

Import Py Chunker Walker Database.

(** The [result] dictionary. [stopped_early] is true when the key is set.
    [duration_ms] is wall-clock time and is left out. *)
Record result := mkResult {
  files_scanned : Z;
  files_indexed : Z;
  files_skipped : Z;
  chunks_created : Z;
  errors : list (string * string);
  stopped_early : bool
}.

Definition empty_result : result :=
  {| files_scanned := 0; files_indexed := 0; files_skipped := 0;
     chunks_created := 0; errors := []; stopped_early := false |}.

Definition incr_scanned (r : result) : result :=
  {| files_scanned := files_scanned r + 1; files_indexed := files_indexed r;
     files_skipped := files_skipped r; chunks_created := chunks_created r;
     errors := errors r; stopped_early := stopped_early r |}.

Definition incr_indexed (r : result) : result :=
  {| files_scanned := files_scanned r; files_indexed := files_indexed r + 1;
     files_skipped := files_skipped r; chunks_created := chunks_created r;
     errors := errors r; stopped_early := stopped_early r |}.

Definition incr_skipped (r : result) : result :=
  {| files_scanned := files_scanned r; files_indexed := files_indexed r;
     files_skipped := files_skipped r + 1; chunks_created := chunks_created r;
     errors := errors r; stopped_early := stopped_early r |}.

Definition incr_chunks (r : result) : result :=
  {| files_scanned := files_scanned r; files_indexed := files_indexed r;
     files_skipped := files_skipped r; chunks_created := chunks_created r + 1;
     errors := errors r; stopped_early := stopped_early r |}.

Definition append_error (path msg : string) (r : result) : result :=
  {| files_scanned := files_scanned r; files_indexed := files_indexed r;
     files_skipped := files_skipped r; chunks_created := chunks_created r;
     errors := errors r ++ [(path, msg)]; stopped_early := stopped_early r |}.

Definition set_stopped_early (r : result) : result :=
  {| files_scanned := files_scanned r; files_indexed := files_indexed r;
     files_skipped := files_skipped r; chunks_created := chunks_created r;
     errors := errors r; stopped_early := true |}.

(** The exceptions the two [except] clauses tell apart. *)
Inductive exn :=
| UnicodeDecodeError
| Exception (msg : string).

(** How the body of the [try] leaves: at its end, by [continue], or by an
    exception. *)
Inductive outcome (A : Type) :=
| Normal (a : A)
| Continue
| Raised (e : exn).

Arguments Normal {A} a.
Arguments Continue {A}.
Arguments Raised {A} e.

(** The connection and the result dictionary, both mutated in place. *)
Record state := mkState {
  st_conn : conn;
  st_result : result
}.

Definition M (A : Type) : Type := state -> outcome A * state.

Definition ret {A} (a : A) : M A := fun st => (Normal a, st).

Definition bind {A B} (m : M A) (k : A -> M B) : M B :=
  fun st =>
    match m st with
    | (Normal a, st') => k a st'
    | (Continue, st') => (Continue, st')
    | (Raised e, st') => (Raised e, st')
    end.

Definition raise {A} (e : exn) : M A := fun st => (Raised e, st).

Definition continue {A} : M A := fun st => (Continue, st).

(** [result[key] += 1] and the like *)
Definition update (f : result -> result) : M unit :=
  fun st => (Normal tt, {| st_conn := st_conn st; st_result := f (st_result st) |}).

(** A call into [database.py]; a [sqlite3.Error] is an [Exception]. *)
Definition sql {A} (m : Sql A) : M A :=
  fun st =>
    match m (st_conn st) with
    | (inl a, c) => (Normal a, {| st_conn := c; st_result := st_result st |})
    | (inr msg, c) => (Raised (Exception msg), {| st_conn := c; st_result := st_result st |})
    end.

Declare Scope scan_scope.
Delimit Scope scan_scope with scan.
Notation "x <- m ;; k" := (bind m (fun x => k))
  (at level 61, m at next level, right associativity) : scan_scope.
Notation "m ;; k" := (bind m (fun _ => k))
  (at level 61, right associativity) : scan_scope.

Definition path_stat (p : walked) : M (Z * Z) :=
  match stat p with
  | StatOk size mtime => ret (size, mtime)
  | StatError msg => raise (Exception msg)
  end.

Definition path_read_text (p : walked) : M string :=
  match read_text p with
  | ReadOk text => ret text
  | ReadDecodeError => raise UnicodeDecodeError
  | ReadError msg => raise (Exception msg)
  end.

Section Scan.

(** The libraries: [re], [fnmatch] and [hashlib.sha256(...).hexdigest()]
    of the encoded text. *)
Variable re_search : string -> string -> option string.
Variable fnmatch : string -> string -> bool.
Variable sha256_hexdigest : string -> string.

Definition hash_content (content : string) : string :=
  str_prefix 16 (sha256_hexdigest content).

(** The reading of the clock during the run; it only fills [indexed_at]. *)
Variable now : Z.

Variables max_files max_file_size max_chunk_lines : Z.
Variable project_id : option Z.

(** [for chunk in chunks: insert_chunk(...); result["chunks_created"] += 1] *)
Fixpoint insert_chunks (file_id : Z) (chunks : list chunk) : M unit :=
  match chunks with
  | [] => ret tt
  | chunk :: rest =>
      (_ <- sql (insert_chunk file_id (start_line chunk) (end_line chunk)
                   (content chunk) (symbol chunk) (Some (kind chunk))) ;;
       update incr_chunks ;;
       insert_chunks file_id rest)%scan
  end.

Definition same_hash (existing : option file_dict) (content_hash : string) : bool :=
  match existing with
  | Some d => String.eqb (d_hash d) content_hash
  | None => false
  end.

(** The body of the [try] statement for one path. *)
Definition try_body (file_path : walked) : M unit :=
  (st <- path_stat file_path ;;
   let '(file_size, file_mtime) := st in
   if file_size >? max_file_size then
     update incr_skipped ;; continue
   else
     content <- path_read_text file_path ;;
     let content_hash := hash_content content in
     existing <- sql (get_file_by_path (rel_path file_path)) ;;
     if same_hash existing content_hash then
       update incr_skipped ;; continue
     else
       let lang := detect_language (name file_path) in
       file_id <- sql (upsert_file now (rel_path file_path) content_hash
                         file_size lang (Some file_mtime) project_id) ;;
       match existing with
       | Some _ => sql (delete_chunks_for_file file_id)
       | None => ret tt
       end ;;
       insert_chunks file_id
         (chunk_content re_search content max_chunk_lines 5 3 None) ;;
       update incr_indexed ;;
       sql commit)%scan.

(** One turn of the [for file_path in walk_files(root_path)] loop past the
    [max_files] test: the count, the [try] and its two [except] clauses. *)
Definition loop_body (file_path : walked) (st : state) : state :=
  let st := {| st_conn := st_conn st; st_result := incr_scanned (st_result st) |} in
  match try_body file_path st with
  | (Normal _, st') => st'
  | (Continue, st') => st'
  | (Raised UnicodeDecodeError, st') =>
      {| st_conn := st_conn st'; st_result := incr_skipped (st_result st') |}
  | (Raised (Exception msg), st') =>
      {| st_conn := st_conn st';
         st_result := append_error (rel_path file_path) msg (st_result st') |}
  end.

Fixpoint scan_loop (paths : list walked) (st : state) : state :=
  match paths with
  | [] => st
  | file_path :: rest =>
      if files_scanned (st_result st) >=? max_files then
        {| st_conn := st_conn st; st_result := set_stopped_early (st_result st) |}
      else scan_loop rest (loop_body file_path st)
  end.


(** [scan_workspace_sync]: the connection afterwards and the result. *)
Definition scan_workspace_sync (c : conn) (root : list entry) : conn * result :=
  let st := scan_loop (walk_files fnmatch root 20)
              {| st_conn := c; st_result := empty_result |} in
  (st_conn st, st_result st).

End Scan.

(** The rows of [chunks] that belong to the file stored under [path]. *)
Definition chunks_of_path (d : db) (path : string) : list chunk_row :=
  match find (fun r => String.eqb (f_path r) path) (files d) with
  | Some r => filter (fun c => c_file_id c =? f_id r) (chunks d)
  | None => []
  end.

(** A connection to a fresh database on which [sched] tells the calls that
    fail. *)
Definition fresh_conn (sched : list (option string)) : conn :=
  {| working := empty_db; committed := empty_db; faults := sched |}.

(** The fingerprint stored under [path]. *)
Definition stored_hash (d : db) (path : string) : option string :=
  option_map f_hash (find (fun r => String.eqb (f_path r) path) (files d)).

End Scanner.

(** ** Workspaces and queries used as examples *)

Module Examples.

Import Py Walker Database.

(** Two small Python files at the root of a workspace, no [.gitignore]. *)
Definition two_files : list entry :=
  [ File "a.py" (StatOk 5 0) (ReadOk "x = 1");
    File "b.py" (StatOk 5 0) (ReadOk "y = 2") ]%string.

Definition one_file : list entry :=
  [ File "a.py" (StatOk 5 0) (ReadOk "x = 1") ]%string.

(** Minified and bundled files next to a source file. *)
Definition bundled : list entry :=
  [ File "app.min.js" (StatOk 10 0) (ReadOk "var a=1;");
    File "app.bundle.js" (StatOk 10 0) (ReadOk "var b=2;");
    File "style.min.css" (StatOk 10 0) (ReadOk "a{}");
    File "logo.PNG" (StatOk 10 0) (ReadOk "x");
    File "main.js" (StatOk 10 0) (ReadOk "var c=3;") ]%string.

(** A source tree with a hidden directory, a deny-listed directory two
    levels down, and files at two depths. *)
Definition nested : list entry :=
  [ Dir ".git" (Some [ File "config" (StatOk 3 0) (ReadOk "bare") ]);
    Dir "src"
      (Some [ Dir "node_modules"
                (Some [ Dir "lib" (Some [ File "x.js" (StatOk 9 0) (ReadOk "var x;") ]) ]);
              Dir "lib" (Some [ File "util.py" (StatOk 5 0) (ReadOk "y = 2") ]);
              File "main.py" (StatOk 5 0) (ReadOk "x = 1") ]) ]%string.

(** A tree whose [.gitignore] names a directory and a path. *)
Definition nested_with_patterns : list entry :=
  [ File ".gitignore" (StatOk 16 0)
      (ReadOk ("gen/" ++ String newline "src/main.py"));
    Dir "src"
      (Some [ Dir "gen" (Some [ File "out.py" (StatOk 5 0) (ReadOk "z = 3") ]);
              Dir "lib" (Some [ File "util.py" (StatOk 5 0) (ReadOk "y = 2") ]);
              File "main.py" (StatOk 5 0) (ReadOk "x = 1") ]) ]%string.

End Examples.

(** ** Predicates used to reason about the scan *)

Module ScanLogic.

Import Database Scanner.

Section Keeps.

(** A property of a database, such as "the row of this path holds this
    fingerprint". *)
Variable P : db -> Prop.

(** From [c] to [c'] the property is kept: by what the connection sees,
    and by what is committed as long as the connection sees it too. *)
Definition conn_keeps (c c' : conn) : Prop :=
  (P (working c) -> P (working c')) /\
  (P (working c) -> P (committed c) -> P (committed c')).

Definition sql_keeps {A} (m : Sql A) : Prop :=
  forall c r c', m c = (r, c') -> conn_keeps c c'.

Definition keeps {A} (m : M A) : Prop :=
  forall st o st', m st = (o, st') -> conn_keeps (st_conn st) (st_conn st').

End Keeps.

(** The fingerprint [h] is stored under [path]. *)
Definition stored (path h : string) (d : db) : Prop :=
  stored_hash d path = Some h.

(** Two results that differ at most in [chunks_created]. *)
Definition same_counts (r r' : result) : Prop :=
  files_scanned r' = files_scanned r /\
  files_indexed r' = files_indexed r /\
  files_skipped r' = files_skipped r /\
  errors r' = errors r /\
  stopped_early r' = stopped_early r.

(** What the body of the [try] has done when it leaves with [o], going from
    [st] to [st']. *)
Definition try_post (sha256_hexdigest : string -> string) (f : Walker.walked)
    (st : state) (o : outcome unit) (st' : state) : Prop :=
  let r := st_result st in
  let r' := st_result st' in
  let c := st_conn st in
  let c' := st_conn st' in
  files_scanned r' = files_scanned r /\
  errors r' = errors r /\
  stopped_early r' = stopped_early r /\
  (faults c = [] -> faults c' = []) /\
  match o with
  | Normal _ =>
      files_indexed r' = files_indexed r + 1 /\
      files_skipped r' = files_skipped r /\
      committed c' = working c' /\
      forall content,
        Walker.read_text f = Walker.ReadOk content ->
        stored (Walker.rel_path f) (hash_content sha256_hexdigest content) (working c')
  | Continue =>
      files_indexed r' = files_indexed r /\
      files_skipped r' = files_skipped r + 1 /\
      chunks_created r' = chunks_created r /\
      working c' = working c /\
      committed c' = committed c
  | Raised UnicodeDecodeError =>
      files_indexed r' = files_indexed r /\
      files_skipped r' = files_skipped r
  | Raised (Exception _) =>
      files_skipped r' = files_skipped r /\
      (files_indexed r' = files_indexed r \/
       (files_indexed r' = files_indexed r + 1 /\ faults c <> []))
  end.

End ScanLogic.

(** ** Predicates on names, stores and runs used by further properties *)

Module StoreLogic.

Import Py Chunker Walker Database Scanner.

(** An extension made of a dot followed by characters none of which is a
    dot. *)
Definition single_dot (ext : string) : bool :=
  match ext with
  | String c e => Ascii.eqb c "." && (rfind "." e =? -1)
  | EmptyString => false
  end.

(** [leads_to e comps w]: going down from the entry [e], [comps] are the
    names of the directories entered, outermost first, followed by the name
    of a file found there, and [w] carries that file's name, [stat] and
    [read_text]. *)
Inductive leads_to : entry -> list string -> walked -> Prop :=
| leads_to_file n st rd rel :
    leads_to (File n st rd) [n]
      {| rel_path := rel; name := n; stat := st; read_text := rd |}
| leads_to_dir n entries e comps w :
    In e entries -> leads_to e comps w ->
    leads_to (Dir n (Some entries)) (n :: comps) w.

(** The same from the listing of the workspace root. *)
Definition located (root : list entry) (comps : list string) (w : walked) : Prop :=
  exists e, In e root /\ leads_to e comps w.

(** The three values the [kind] of a chunk takes. *)
Definition is_kind (k : string) : Prop :=
  k = "function"%string \/ k = "class"%string \/ k = "block"%string.

(** At most one row of [files] per path. *)
Definition unique_paths (d : db) : Prop := NoDup (map f_path (files d)).

(** No two rows of [files] with the same id, no two rows of [chunks]
    either. *)
Definition unique_ids (d : db) : Prop :=
  NoDup (map f_id (files d)) /\ NoDup (map c_id (chunks d)).

(** The shadow index mirrors [chunks]: one entry per row, same rowid, same
    content, same order. *)
Definition fts_in_sync (d : db) : Prop :=
  chunks_fts d = map (fun c => (c_id c, c_content c)) (chunks d).

(** The shadow index can be kept in step: chunk ids are unique and the
    index mirrors the table. *)
Definition shadow_ok (d : db) : Prop :=
  NoDup (map c_id (chunks d)) /\ fts_in_sync d.

(** Every chunk belongs to a row of [files]. *)
Definition chunks_owned (d : db) : Prop :=
  forall c, In c (chunks d) -> In (c_file_id c) (map f_id (files d)).

(** No chunk row carries a symbol, and all are of kind [block]. *)
Definition no_symbols (d : db) : Prop :=
  Forall (fun c => c_symbol c = None /\ c_kind c = Some "block"%string) (chunks d).

(** A chunk row without its id. *)
Definition row_payload (c : chunk_row)
  : Z * Z * Z * string * option string * option string :=
  (c_file_id c, c_start_line c, c_end_line c, c_content c, c_symbol c, c_kind c).

(** What [scan_workspace_sync] passes to [insert_chunk] for a chunk. *)
Definition chunk_payload (file_id : Z) (ch : chunk)
  : Z * Z * Z * string * option string * option string :=
  (file_id, start_line ch, end_line ch, content ch, symbol ch, Some (kind ch)).

(** The rows of [chunks] of one file, and the others. *)
Definition chunks_of (file_id : Z) (d : db) : list chunk_row :=
  filter (fun c => c_file_id c =? file_id) (chunks d).

Definition chunks_not_of (file_id : Z) (d : db) : list chunk_row :=
  filter (fun c => negb (c_file_id c =? file_id)) (chunks d).

(** On a connection none of whose calls fails, the code ends without an
    exception and the connection still has no failing call ahead. *)
Definition sql_calm {A} (m : Sql A) : Prop :=
  forall c r c', m c = (r, c') -> faults c = [] ->
    faults c' = [] /\ exists a, r = inl a.

(** The code never leaves by [UnicodeDecodeError], and on a connection none
    of whose calls fails it leaves by no exception at all. *)
Definition calm {A} (m : M A) : Prop :=
  forall st o st', m st = (o, st') ->
    o <> Raised UnicodeDecodeError /\
    (faults (st_conn st) = [] ->
     faults (st_conn st') = [] /\ forall e, o <> Raised e).

(** The rows of [chunks] after inserting the chunks [cs] for [file_id],
    one [INSERT] each. *)
Definition insert_rows (file_id : Z) (cs : list chunk) (d : db) : db :=
  fold_left (fun d ch =>
               snd (insert_chunk_row file_id (start_line ch) (end_line ch)
                      (content ch) (symbol ch) (Some (kind ch)) d))
    cs d.

(** The id of the row stored under [path]. *)
Definition stored_id (d : db) (path : string) : option Z :=
  option_map f_id (find (fun r => String.eqb (f_path r) path) (files d)).

(** The chunks are owned and [file_id] is the id of a row of [files]. *)
Definition owns (file_id : Z) (d : db) : Prop :=
  chunks_owned d /\ In file_id (map f_id (files d)).

(** A triple for code of the scan, about a property [C] of the tables that
    is to hold of what the connection sees and of what is committed: run
    where the connection sees tables with [W] and [C] holds of the committed
    ones, the code leaves [C] true of the committed tables; when it ends
    with a value [a] the connection sees tables with [W' a], and when it
    leaves by [continue] or an exception the connection sees tables with
    [C]. *)
Definition triple (C : db -> Prop) {A} (W : db -> Prop) (m : M A)
    (W' : A -> db -> Prop) : Prop :=
  forall st o st', m st = (o, st') ->
    W (working (st_conn st)) -> C (committed (st_conn st)) ->
    C (committed (st_conn st')) /\
    match o with
    | Normal a => W' a (working (st_conn st'))
    | _ => C (working (st_conn st'))
    end.

End StoreLogic.

(** ** Facts about the Python primitives *)

Module PyFacts.

Import Py.

Lemma split_nonempty sep s : split sep s <> [].
Proof.
  destruct s as [|c r]; simpl; [discriminate|].
  destruct (Ascii.eqb c sep); [discriminate|].
  destruct (split sep r); discriminate.
Qed.

Lemma len_nonneg {A} (l : list A) : 0 <= len l.
Proof. unfold len; lia. Qed.

Lemma slice_len {A} (l : list A) lo hi :
  0 <= lo -> lo <= hi -> hi <= len l -> len (slice l lo hi) = hi - lo.
Proof.
  intros Hlo Hhi Hn. unfold slice, norm_index.
  assert (E1 : (lo <? 0) = false) by (apply Z.ltb_ge; lia).
  assert (E2 : (hi <? 0) = false) by (apply Z.ltb_ge; lia).
  rewrite E1, E2. unfold len in *.
  rewrite length_firstn, length_skipn. lia.
Qed.

End PyFacts.

(** ** The chunker: termination, ordering and coverage *)

Module ChunkerFacts.

Import Py PyFacts Chunker.

Section Facts.

Variable re_search : string -> string -> option string.
Variable lines : list string.
Variables max_lines overlap min_lines : Z.
Variable language : option string.

Local Abbreviation total := (len lines).
Local Abbreviation loop := (chunk_loop re_search lines max_lines overlap min_lines language).
Local Abbreviation win := (window re_search lines max_lines min_lines language).

Lemma window_cases start :
  win start = [] \/
  exists c, win start = [c] /\ start_line c = start + 1 /\
            end_line c = Z.min (start + max_lines) total.
Proof.
  unfold window.
  destruct ((len (slice lines start (Z.min (start + max_lines) total)) >=? min_lines)
            || (start =? 0)); [right|left; reflexivity].
  destruct (extract_symbol re_search _ language) as [sym knd].
  eexists; split; [reflexivity|]. split; reflexivity.
Qed.

Lemma window_yielded start :
  (len (slice lines start (Z.min (start + max_lines) total)) >=? min_lines)
    || (start =? 0) = true ->
  exists c, win start = [c] /\ start_line c = start + 1 /\
            end_line c = Z.min (start + max_lines) total.
Proof.
  intros H. unfold window. rewrite H.
  destruct (extract_symbol re_search _ language) as [sym knd].
  eexists; split; [reflexivity|]. split; reflexivity.
Qed.

(** One step of the loop, as an equation. *)
Lemma chunk_loop_step fuel start prev :
  start < total -> start <> prev ->
  loop (S fuel) start prev =
    if Z.min (start + max_lines) total >=? total then Some (win start, 1%nat)
    else
      let new_start := Z.min (start + max_lines) total - overlap in
      let new_start := if new_start <=? start then start + 1 else new_start in
      match loop fuel new_start start with
      | Some (rest, n) => Some (win start ++ rest, S n)
      | None => None
      end.
Proof.
  intros Hlt Hne. simpl.
  assert (E1 : (start <? total) = true) by (apply Z.ltb_lt; exact Hlt).
  assert (E2 : (start =? prev) = false) by (apply Z.eqb_neq; exact Hne).
  rewrite E1, E2. reflexivity.
Qed.

Lemma chunk_loop_done fuel start prev :
  total <= start -> loop fuel start prev = Some ([], O).
Proof.
  intros H. assert (E : (start <? total) = false) by (apply Z.ltb_ge; exact H).
  destruct fuel; simpl; rewrite E; reflexivity.
Qed.

(** The next start is always past the current one. *)
Lemma next_start_advances start en :
  start < (if en - overlap <=? start then start + 1 else en - overlap).
Proof. destruct (Z.leb_spec (en - overlap) start); lia. Qed.

Lemma chunk_loop_terminates fuel : forall start prev,
  0 <= start -> prev < start -> total - start <= Z.of_nat fuel ->
  exists cs n, loop fuel start prev = Some (cs, n) /\
               Z.of_nat n <= Z.max 0 (total - start).
Proof.
  induction fuel as [|fuel IH]; intros start prev H0 Hp Hf.
  - exists [], O. split; [apply chunk_loop_done; lia | lia].
  - destruct (Z.lt_ge_cases start total) as [Hlt|Hge].
    2:{ exists [], O. split; [apply chunk_loop_done; lia | lia]. }
    rewrite chunk_loop_step by lia.
    destruct (Z.min (start + max_lines) total >=? total).
    + exists (win start), 1%nat. split; [reflexivity | lia].
    + cbv zeta.
      pose proof (next_start_advances start (Z.min (start + max_lines) total)) as Hadv.
      set (ns := if _ <=? start then start + 1 else _) in *.
      destruct (IH ns start) as (rest & n & -> & Hn); try lia.
      exists (win start ++ rest), (S n). split; [reflexivity | lia].
Qed.

Lemma chunk_loop_more_fuel fuel : forall start prev r k,
  loop fuel start prev = Some r -> loop (fuel + k) start prev = Some r.
Proof.
  induction fuel as [|fuel IH]; intros start prev r k H.
  - simpl in H. destruct (start <? total) eqn:E; simpl in H; [discriminate|].
    injection H as <-. apply chunk_loop_done. apply Z.ltb_ge; exact E.
  - simpl in H |- *. destruct (start <? total); simpl in *; [|exact H].
    destruct (start =? prev); [exact H|].
    destruct (Z.min (start + max_lines) total >=? total); [exact H|].
    match type of H with
    | match loop fuel ?ns ?p with _ => _ end = _ =>
        destruct (loop fuel ns p) as [[rest n]|] eqn:E; [|discriminate];
        rewrite (IH _ _ _ k E); exact H
    end.
Qed.

(** Every chunk yielded from [start] on begins after [start], and the starts
    increase. *)
Lemma chunk_loop_sorted fuel : forall start prev cs n,
  loop fuel start prev = Some (cs, n) ->
  Forall (fun c => start < start_line c) cs /\
  StronglySorted Z.lt (map start_line cs).
Proof.
  induction fuel as [|fuel IH]; intros start prev cs n H.
  - simpl in H. destruct (start <? total); simpl in H; [discriminate|].
    injection H as <- <-. split; constructor.
  - simpl in H. destruct (start <? total); simpl in H.
    2:{ injection H as <- <-. split; constructor. }
    destruct (start =? prev).
    1:{ injection H as <- <-. split; constructor. }
    assert (Hw : Forall (fun c => start_line c = start + 1) (win start)).
    { destruct (window_cases start) as [->|(c & -> & Hs & _)]; repeat constructor; exact Hs. }
    destruct (Z.min (start + max_lines) total >=? total).
    + injection H as <- <-.
      destruct (window_cases start) as [->|(c & -> & Hs & _)].
      * split; constructor.
      * split; repeat constructor. lia.
    + pose proof (next_start_advances start (Z.min (start + max_lines) total)) as Hadv.
      set (ns := if _ <=? start then start + 1 else _) in *.
      destruct (loop fuel ns start) as [[rest m]|] eqn:E; [|discriminate].
      injection H as <- <-.
      destruct (IH _ _ _ _ E) as [Hall Hsort].
      destruct (window_cases start) as [->|(c & -> & Hs & _)]; simpl.
      * split; [|exact Hsort].
        eapply Forall_impl; [|exact Hall]. simpl; intros; lia.
      * split.
        -- constructor; [lia|]. eapply Forall_impl; [|exact Hall]. simpl; intros; lia.
        -- constructor; [exact Hsort|].
           rewrite Forall_map. eapply Forall_impl; [|exact Hall]. simpl; intros; lia.
Qed.

Lemma chunk_loop_last fuel start prev :
  start < total -> start <> prev -> total <= start + max_lines ->
  loop (S fuel) start prev = Some (win start, 1%nat).
Proof.
  intros H1 H2 H3. rewrite chunk_loop_step by assumption.
  destruct (Z.geb_spec (Z.min (start + max_lines) total) total); [reflexivity | lia].
Qed.

Lemma chunk_loop_advance fuel start prev :
  start < total -> start <> prev -> start + max_lines < total ->
  start < start + max_lines - overlap ->
  loop (S fuel) start prev =
    match loop fuel (start + max_lines - overlap) start with
    | Some (rest, n) => Some (win start ++ rest, S n)
    | None => None
    end.
Proof.
  intros H1 H2 H3 H4. rewrite chunk_loop_step by assumption.
  replace (Z.min (start + max_lines) total) with (start + max_lines) by lia.
  destruct (Z.geb_spec (start + max_lines) total); [lia|].
  cbv zeta. destruct (Z.leb_spec (start + max_lines - overlap) start); [lia | reflexivity].
Qed.

Lemma window_range start :
  0 <= start < total -> 0 <= max_lines ->
  start = 0 \/ min_lines <= Z.min max_lines (total - start) ->
  map range (win start) = [(start + 1, Z.min (start + max_lines) total)].
Proof.
  intros Hs Hm Hy.
  destruct (window_yielded start) as (c & -> & H1 & H2).
  - rewrite slice_len by lia.
    destruct Hy as [->|Hy]; [rewrite orb_true_r; reflexivity|].
    apply orb_true_iff; left. apply Z.geb_le. lia.
  - simpl. unfold range. rewrite H1, H2. reflexivity.
Qed.

Lemma covered_app cs1 cs2 i :
  covered (cs1 ++ cs2) i = covered cs1 i || covered cs2 i.
Proof. unfold covered. apply existsb_app. Qed.

(** With a positive window, a non-negative overlap and [min_lines] at most
    [max_lines] and at most [overlap + 1], no window is dropped, and the
    chunks yielded from [start] on cover every line after [start]. *)
Lemma chunk_loop_covers fuel : forall start prev cs n,
  1 <= max_lines -> 0 <= overlap ->
  min_lines <= max_lines -> min_lines <= overlap + 1 ->
  loop fuel start prev = Some (cs, n) ->
  0 <= start < total -> prev < start ->
  start = 0 \/ min_lines <= total - start ->
  forall i, start < i <= total -> covered cs i = true.
Proof.
  induction fuel as [|fuel IH]; intros start prev cs n Hm Ho Hc1 Hc2 H Hs Hp Hy i Hi.
  - simpl in H. destruct (Z.ltb_spec start total); [discriminate | lia].
  - rewrite chunk_loop_step in H by lia.
    destruct (window_yielded start) as (c & Hw & Hs1 & Hs2).
    { rewrite slice_len by lia.
      destruct Hy as [->|Hy]; [rewrite orb_true_r; reflexivity|].
      apply orb_true_iff; left. apply Z.geb_le. lia. }
    rewrite Hw in H.
    assert (Hhere : i <= Z.min (start + max_lines) total ->
                    covered [c] i = true).
    { intros Hle. unfold covered; simpl. rewrite Hs1, Hs2.
      rewrite orb_false_r. apply andb_true_iff.
      split; apply Z.leb_le; lia. }
    destruct (Z.geb_spec (Z.min (start + max_lines) total) total) as [Hge|Hlt].
    + injection H as <- <-. apply Hhere. lia.
    + cbv zeta in H.
      set (ns := if _ <=? start then start + 1 else _) in *.
      assert (Hns : start < ns <= start + max_lines /\ min_lines <= total - ns).
      { subst ns. destruct (Z.leb_spec (Z.min (start + max_lines) total - overlap) start);
          split; lia. }
      destruct (loop fuel ns start) as [[rest m]|] eqn:E; [|discriminate].
      injection H as <- <-.
      change (c :: rest) with ([c] ++ rest). rewrite covered_app.
      destruct (Z.le_gt_cases i (Z.min (start + max_lines) total)) as [Hle|Hgt].
      * rewrite Hhere by exact Hle. reflexivity.
      * rewrite (IH ns start rest m); try assumption; try lia.
Qed.


Lemma window_content start c :
  In c (win start) ->
  content c = text_of (slice lines start (Z.min (start + max_lines) total)).
Proof.
  unfold window.
  destruct ((len (slice lines start (Z.min (start + max_lines) total)) >=? min_lines)
            || (start =? 0)); [|intros []].
  destruct (extract_symbol re_search _ language) as [sym knd].
  intros [<-|[]]. reflexivity.
Qed.

End Facts.

(** [split] at the newline that ends a line. *)
Lemma split_line l rest :
  char_in newline l = false ->
  split newline (l ++ String newline rest) = l :: split newline rest.
Proof.
  induction l as [|d l IH]; intros H.
  - cbn [append split]. rewrite Ascii.eqb_refl. reflexivity.
  - cbn [char_in] in H. apply orb_false_iff in H. destruct H as [Hd Hl].
    cbn [append split]. rewrite Hd, (IH Hl). reflexivity.
Qed.

(** A text of lines each ended by a newline is cut into its lines and one
    more item, the empty string after the last newline. *)
Lemma split_text_of_ended ls :
  forallb (fun l => negb (char_in newline l)) ls = true ->
  split newline (text_of_ended ls) = ls ++ [EmptyString].
Proof.
  induction ls as [|l ls IH]; intros H; [reflexivity|].
  cbn [forallb] in H. apply andb_true_iff in H. destruct H as [Hl Hls].
  apply negb_true_iff in Hl.
  cbn [text_of_ended fold_right]. fold (text_of_ended ls).
  rewrite (split_line l _ Hl), (IH Hls). reflexivity.
Qed.

Section Claims.

Variable re_search : string -> string -> option string.

Lemma lines_positive content : 0 < len (split newline content).
Proof.
  pose proof (split_nonempty newline content) as H.
  unfold len. destruct (split newline content); [contradiction | simpl; lia].
Qed.

Lemma run_is_loop fuel content max_lines overlap min_lines language :
  chunk_content_run re_search fuel content max_lines overlap min_lines language =
  chunk_loop re_search (split newline content) max_lines overlap min_lines
    language fuel 0 (-1).
Proof.
  unfold chunk_content_run. pose proof (lines_positive content) as H.
  destruct (Z.eqb_spec (len (split newline content)) 0); [lia | reflexivity].
Qed.

(** What [chunk_content] yields is what the loop yields with one unit of
    fuel per line, and any larger amount of fuel gives the same. *)
Lemma chunks_run content max_lines overlap min_lines language :
  exists n,
    (n <= List.length (split newline content))%nat /\
    forall k,
      chunk_content_run re_search (List.length (split newline content) + k) content
        max_lines overlap min_lines language
      = Some (chunk_content re_search content max_lines overlap min_lines language, n).
Proof.
  destruct (chunk_loop_terminates re_search (split newline content)
              max_lines overlap min_lines language
              (List.length (split newline content)) 0 (-1))
    as (cs & n & Hrun & Hn); try lia.
  { unfold len; lia. }
  exists n. split.
  { pose proof (lines_positive content). unfold len in *. lia. }
  intros k. unfold chunk_content. rewrite !run_is_loop, Hrun.
  apply chunk_loop_more_fuel. exact Hrun.
Qed.


(** C5. For every text and configuration, in the sequence of chunks that
    [chunk_content] yields each chunk's [start_line] is strictly greater
    than that of the chunk yielded before it. *)
Theorem chunk_starts_increase content max_lines overlap min_lines language :
  Sorted Z.lt
    (map start_line
       (chunk_content re_search content max_lines overlap min_lines language)).
Proof.
  destruct (chunks_run content max_lines overlap min_lines language)
    as (n & _ & Hrun).
  specialize (Hrun O). rewrite run_is_loop in Hrun.
  apply StronglySorted_Sorted.
  eapply chunk_loop_sorted. exact Hrun.
Qed.

(** C2, as amended. For every text of [N >= 1] lines and every configuration
    with [max_lines >= 1], [overlap >= 0], [min_lines <= max_lines] and
    [min_lines <= overlap + 1] (the defaults 80 / 5 / 3 are such), every
    line of [1 .. N] lies in the range of a yielded chunk. *)
Theorem chunk_content_covers content max_lines overlap min_lines language i :
  1 <= max_lines -> 0 <= overlap ->
  min_lines <= max_lines -> min_lines <= overlap + 1 ->
  1 <= i <= len (split newline content) ->
  covered (chunk_content re_search content max_lines overlap min_lines language) i = true.
Proof.
  intros Hm Ho Hc1 Hc2 Hi.
  destruct (chunks_run content max_lines overlap min_lines language)
    as (n & _ & Hrun).
  specialize (Hrun O). rewrite run_is_loop in Hrun.
  eapply chunk_loop_covers; try exact Hrun; try assumption; try lia.
Qed.

(** A text that [split] cuts into exactly 200 lines, that is 200 lines the
    last of which has no final newline, chunked with [max_lines = 80],
    [overlap = 5], [min_lines = 3] yields exactly three chunks, with ranges
    1-80, 76-155 and 151-200, and the loop leaves after its third iteration. *)
Theorem chunk_200_lines content language :
  List.length (split newline content) = 200%nat ->
  map range (chunk_content re_search content 80 5 3 language) = [(1, 80); (76, 155); (151, 200)] /\
  chunk_content_run re_search 200 content 80 5 3 language
    = Some (chunk_content re_search content 80 5 3 language, 3%nat).
Proof.
  intros HN.
  assert (Hlen : len (split newline content) = 200) by (unfold len; rewrite HN; reflexivity).
  assert (Hrun : chunk_content_run re_search 200 content 80 5 3 language =
                 Some (window re_search (split newline content) 80 3 language 0 ++
                       window re_search (split newline content) 80 3 language 75 ++
                       window re_search (split newline content) 80 3 language 150,
                       3%nat)).
  { rewrite run_is_loop.
    change 200%nat with (S (S (S 197))).
    rewrite chunk_loop_advance by (rewrite ?Hlen; lia).
    change (0 + 80 - 5) with 75.
    rewrite chunk_loop_advance by (rewrite ?Hlen; lia).
    change (75 + 80 - 5) with 150.
    rewrite chunk_loop_last by (rewrite ?Hlen; lia).
    reflexivity. }
  assert (Hchunks : chunk_content re_search content 80 5 3 language =
                    window re_search (split newline content) 80 3 language 0 ++
                    window re_search (split newline content) 80 3 language 75 ++
                    window re_search (split newline content) 80 3 language 150).
  { unfold chunk_content. rewrite HN, Hrun. reflexivity. }
  split; [|rewrite Hrun, Hchunks; reflexivity].
  rewrite Hchunks, !map_app.
  rewrite !window_range by (rewrite ?Hlen; lia).
  rewrite Hlen. reflexivity.
Qed.

(** C8 on the code. A text of exactly 200 lines, each ended by a newline, is
    cut by [split] into 201 items, the last one the empty string after the
    final newline. Chunked with [max_lines = 80], [overlap = 5],
    [min_lines = 3] it yields three chunks with ranges 1-80, 76-155 and
    151-201: the last chunk ends at line 201, not 200. *)
Theorem chunk_200_ended_lines ls language :
  List.length ls = 200%nat ->
  forallb (fun l => negb (char_in newline l)) ls = true ->
  split newline (text_of_ended ls) = ls ++ [EmptyString] /\
  map range (chunk_content re_search (text_of_ended ls) 80 5 3 language)
    = [(1, 80); (76, 155); (151, 201)].
Proof.
  intros HN Hnl.
  pose proof (split_text_of_ended ls Hnl) as Hsplit.
  split; [exact Hsplit|].
  set (content := text_of_ended ls) in *.
  assert (HN' : List.length (split newline content) = 201%nat)
    by (rewrite Hsplit, length_app, HN; reflexivity).
  assert (Hlen : len (split newline content) = 201)
    by (unfold len; rewrite HN'; reflexivity).
  assert (Hrun : chunk_content_run re_search 201 content 80 5 3 language =
                 Some (window re_search (split newline content) 80 3 language 0 ++
                       window re_search (split newline content) 80 3 language 75 ++
                       window re_search (split newline content) 80 3 language 150,
                       3%nat)).
  { rewrite run_is_loop.
    change 201%nat with (S (S (S 198))).
    rewrite chunk_loop_advance by (rewrite ?Hlen; lia).
    change (0 + 80 - 5) with 75.
    rewrite chunk_loop_advance by (rewrite ?Hlen; lia).
    change (75 + 80 - 5) with 150.
    rewrite chunk_loop_last by (rewrite ?Hlen; lia).
    reflexivity. }
  assert (Hchunks : chunk_content re_search content 80 5 3 language =
                    window re_search (split newline content) 80 3 language 0 ++
                    window re_search (split newline content) 80 3 language 75 ++
                    window re_search (split newline content) 80 3 language 150).
  { unfold chunk_content. rewrite HN', Hrun. reflexivity. }
  rewrite Hchunks, !map_app.
  rewrite !window_range by (rewrite ?Hlen; lia).
  rewrite Hlen. reflexivity.
Qed.

(** C9 on the code. The empty text does not have zero lines: splitting it
    gives one empty line, the [total_lines == 0] guard does not fire, and
    under every configuration [chunk_content] yields exactly one chunk,
    starting at line 1, with empty content. *)
Theorem chunk_content_empty_text max_lines overlap min_lines language :
  split newline EmptyString = [EmptyString] /\
  exists c,
    chunk_content re_search EmptyString max_lines overlap min_lines language = [c] /\
    start_line c = 1 /\ end_line c = Z.min max_lines 1 /\
    content c = EmptyString.
Proof.
  split; [reflexivity|].
  destruct (chunks_run EmptyString max_lines overlap min_lines language)
    as (n & _ & Hrun).
  specialize (Hrun O). rewrite run_is_loop in Hrun.
  change (split newline EmptyString) with [EmptyString] in Hrun.
  change (List.length [EmptyString] + 0)%nat with 1%nat in Hrun.
  set (cs := chunk_content re_search EmptyString max_lines overlap min_lines language) in *.
  clearbody cs.
  assert (Hwin : exists c,
             window re_search [EmptyString] max_lines min_lines language 0 = [c] /\
             start_line c = 1 /\ end_line c = Z.min max_lines 1 /\
             content c = EmptyString).
  { destruct (window_yielded re_search [EmptyString] max_lines min_lines language 0)
      as (c & Hw & H1 & H2).
    { rewrite orb_true_r; reflexivity. }
    exists c. repeat split; try assumption.
    rewrite (window_content re_search [EmptyString] max_lines min_lines language 0 c)
      by (rewrite Hw; left; reflexivity).
    change (len [EmptyString]) with 1. simpl (0 + max_lines).
    unfold slice, norm_index. change (len [EmptyString]) with 1.
    change (0 <? 0) with false. cbv iota. change (Z.min 0 1) with 0.
    destruct (Z.ltb_spec (Z.min max_lines 1) 0).
    - replace (Z.max (Z.min max_lines 1 + 1) 0 - 0) with 0 by lia. reflexivity.
    - destruct (Z.le_gt_cases 1 max_lines).
      + replace (Z.min (Z.min max_lines 1) 1 - 0) with 1 by lia. reflexivity.
      + replace (Z.min (Z.min max_lines 1) 1 - 0) with 0 by lia. reflexivity. }
  destruct Hwin as (c & Hw & Hc).
  exists c. split; [|exact Hc].
  rewrite chunk_loop_step in Hrun by (change (len [EmptyString]) with 1; lia).
  rewrite Hw in Hrun.
  destruct (Z.min (0 + max_lines) (len [EmptyString]) >=? len [EmptyString]).
  - injection Hrun as <- _. reflexivity.
  - cbv zeta in Hrun. rewrite chunk_loop_done in Hrun.
    + injection Hrun as <- _. reflexivity.
    + change (len [EmptyString]) with 1.
      destruct (Z.leb_spec (Z.min (0 + max_lines) 1 - overlap) 0); lia.
Qed.

End Claims.

Lemma chunk_200_lines_witness :
  let content := text_of (repeat "x"%string 200) in
  List.length (split newline content) = 200%nat /\
  map range (chunk_content (fun _ _ => None) content 80 5 3 None)
    = [(1, 80); (76, 155); (151, 200)] /\
  chunk_content_run (fun _ _ => None) 200 content 80 5 3 None
    = Some (chunk_content (fun _ _ => None) content 80 5 3 None, 3%nat).
Proof.
  cbv zeta. split; [vm_compute; reflexivity|].
  apply (chunk_200_lines (fun _ _ => None)). vm_compute; reflexivity.
Defined.

Lemma chunk_200_ended_lines_witness :
  let ls := repeat "x"%string 200 in
  List.length ls = 200%nat /\
  List.length (split newline (text_of_ended ls)) = 201%nat /\
  map range (chunk_content (fun _ _ => None) (text_of_ended ls) 80 5 3 None)
    = [(1, 80); (76, 155); (151, 201)].
Proof.
  intros ls. split; [reflexivity|]. split; [reflexivity|].
  exact (proj2 (chunk_200_ended_lines (fun _ _ => None) ls None
                  eq_refl eq_refl)).
Defined.

Lemma chunk_content_covers_witness :
  let content := text_of ["a"; "b"; "c"; "d"]%string in
  1 <= 4 <= len (split newline content) /\
  covered (chunk_content (fun _ _ => None) content 80 5 3 None) 4 = true.
Proof.
  cbv zeta. split; [vm_compute; split; discriminate|].
  apply (chunk_content_covers (fun _ _ => None)); try lia.
  vm_compute; split; discriminate.
Defined.

(** C2 as stated fails. On a text of five lines:
    a trailing window shorter than [min_lines] is dropped, so [max_lines = 3],
    [overlap = 0], [min_lines = 3] yield only 1-3 and line 4 is left out;
    with [min_lines] above [max_lines] every window after the first is
    dropped, so [max_lines = 2], [overlap = 5], [min_lines = 3] yield only
    1-2; a negative overlap skips lines, so [max_lines = 2], [overlap = -1],
    [min_lines = 1] yield 1-2 and 4-5 and line 3 is left out; and
    [max_lines = 0] gives windows of no lines, which cover nothing. *)
Lemma chunk_content_gap :
  let content := text_of ["a"; "b"; "c"; "d"; "e"]%string in
  let chunks := chunk_content (fun _ _ => None) content in
  len (split newline content) = 5 /\
  map range (chunks 3 0 3 None) = [(1, 3)] /\
  covered (chunks 3 0 3 None) 4 = false /\
  map range (chunks 2 5 3 None) = [(1, 2)] /\
  covered (chunks 2 5 3 None) 3 = false /\
  map range (chunks 2 (-1) 1 None) = [(1, 2); (4, 5)] /\
  covered (chunks 2 (-1) 1 None) 3 = false /\
  covered (chunks 0 0 0 None) 1 = false.
Proof. vm_compute. repeat split. Qed.

End ChunkerFacts.

(** ** The store and the scan loop *)

Module ScannerFacts.

Import Py Chunker Walker Database Scanner ScanLogic.

Section KeepsFacts.

Variable P : db -> Prop.

Lemma conn_keeps_refl c : conn_keeps P c c.
Proof. split; auto. Qed.

Lemma conn_keeps_trans c1 c2 c3 :
  conn_keeps P c1 c2 -> conn_keeps P c2 c3 -> conn_keeps P c1 c3.
Proof. intros [A1 A2] [B1 B2]. split; auto. Qed.



Lemma sql_keeps_bind {A B} (m : Sql A) (k : A -> Sql B) :
  sql_keeps P m -> (forall a, sql_keeps P (k a)) -> sql_keeps P (sql_bind m k).
Proof.
  intros Hm Hk c r c' H. unfold sql_bind in H.
  destruct (m c) as [[a|msg] c1] eqn:E.
  - eapply conn_keeps_trans; [eapply Hm; exact E | eapply Hk; exact H].
  - inversion H; subst. eapply Hm; exact E.
Qed.

Lemma sql_keeps_execute {A} (stmt : db -> A * db) :
  (forall d, P d -> P (snd (stmt d))) -> sql_keeps P (execute stmt).
Proof.
  intros Hs c r c' H. unfold execute in H.
  assert (Hgo : forall sched,
             (let '(a, d) := stmt (working c) in
              (@inl A string a, {| working := d; committed := committed c;
                                   faults := tl sched |})) = (r, c') ->
             conn_keeps P c c').
  { intros sched Hx. specialize (Hs (working c)).
    destruct (stmt (working c)) as [a d]. inversion Hx; subst.
    split; simpl; auto. }
  destruct (faults c) as [|[msg|] rest]; try (eapply Hgo; exact H).
  inversion H; subst. split; simpl; auto.
Qed.

Lemma sql_keeps_commit : sql_keeps P commit.
Proof.
  intros c r c' H. unfold commit in H.
  destruct (faults c) as [|[msg|] rest]; inversion H; subst; split; simpl; auto.
Qed.

Lemma keeps_ret {A} (a : A) : keeps P (ret a).
Proof. intros st o st' H. inversion H; subst. apply conn_keeps_refl. Qed.

Lemma keeps_raise {A} e : keeps P (@raise A e).
Proof. intros st o st' H. inversion H; subst. apply conn_keeps_refl. Qed.

Lemma keeps_continue {A} : keeps P (@continue A).
Proof. intros st o st' H. inversion H; subst. apply conn_keeps_refl. Qed.

Lemma keeps_update f : keeps P (update f).
Proof. intros st o st' H. inversion H; subst. apply conn_keeps_refl. Qed.

Lemma keeps_sql {A} (m : Sql A) : sql_keeps P m -> keeps P (sql m).
Proof.
  intros Hm st o st' H. unfold sql in H.
  destruct (m (st_conn st)) as [[a|msg] c] eqn:E; inversion H; subst; simpl;
    eapply Hm; exact E.
Qed.

Lemma keeps_bind {A B} (m : M A) (k : A -> M B) :
  keeps P m -> (forall a, keeps P (k a)) -> keeps P (bind m k).
Proof.
  intros Hm Hk st o st' H. unfold bind in H.
  destruct (m st) as [[a| |e] st1] eqn:E.
  - eapply conn_keeps_trans; [eapply Hm; exact E | eapply Hk; exact H].
  - inversion H; subst. eapply Hm; exact E.
  - inversion H; subst. eapply Hm; exact E.
Qed.

Lemma keeps_path_stat p : keeps P (path_stat p).
Proof. unfold path_stat. destruct (stat p); [apply keeps_ret | apply keeps_raise]. Qed.

Lemma keeps_path_read_text p : keeps P (path_read_text p).
Proof.
  unfold path_read_text.
  destruct (read_text p); [apply keeps_ret | apply keeps_raise | apply keeps_raise].
Qed.

End KeepsFacts.

(** *** Statements and the fingerprint stored under a path *)

Local Abbreviation by_path p := (fun r : file_row => String.eqb (f_path r) p).

Lemma find_last {A} (f : A -> bool) l x :
  find f (l ++ [x]) =
  match find f l with
  | Some y => Some y
  | None => if f x then Some x else None
  end.
Proof.
  induction l as [|a l IH]; simpl; [reflexivity|].
  destruct (f a); [reflexivity | exact IH].
Qed.

Lemma filter_none_find {A} (f : A -> bool) l :
  len (filter f l) <= 0 -> find f l = None.
Proof.
  induction l as [|a l IH]; simpl; [reflexivity|].
  destruct (f a); [unfold len; simpl; lia | exact IH].
Qed.

Lemma stored_hash_files d d' path :
  files d' = files d -> stored_hash d' path = stored_hash d path.
Proof. unfold stored_hash. intros ->. reflexivity. Qed.



Lemma update_file_hit h mtime size lang now pid p d :
  0 < fst (update_file h mtime size lang now pid p d) ->
  stored_hash (snd (update_file h mtime size lang now pid p d)) p = Some h.
Proof.
  unfold stored_hash, update_file; simpl.
  induction (files d) as [|r rows IH]; simpl; [unfold len; simpl; lia|].
  destruct (String.eqb_spec (f_path r) p) as [E|E]; simpl.
  - intros _. rewrite E, String.eqb_refl. reflexivity.
  - intros H. destruct (String.eqb_spec (f_path r) p); [contradiction | auto].
Qed.

Lemma insert_file_miss p h mtime size lang now pid d now' pid' mtime' size' lang' :
  fst (update_file h mtime' size' lang' now' pid' p d) <= 0 ->
  stored_hash (snd (insert_file p h mtime size lang now pid
                      (snd (update_file h mtime' size' lang' now' pid' p d)))) p
  = Some h.
Proof.
  unfold stored_hash, insert_file, update_file; simpl. intros H.
  rewrite find_last; simpl.
  assert (E : forall rows,
             len (filter (by_path p) rows) <= 0 ->
             find (by_path p)
               (map (fun r => if String.eqb (f_path r) p
                              then {| f_id := f_id r; f_path := f_path r; f_hash := h;
                                      f_mtime := mtime'; f_size := size'; f_lang := lang';
                                      f_indexed_at := now'; f_project_id := pid';
                                      f_ignored := f_ignored r |}
                              else r) rows) = None).
  { induction rows as [|r rows IH]; simpl; [reflexivity|].
    destruct (String.eqb_spec (f_path r) p) as [E|E]; simpl.
    - unfold len; simpl; lia.
    - intros Hl. destruct (String.eqb_spec (f_path r) p); [contradiction | auto]. }
  rewrite E by exact H. rewrite String.eqb_refl. reflexivity.
Qed.

(** *** What one call on the connection does *)

Lemma execute_cases {A} (stmt : db -> A * db) c r c' :
  execute stmt c = (r, c') ->
  committed c' = committed c /\ faults c' = tl (faults c) /\
  ((exists msg, r = inr msg /\ working c' = working c /\ next_call_ok c = false) \/
   (r = inl (fst (stmt (working c))) /\ working c' = snd (stmt (working c)))).
Proof.
  unfold execute, next_call_ok. intros H.
  destruct (faults c) as [|[msg|] rest];
    try (destruct (stmt (working c)) as [a d]; inversion H; subst; simpl; auto).
  inversion H; subst; simpl. repeat split. left. exists msg. auto.
Qed.

Lemma execute_ok {A} (stmt : db -> A * db) c :
  next_call_ok c = true ->
  execute stmt c =
    (inl (fst (stmt (working c))),
     {| working := snd (stmt (working c)); committed := committed c;
        faults := tl (faults c) |}).
Proof.
  unfold execute, next_call_ok. intros H.
  destruct (faults c) as [|[msg|] rest]; try discriminate;
    destruct (stmt (working c)); reflexivity.
Qed.

Lemma commit_cases c r c' :
  commit c = (r, c') ->
  working c' = working c /\ faults c' = tl (faults c) /\
  ((exists msg, r = inr msg /\ committed c' = committed c /\ next_call_ok c = false) \/
   (r = inl tt /\ committed c' = working c)).
Proof.
  unfold commit, next_call_ok. intros H.
  destruct (faults c) as [|[msg|] rest]; inversion H; subst; simpl; auto.
  repeat split. left. exists msg. auto.
Qed.

Lemma next_call_ok_nil c : faults c = [] -> next_call_ok c = true.
Proof. unfold next_call_ok. intros ->. reflexivity. Qed.

(** A successful [upsert_file] leaves the given fingerprint under the path
    and commits nothing. *)
Lemma upsert_file_cases now path h size lang mtime pid c r c' :
  upsert_file now path h size lang mtime pid c = (r, c') ->
  committed c' = committed c /\
  chunks (working c') = chunks (working c) /\
  (faults c = [] -> faults c' = []) /\
  match r with
  | inl _ => stored path h (working c')
  | inr _ => faults c <> []
  end.
Proof.
  unfold upsert_file, sql_bind. intros H.
  destruct (execute (update_file h mtime size lang now pid path) c)
    as [[rowcount|msg] c1] eqn:E1.
  2:{ inversion H; subst.
      destruct (execute_cases _ _ _ _ E1) as (Hc & Hf & [(m & _ & Hw & Hn)|(Hr & _)]);
        [|discriminate].
      rewrite Hc, Hw, Hf. repeat split.
      - intros ->. reflexivity.
      - intros Hnil. rewrite (next_call_ok_nil _ Hnil) in Hn. discriminate. }
  destruct (execute_cases _ _ _ _ E1) as (Hc1 & Hf1 & [(m & Hr & _)|(Hr1 & Hw1)]);
    [discriminate|].
  assert (Hrc : fst (update_file h mtime size lang now pid path (working c)) = rowcount)
    by (injection Hr1; auto).
  clear Hr1.
  destruct (Z.gtb_spec rowcount 0) as [Hpos|Hzero].
  - destruct (execute (select_id path) c1) as [[row|msg] c2] eqn:E2.
    + destruct (execute_cases _ _ _ _ E2) as (Hc2 & Hf2 & [(m & Hr & _)|(Hr2 & Hw2)]);
        [discriminate|].
      simpl in Hw2.
      assert (Hst : stored path h (working c2)).
      { unfold stored. rewrite Hw2, Hw1. apply update_file_hit. rewrite Hrc. lia. }
      assert (Hch : chunks (working c2) = chunks (working c)).
      { rewrite Hw2, Hw1. reflexivity. }
      destruct row as [id|]; inversion H; subst c'; subst r.
      * rewrite Hc2, Hc1, Hf2, Hf1. repeat split; auto. intros ->. reflexivity.
      * exfalso. injection Hr2 as Hr2. simpl in Hr2.
        unfold stored, stored_hash in Hst. rewrite Hw2 in Hst.
        destruct (find (by_path path) (files (working c1))); simpl in *; discriminate.
    + inversion H; subst.
      destruct (execute_cases _ _ _ _ E2) as (Hc2 & Hf2 & [(m & _ & Hw2 & Hn)|(Hr & _)]);
        [|discriminate].
      rewrite Hc2, Hc1, Hw2, Hw1, Hf2, Hf1. repeat split.
      * intros ->. reflexivity.
      * intros Hnil. rewrite Hnil in Hf1. simpl in Hf1.
        rewrite (next_call_ok_nil _ Hf1) in Hn. discriminate.
  - destruct (execute_cases _ _ _ _ H) as (Hc2 & Hf2 & [(m & -> & Hw2 & Hn)|(-> & Hw2)]).
    + rewrite Hc2, Hc1, Hw2, Hw1, Hf2, Hf1. repeat split.
      * intros ->. reflexivity.
      * intros Hnil. rewrite Hnil in Hf1. simpl in Hf1.
        rewrite (next_call_ok_nil _ Hf1) in Hn. discriminate.
    + rewrite Hc2, Hc1, Hw2, Hw1, Hf2, Hf1. repeat split.
      * intros ->. reflexivity.
      * unfold stored. apply insert_file_miss. rewrite Hrc. exact Hzero.
Qed.

(** *** Turns for other paths keep the fingerprint stored under a path *)

Section OtherPaths.

Variable re_search : string -> string -> option string.
Variable sha256_hexdigest : string -> string.
Variables now max_files max_file_size max_chunk_lines : Z.
Variable project_id : option Z.

Variables p h : string.

Local Abbreviation kept := (stored p h).
Local Abbreviation body :=
  (try_body re_search sha256_hexdigest now max_file_size max_chunk_lines project_id).
Local Abbreviation turn :=
  (loop_body re_search sha256_hexdigest now max_file_size max_chunk_lines project_id).







End OtherPaths.

(** *** What the body of the [try] does, exit by exit *)

Lemma tl_nil_nil {A} (l : list A) : l = [] -> tl l = [].
Proof. intros ->. reflexivity. Qed.

Lemma insert_chunks_cases file_id cs : forall st o st',
  insert_chunks file_id cs st = (o, st') ->
  same_counts (st_result st) (st_result st') /\
  files (working (st_conn st')) = files (working (st_conn st)) /\
  committed (st_conn st') = committed (st_conn st) /\
  (faults (st_conn st) = [] -> faults (st_conn st') = []) /\
  (o = Normal tt \/ exists msg, o = Raised (Exception msg)).
Proof.
  induction cs as [|c cs IH]; intros st o st' H; simpl in H.
  - inversion H; subst. unfold same_counts. repeat split; auto.
  - unfold bind at 1 in H. unfold sql in H.
    destruct (insert_chunk _ _ _ _ _ _ (st_conn st)) as [[id|msg] c1] eqn:E.
    + unfold insert_chunk in E.
      destruct (execute_cases _ _ _ _ E) as (Hc & Hf & [(m & Hr & _)|(_ & Hw)]);
        [discriminate|].
      unfold bind at 1 in H. unfold update at 1 in H. simpl in H.
      apply IH in H. simpl in H.
      destruct H as ((S1 & S2 & S3 & S4 & S5) & Hfiles & Hcomm & Hfl & Ho).
      unfold same_counts. repeat split; auto.
      * rewrite Hfiles, Hw. reflexivity.
      * rewrite Hcomm. exact Hc.
      * intros Hnil. apply Hfl. rewrite Hf. apply tl_nil_nil. exact Hnil.
    + inversion H; subst; simpl. unfold insert_chunk in E.
      destruct (execute_cases _ _ _ _ E) as (Hc & Hf & [(m & _ & Hw & _)|(Hr & _)]);
        [|discriminate].
      unfold same_counts. repeat split; auto.
      * rewrite Hw. reflexivity.
      * intros Hnil. rewrite Hf. apply tl_nil_nil. exact Hnil.
      * right. exists msg. reflexivity.
Qed.

Section TryBody.

Variable re_search : string -> string -> option string.
Variable sha256_hexdigest : string -> string.
Variables now max_files max_file_size max_chunk_lines : Z.
Variable project_id : option Z.

Local Abbreviation body :=
  (try_body re_search sha256_hexdigest now max_file_size max_chunk_lines project_id).
Local Abbreviation turn :=
  (loop_body re_search sha256_hexdigest now max_file_size max_chunk_lines project_id).

Ltac leave H := inversion H; subst; clear H; unfold try_post; simpl.

Lemma try_body_post f st o st' :
  body f st = (o, st') -> try_post sha256_hexdigest f st o st'.
Proof.
  intros H. unfold try_body in H.
  unfold bind at 1 in H. unfold path_stat in H.
  destruct (stat f) as [file_size file_mtime|msg0];
    [unfold ret at 1 in H | unfold raise at 1 in H]; cbv beta iota in H.
  2:{ leave H. repeat split; auto. }
  destruct (file_size >? max_file_size).
  { leave H. repeat split; auto. }
  unfold bind at 1 in H. unfold path_read_text in H.
  destruct (read_text f) as [content| |msg0] eqn:Eread;
    [unfold ret at 1 in H | unfold raise at 1 in H | unfold raise at 1 in H];
    cbv beta iota in H.
  2:{ leave H. repeat split; auto. }
  2:{ leave H. repeat split; auto. }
  unfold bind at 1 in H. unfold sql at 1 in H.
  destruct (get_file_by_path (rel_path f) (st_conn st)) as [[existing|msg0] c1] eqn:Eget;
    unfold get_file_by_path in Eget;
    destruct (execute_cases _ _ _ _ Eget) as (Hc1 & Hf1 & Hget).
  2:{ leave H. repeat split; auto. intros Hnil. rewrite Hf1, Hnil. reflexivity. }
  destruct Hget as [(m & Hr & _)|(_ & Hw1)]; [discriminate|]. simpl in Hw1.
  destruct (same_hash existing _).
  { leave H. repeat split; auto. intros Hnil. rewrite Hf1, Hnil. reflexivity. }
  unfold bind at 1 in H. unfold sql at 1 in H.
  match type of H with
  | context [upsert_file ?a ?b ?c ?d ?e ?g ?i ?cn] =>
      destruct (upsert_file a b c d e g i cn) as [[file_id|msg0] c2] eqn:Eup;
      destruct (upsert_file_cases _ _ _ _ _ _ _ _ _ _ Eup) as (Hc2 & Hch2 & Hf2 & Hup)
  end; simpl in Hc2, Hf2, Hch2.
  2:{ leave H. repeat split; auto. intros Hnil. apply Hf2. rewrite Hf1. rewrite Hnil. reflexivity. }
  unfold bind at 1 in H.
  assert (Hdel : forall st2 o2 st3,
             st_conn st2 = c2 ->
             match existing with
             | Some _ => sql (delete_chunks_for_file file_id)
             | None => ret tt
             end st2 = (o2, st3) ->
             st_result st3 = st_result st2 /\
             committed (st_conn st3) = committed c2 /\
             (faults c2 = [] -> faults (st_conn st3) = []) /\
             files (working (st_conn st3)) = files (working c2) /\
             (o2 = Normal tt \/ exists msg, o2 = Raised (Exception msg))).
  { intros st2 o2 st3 Hst2 Hx. destruct existing as [d|].
    - unfold sql, delete_chunks_for_file in Hx.
      destruct (execute (delete_chunks file_id) (st_conn st2)) as [[[]|msg1] c3] eqn:Edel;
        destruct (execute_cases _ _ _ _ Edel) as (Hc3 & Hf3 & Hd); rewrite Hst2 in *;
        inversion Hx; subst; simpl.
      + destruct Hd as [(m & Hr & _)|(_ & Hw3)]; [discriminate|].
        repeat split; auto.
        * intros Hnil. rewrite Hf3, Hnil. reflexivity.
        * rewrite Hw3. reflexivity.
      + destruct Hd as [(m & _ & Hw3 & _)|(Hr & _)]; [|discriminate].
        repeat split; auto.
        * intros Hnil. rewrite Hf3, Hnil. reflexivity.
        * rewrite Hw3. reflexivity.
        * right. exists msg1. reflexivity.
    - inversion Hx; subst. repeat split; auto. }
  match type of H with
  | context [match ?m ?s with _ => _ end] =>
      match m with
      | match existing with _ => _ end =>
          destruct (m s) as [o2 st3] eqn:Edel;
          pose proof (fun E => Hdel _ _ _ E Edel) as Hd3;
          destruct (Hd3 eq_refl) as (Hr3 & Hc3 & Hf3 & Hfiles3 & Ho2); clear Hd3
      end
  end.
  clear Hdel. simpl in Hr3.
  destruct Ho2 as [->|(msg1 & ->)].
  2:{ leave H. rewrite Hr3. repeat split; auto.
      intros Hnil. apply Hf3. apply Hf2. rewrite Hf1, Hnil. reflexivity. }
  unfold bind at 1 in H.
  match type of H with
  | context [insert_chunks ?a ?b ?s] =>
      destruct (insert_chunks a b s) as [o3 st4] eqn:Eins;
      destruct (insert_chunks_cases _ _ _ _ _ Eins)
        as ((S1 & S2 & S3 & S4 & S5) & Hfiles4 & Hc4 & Hf4 & Ho3)
  end.
  rewrite Hr3 in S1, S2, S3, S4, S5. rewrite Hc3 in Hc4. rewrite Hfiles3 in Hfiles4.
  assert (Hnil4 : faults (st_conn st) = [] -> faults (st_conn st4) = []).
  { intros Hnil. apply Hf4, Hf3, Hf2. rewrite Hf1, Hnil. reflexivity. }
  destruct Ho3 as [->|(msg1 & ->)].
  2:{ leave H. repeat split; auto. }
  unfold bind at 1 in H. unfold update at 1 in H.
  unfold sql in H. simpl in H.
  destruct (commit (st_conn st4)) as [[[]|msg1] c5] eqn:Ecommit;
    destruct (commit_cases _ _ _ Ecommit) as (Hw5 & Hf5 & Hcm).
  - destruct Hcm as [(m & Hr & _)|(_ & Hc5)]; [discriminate|].
    leave H. repeat split; auto.
    + intros Hnil. rewrite Hf5, (Hnil4 Hnil). reflexivity.
    + lia.
    + congruence.
    + intros content' Hread. assert (content' = content) by congruence. subst content'.
      unfold stored in *. rewrite Hw5.
      rewrite (stored_hash_files (working c2) (working (st_conn st4))) by exact Hfiles4.
      exact Hup.
  - destruct Hcm as [(m & _ & _ & Hn)|(Hr & _)]; [|discriminate].
    leave H. repeat split; auto.
    + intros Hnil. rewrite Hf5, (Hnil4 Hnil). reflexivity.
    + right. split; [lia|]. intros Hnil.
      rewrite (next_call_ok_nil _ (Hnil4 Hnil)) in Hn. discriminate.
Qed.

(** A path whose fingerprint is already the stored one leaves the [try] by
    [continue], counted as skipped, with nothing written. *)
Lemma try_body_unchanged f st size mtime content :
  stat f = StatOk size mtime ->
  read_text f = ReadOk content ->
  stored (rel_path f) (hash_content sha256_hexdigest content) (working (st_conn st)) ->
  next_call_ok (st_conn st) = true ->
  body f st =
    (Continue,
     {| st_conn :=
          if size >? max_file_size then st_conn st
          else {| working := working (st_conn st);
                  committed := committed (st_conn st);
                  faults := tl (faults (st_conn st)) |};
        st_result := incr_skipped (st_result st) |}).
Proof.
  intros Hstat Hread Hst Hok. unfold try_body.
  unfold bind at 1. unfold path_stat. rewrite Hstat. unfold ret at 1.
  destruct (size >? max_file_size); [reflexivity|].
  unfold bind at 1. unfold path_read_text. rewrite Hread. unfold ret at 1.
  unfold bind at 1. unfold sql at 1. unfold get_file_by_path.
  rewrite (execute_ok _ _ Hok). simpl.
  unfold stored, stored_hash in Hst.
  destruct (find _ (files (working (st_conn st)))) as [r|]; [|discriminate].
  simpl in Hst. injection Hst as Hh. simpl. rewrite Hh, String.eqb_refl.
  reflexivity.
Qed.

Lemma loop_body_unchanged f st size mtime content :
  stat f = StatOk size mtime ->
  read_text f = ReadOk content ->
  stored (rel_path f) (hash_content sha256_hexdigest content) (working (st_conn st)) ->
  next_call_ok (st_conn st) = true ->
  turn f st =
    {| st_conn :=
         if size >? max_file_size then st_conn st
         else {| working := working (st_conn st);
                 committed := committed (st_conn st);
                 faults := tl (faults (st_conn st)) |};
       st_result := incr_skipped (incr_scanned (st_result st)) |}.
Proof.
  intros Hstat Hread Hst Hok. unfold loop_body.
  rewrite (try_body_unchanged f _ size mtime content); auto.
Qed.




End TryBody.



(** When no call on the connection fails, every turn counts its file once. *)
Lemma loop_body_counts re_search sha256_hexdigest now max_file_size
    max_chunk_lines project_id f st :
  let st' := loop_body re_search sha256_hexdigest now max_file_size
               max_chunk_lines project_id f st in
  faults (st_conn st) = [] ->
  faults (st_conn st') = [] /\
  files_scanned (st_result st') = files_scanned (st_result st) + 1 /\
  files_indexed (st_result st') + files_skipped (st_result st')
    + len (errors (st_result st'))
  = files_indexed (st_result st) + files_skipped (st_result st)
    + len (errors (st_result st)) + 1.
Proof.
  intros st' Hnil. subst st'. unfold loop_body.
  destruct (try_body _ _ _ _ _ _ f _) as [[[]| |[|msg]] st'] eqn:E;
    apply try_body_post in E; unfold try_post in E; simpl in E;
    destruct E as (Hs & He & _ & Hf & Ho); simpl;
    (split; [auto|]); (split; [lia|]); rewrite ?He.
  - lia.
  - lia.
  - lia.
  - unfold len. rewrite length_app. simpl. unfold len in *.
    destruct Ho as (Hk & [Hi|(_ & Hne)]); [lia | contradiction].
Qed.

Lemma scan_loop_counts re_search sha256_hexdigest now max_files max_file_size
    max_chunk_lines project_id paths : forall st,
  let st' := scan_loop re_search sha256_hexdigest now max_files max_file_size
               max_chunk_lines project_id paths st in
  faults (st_conn st) = [] ->
  files_scanned (st_result st)
    = files_indexed (st_result st) + files_skipped (st_result st)
      + len (errors (st_result st)) ->
  files_scanned (st_result st')
    = files_indexed (st_result st') + files_skipped (st_result st')
      + len (errors (st_result st')).
Proof.
  induction paths as [|f paths IH]; intros st st' Hnil Heq; subst st'; simpl.
  - exact Heq.
  - destruct (files_scanned (st_result st) >=? max_files); [exact Heq|].
    destruct (loop_body_counts re_search sha256_hexdigest now max_file_size
                max_chunk_lines project_id f st Hnil) as (Hn & Hs & Hc).
    apply IH; [exact Hn | lia].
Qed.

(** On a connection none of whose calls fails, whatever the files do, the
    result of a scan has
    [files_scanned = files_indexed + files_skipped + len(errors)]. *)
Lemma scan_counts_without_db_faults re_search fnmatch sha256_hexdigest now
    max_files max_file_size max_chunk_lines project_id c root :
  faults c = [] ->
  let r := snd (scan_workspace_sync re_search fnmatch sha256_hexdigest now
                  max_files max_file_size max_chunk_lines project_id c root) in
  files_scanned r = files_indexed r + files_skipped r + len (errors r).
Proof.
  intros Hnil. unfold scan_workspace_sync. simpl snd.
  apply scan_loop_counts; [exact Hnil | reflexivity].
Qed.

(** C1 on the code. Two files; while the first is processed the insertion
    of its chunk fails, after its File row was written. The [except] clause
    records the error and rolls nothing back, so the commit of the second
    file makes the row durable: fingerprint stored, no chunk. A second run
    on a new connection finds the fingerprint equal and skips the file,
    which stays without chunks. *)
Theorem failed_file_is_skipped_next_run
    (re_search : string -> string -> option string)
    (fnmatch : string -> string -> bool)
    (sha256_hexdigest : string -> string) (now1 now2 : Z) :
  let scan := fun now =>
    scan_workspace_sync re_search fnmatch sha256_hexdigest now
      10000 1048576 80 None in
  let run1 := scan now1
                (fresh_conn [None; None; None;
                             Some "database disk image is malformed"%string])
                Examples.two_files in
  let run2 := scan now2 (reconnect (fst run1) []) Examples.two_files in
  List.length (chunk_content re_search "x = 1" 80 5 3 None) = 1%nat /\
  errors (snd run1) = [("a.py", "database disk image is malformed")]%string /\
  files_indexed (snd run1) = 1 /\
  stored_hash (committed (fst run1)) "a.py"
    = Some (hash_content sha256_hexdigest "x = 1") /\
  chunks_of_path (committed (fst run1)) "a.py" = [] /\
  files_scanned (snd run2) = 2 /\
  files_skipped (snd run2) = 2 /\
  files_indexed (snd run2) = 0 /\
  chunks_created (snd run2) = 0 /\
  errors (snd run2) = [] /\
  chunks_of_path (committed (fst run2)) "a.py" = [].
Proof.
  intros scan run1 run2.
  assert (Hwalk : walk_files fnmatch Examples.two_files 20 =
                  [ {| rel_path := "a.py"; name := "a.py"; stat := StatOk 5 0;
                       read_text := ReadOk "x = 1" |};
                    {| rel_path := "b.py"; name := "b.py"; stat := StatOk 5 0;
                       read_text := ReadOk "y = 2" |} ]%string) by reflexivity.
  assert (Ha : stored "a.py" (hash_content sha256_hexdigest "x = 1")
                 (committed (fst run1))) by reflexivity.
  assert (Hb : stored "b.py" (hash_content sha256_hexdigest "y = 2")
                 (committed (fst run1))) by reflexivity.
  assert (Hno : chunks_of_path (committed (fst run1)) "a.py" = []) by reflexivity.
  split; [reflexivity|]. split; [reflexivity|]. split; [reflexivity|].
  split; [exact Ha|]. split; [exact Hno|].
  assert (Hrun2 : run2 =
            (reconnect (fst run1) [],
             incr_skipped (incr_scanned (incr_skipped (incr_scanned empty_result))))).
  { subst run2 scan. cbv beta. unfold scan_workspace_sync. rewrite Hwalk.
    set (c1 := fst run1) in *. clearbody c1. clear run1.
    unfold scan_loop.
    change (files_scanned (st_result {| st_conn := reconnect c1 [];
                                        st_result := empty_result |}) >=? 10000)
      with false. cbv iota.
    rewrite (loop_body_unchanged re_search sha256_hexdigest now2 1048576 80 None
               _ _ 5 0 "x = 1"%string); try reflexivity; try exact Ha.
    change (5 >? 1048576) with false. cbv iota.
    change (files_scanned _ >=? 10000) with false. cbv iota.
    rewrite (loop_body_unchanged re_search sha256_hexdigest now2 1048576 80 None
               _ _ 5 0 "y = 2"%string); try reflexivity; try exact Hb. }
  rewrite Hrun2. simpl fst. simpl snd.
  repeat split; try reflexivity.
Qed.

(** C10 on the code. One new file whose [conn.commit()] raises: the turn
    has already added one to [files_indexed], and the [except] clause then
    puts the file on the error list, so it is counted twice and the sum of
    the three counts exceeds [files_scanned]. *)
Theorem commit_failure_counted_twice
    (re_search : string -> string -> option string)
    (fnmatch : string -> string -> bool)
    (sha256_hexdigest : string -> string) (now : Z) :
  let r := snd (scan_workspace_sync re_search fnmatch sha256_hexdigest now
                  10000 1048576 80 None
                  (fresh_conn [None; None; None; None; Some "database or disk is full"%string])
                  Examples.one_file) in
  files_scanned r = 1 /\
  files_indexed r = 1 /\
  files_skipped r = 0 /\
  errors r = [("a.py", "database or disk is full")]%string /\
  files_scanned r <> files_indexed r + files_skipped r + len (errors r).
Proof.
  cbv zeta. repeat split; try reflexivity. vm_compute. discriminate.
Qed.

End ScannerFacts.

(** ** The walker and the extension deny-set *)

Module WalkerFacts.

Import Py Walker.

(** *** Strings: reversal, prefixes and the last dot *)

Lemma list_ascii_app a b :
  list_ascii_of_string (a ++ b) = (list_ascii_of_string a ++ list_ascii_of_string b)%list.
Proof. induction a as [|c a IH]; simpl; [reflexivity | rewrite IH; reflexivity]. Qed.

Lemma string_of_list_app l1 l2 :
  string_of_list_ascii (l1 ++ l2)
  = (string_of_list_ascii l1 ++ string_of_list_ascii l2)%string.
Proof. induction l1 as [|c l1 IH]; simpl; [reflexivity | rewrite IH; reflexivity]. Qed.

Lemma str_rev_app a b : str_rev (a ++ b) = (str_rev b ++ str_rev a)%string.
Proof.
  unfold str_rev. rewrite list_ascii_app, rev_app_distr. apply string_of_list_app.
Qed.

Lemma str_rev_involutive s : str_rev (str_rev s) = s.
Proof.
  unfold str_rev. rewrite list_ascii_of_string_of_list_ascii, rev_involutive.
  apply string_of_list_ascii_of_string.
Qed.

Lemma prefix_app a : forall b,
  String.prefix a b = true -> exists c, b = (a ++ c)%string.
Proof.
  induction a as [|x a IH]; intros b H.
  - exists b. reflexivity.
  - destruct b as [|y b]; simpl in H; [discriminate H|].
    destruct (ascii_dec x y) as [->|]; [|discriminate H].
    destruct (IH b H) as [c ->]. exists c. reflexivity.
Qed.

Lemma endswith_app s p :
  endswith s p = true -> exists q, s = (q ++ p)%string.
Proof.
  unfold endswith. intros H. apply prefix_app in H. destruct H as [c H].
  exists (str_rev c).
  rewrite <- (str_rev_involutive s), H, str_rev_app, str_rev_involutive.
  reflexivity.
Qed.

Lemma rfind_last_char c e : forall q,
  rfind c e = -1 ->
  rfind c (q ++ String c e) = str_len q.
Proof.
  induction q as [|d q IH]; intros He; simpl.
  - rewrite He. simpl. rewrite Ascii.eqb_refl. reflexivity.
  - rewrite (IH He). unfold str_len.
    destruct (Z.geb_spec (Z.of_nat (String.length q)) 0); [|lia].
    simpl String.length. lia.
Qed.

Lemma substring_all s : substring 0 (String.length s) s = s.
Proof. induction s as [|c s IH]; simpl; [reflexivity | rewrite IH; reflexivity]. Qed.

Lemma str_from_app q s : str_from (String.length q) (q ++ s) = s.
Proof.
  unfold str_from. induction q as [|c q IH]; simpl.
  - rewrite Nat.sub_0_r. apply substring_all.
  - exact IH.
Qed.

Lemma length_append a b :
  String.length (a ++ b) = (String.length a + String.length b)%nat.
Proof. induction a as [|c a IH]; simpl; [reflexivity | rewrite IH; reflexivity]. Qed.

(** A name that does not begin with a dot and ends with a dot followed by
    dot-free characters has exactly that ending as its suffix. *)
Lemma suffix_of_single_dot_ending n e :
  startswith n "." = false ->
  e <> EmptyString -> rfind "." e = -1 ->
  endswith n (String "." e) = true ->
  suffix n = String "." e.
Proof.
  intros Hhid Hne Hdot Hend.
  destruct (endswith_app _ _ Hend) as [q ->].
  assert (Hq : q <> EmptyString).
  { intros ->. unfold startswith in Hhid. simpl in Hhid.
    destruct (ascii_dec "." ".") as [|Hn]; [|apply Hn; reflexivity].
    destruct e; simpl in Hhid; discriminate Hhid. }
  unfold suffix. rewrite (rfind_last_char "." e q Hdot).
  unfold str_len. rewrite length_append. simpl String.length.
  assert (0 < String.length q)%nat by (destruct q; [contradiction | simpl; lia]).
  assert (0 < String.length e)%nat by (destruct e; [contradiction | simpl; lia]).
  destruct (Z.ltb_spec 0 (Z.of_nat (String.length q))); [|lia].
  destruct (Z.ltb_spec (Z.of_nat (String.length q))
              (Z.of_nat (String.length q + S (String.length e)) - 1)); [|lia].
  simpl. rewrite Nat2Z.id. apply str_from_app.
Qed.

(** *** Induction on a directory tree *)

Fixpoint entry_tree_ind (P : entry -> Prop)
    (HF : forall n st rd, P (File n st rd))
    (HN : forall n, P (Dir n None))
    (HD : forall n es, Forall P es -> P (Dir n (Some es)))
    (HS : forall n, P (Special n))
    (e : entry) : P e :=
  match e with
  | File n st rd => HF n st rd
  | Dir n listing =>
      match listing as l return P (Dir n l) with
      | None => HN n
      | Some es =>
          HD n es
            ((fix go (l : list entry) : Forall P l :=
                match l with
                | [] => Forall_nil P
                | x :: r =>
                    @Forall_cons _ P x r (entry_tree_ind P HF HN HD HS x) (go r)
                end) es)
      end
  | Special n => HS n
  end.

Section WalkSound.

Variable fnmatch : string -> string -> bool.
Variable max_depth : Z.
Variable gitignore_patterns : list string.

Lemma walk_entry_file dir depth n st rd :
  walk_entry fnmatch max_depth gitignore_patterns dir depth (File n st rd) =
  if startswith n "." then []
  else if str_mem (lower (suffix n)) IGNORE_EXTENSIONS then []
  else if should_ignore fnmatch n (join "/" (dir ++ [n])) gitignore_patterns then []
  else [ {| rel_path := join "/" (dir ++ [n]); name := n; stat := st;
            read_text := rd |} ].
Proof. reflexivity. Qed.

Lemma walk_entry_dir dir depth n listing :
  walk_entry fnmatch max_depth gitignore_patterns dir depth (Dir n listing) =
  if startswith n "." then []
  else if should_ignore fnmatch n (join "/" (dir ++ [n])) gitignore_patterns then []
  else if depth + 1 >? max_depth then []
  else match listing with
       | None => []
       | Some entries =>
           flat_map (walk_entry fnmatch max_depth gitignore_patterns
                       (dir ++ [n]) (depth + 1)) entries
       end.
Proof. reflexivity. Qed.

(** Whatever is yielded passed the two tests made on files. *)
Lemma walk_entry_passed e : forall dir depth w,
  In w (walk_entry fnmatch max_depth gitignore_patterns dir depth e) ->
  startswith (name w) "." = false /\
  str_mem (lower (suffix (name w))) IGNORE_EXTENSIONS = false.
Proof.
  induction e as [n st rd|n|n es IH|n] using entry_tree_ind; intros dir depth w H.
  - rewrite walk_entry_file in H.
    destruct (startswith n ".") eqn:E1; [contradiction|].
    destruct (str_mem (lower (suffix n)) IGNORE_EXTENSIONS) eqn:E2; [contradiction|].
    destruct (should_ignore _ _ _ _); [contradiction|].
    destruct H as [<-|[]]. simpl name. auto.
  - rewrite walk_entry_dir in H.
    destruct (startswith n "."); [contradiction|].
    destruct (should_ignore _ _ _ _); [contradiction|].
    destruct (depth + 1 >? max_depth); contradiction.
  - rewrite walk_entry_dir in H.
    destruct (startswith n "."); [contradiction|].
    destruct (should_ignore _ _ _ _); [contradiction|].
    destruct (depth + 1 >? max_depth); [contradiction|].
    apply in_flat_map in H. destruct H as (e' & Hin & Hw).
    rewrite Forall_forall in IH. eapply IH; eauto.
  - contradiction.
Qed.

End WalkSound.

(** The entries of [IGNORE_EXTENSIONS] with one dot. *)
Lemma single_dot_extension ext :
  In ext IGNORE_EXTENSIONS ->
  ext <> ".min.js"%string -> ext <> ".bundle.js"%string -> ext <> ".min.css"%string ->
  exists e, ext = String "." e /\ e <> EmptyString /\ rfind "." e = -1 /\
            lower ext = ext.
Proof.
  intros Hin H1 H2 H3. simpl in Hin.
  repeat (destruct Hin as [<-|Hin];
          [first [ congruence
                 | eexists; split; [reflexivity|]; split; [discriminate|];
                   split; reflexivity ]|]).
  contradiction.
Qed.

(** The part of C7 that holds: a file whose name ends with an extension of
    the deny-set that has one dot is never yielded, whatever the tree, the
    depth limit and the [.gitignore]. *)
Lemma walker_skips_single_dot_extensions fnmatch root max_depth w ext :
  In w (walk_files fnmatch root max_depth) ->
  In ext IGNORE_EXTENSIONS ->
  ext <> ".min.js"%string -> ext <> ".bundle.js"%string -> ext <> ".min.css"%string ->
  endswith (name w) ext = false.
Proof.
  intros Hw Hin H1 H2 H3.
  destruct (single_dot_extension ext Hin H1 H2 H3) as (e & -> & Hne & Hdot & Hlow).
  unfold walk_files, _walk in Hw.
  destruct (0 >? max_depth); [contradiction|].
  apply in_flat_map in Hw. destruct Hw as (e' & _ & Hw).
  apply walk_entry_passed in Hw. destruct Hw as [Hhid Hmem].
  destruct (endswith (name w) (String "." e)) eqn:Hend; [|reflexivity].
  rewrite (suffix_of_single_dot_ending _ _ Hhid Hne Hdot Hend), Hlow in Hmem.
  assert (Hyes : str_mem (String "." e) IGNORE_EXTENSIONS = true).
  { unfold str_mem. apply existsb_exists. exists (String "." e).
    split; [exact Hin | apply String.eqb_refl]. }
  congruence.
Qed.

(** C7 on the code. The walker tests [entry.suffix], which starts at the
    last dot of the name: for [app.min.js] it is [.js], which is not in
    [IGNORE_EXTENSIONS], so the entries [.min.js], [.bundle.js] and
    [.min.css] of the set never match and such files are yielded. A file
    with an extension of one dot ([logo.PNG]) is not. *)
Theorem walker_yields_multi_dot_extensions (fnmatch : string -> string -> bool) :
  str_mem ".min.js" IGNORE_EXTENSIONS = true /\
  str_mem ".bundle.js" IGNORE_EXTENSIONS = true /\
  str_mem ".min.css" IGNORE_EXTENSIONS = true /\
  endswith "app.min.js" ".min.js" = true /\
  endswith "app.bundle.js" ".bundle.js" = true /\
  endswith "style.min.css" ".min.css" = true /\
  suffix "app.min.js" = ".js"%string /\
  suffix "app.bundle.js" = ".js"%string /\
  suffix "style.min.css" = ".css"%string /\
  map rel_path (walk_files fnmatch Examples.bundled 20)
    = [ "app.min.js"; "app.bundle.js"; "style.min.css"; "main.js" ]%string.
Proof. repeat split; reflexivity. Qed.

End WalkerFacts.

(** ** More on the chunker *)

Module ChunkerMore.

Import Py PyFacts Chunker ChunkerFacts.

Section Windows.

Variable re_search : string -> string -> option string.
Variable lines : list string.
Variables max_lines overlap min_lines : Z.
Variable language : option string.

Local Abbreviation total := (len lines).
Local Abbreviation loop := (chunk_loop re_search lines max_lines overlap min_lines language).
Local Abbreviation win := (window re_search lines max_lines min_lines language).

(** The fields of a yielded window. *)
Lemma window_elem start c :
  In c (win start) ->
  start_line c = start + 1 /\
  end_line c = Z.min (start + max_lines) total /\
  content c = text_of (slice lines start (Z.min (start + max_lines) total)) /\
  token_count c = str_len (content c) / 4 /\
  symbol c = fst (extract_symbol re_search (content c) language) /\
  kind c = match snd (extract_symbol re_search (content c) language) with
           | Some (String a k) => String a k
           | _ => "block"%string
           end.
Proof.
  unfold window.
  destruct ((len (slice lines start (Z.min (start + max_lines) total)) >=? min_lines)
            || (start =? 0)); [|intros []].
  fold (text_of (slice lines start (Z.min (start + max_lines) total))).
  destruct (extract_symbol re_search _ language) as [sym knd] eqn:E.
  intros [<-|[]]. simpl. rewrite E. simpl.
  repeat split. destruct knd as [[|a k]|]; reflexivity.
Qed.

(** Every chunk yielded from [start] on is the window of some later start
    inside the text. *)
Lemma chunk_loop_windows fuel : forall start prev cs n,
  loop fuel start prev = Some (cs, n) ->
  Forall (fun c => exists s, start <= s < total /\ In c (win s)) cs.
Proof.
  induction fuel as [|fuel IH]; intros start prev cs n H.
  - simpl in H. destruct (start <? total); simpl in H; [discriminate|].
    injection H as <- <-. constructor.
  - simpl in H. destruct (Z.ltb_spec start total) as [Hlt|Hge]; simpl in H.
    2:{ injection H as <- <-. constructor. }
    destruct (start =? prev).
    1:{ injection H as <- <-. constructor. }
    assert (Hw : Forall (fun c => exists s, start <= s < total /\ In c (win s))
                   (win start)).
    { apply Forall_forall. intros c Hc. exists start. split; [lia | exact Hc]. }
    destruct (Z.min (start + max_lines) total >=? total).
    + injection H as <- <-. exact Hw.
    + pose proof (next_start_advances overlap start
                    (Z.min (start + max_lines) total)) as Hadv.
      set (ns := if _ <=? start then start + 1 else _) in *.
      destruct (loop fuel ns start) as [[rest m]|] eqn:E; [|discriminate].
      injection H as <- <-.
      apply Forall_app. split; [exact Hw|].
      eapply Forall_impl; [|exact (IH _ _ _ _ E)].
      simpl. intros c (s & Hs & Hc). exists s. split; [lia | exact Hc].
Qed.

(** With [0 <= overlap < max_lines] and [min_lines <= max_lines], what is
    yielded from [start] on begins with the window at [start], and each
    chunk begins [overlap] lines before the end of the one before it. *)
Lemma chunk_loop_adjacent fuel : forall start prev cs n,
  0 <= overlap < max_lines -> min_lines <= max_lines ->
  0 <= start ->
  loop fuel start prev = Some (cs, n) ->
  (forall c rest, cs = c :: rest -> start_line c = start + 1) /\
  (forall pre a b post,
     cs = pre ++ a :: b :: post -> start_line b = end_line a + 1 - overlap).
Proof.
  induction fuel as [|fuel IH]; intros start prev cs n Ho Hm H0 H.
  - simpl in H. destruct (start <? total); simpl in H; [discriminate|].
    injection H as <- <-. split; [discriminate|].
    intros [|? ?] ? ? ? Hx; discriminate Hx.
  - simpl in H. destruct (Z.ltb_spec start total) as [Hlt|Hge]; simpl in H.
    2:{ injection H as <- <-. split; [discriminate|].
        intros [|? ?] ? ? ? Hx; discriminate Hx. }
    destruct (start =? prev).
    1:{ injection H as <- <-. split; [discriminate|].
        intros [|? ?] ? ? ? Hx; discriminate Hx. }
    destruct (Z.geb_spec (Z.min (start + max_lines) total) total) as [Hge|Hlt2].
    + injection H as <- <-.
      destruct (window_cases re_search lines max_lines min_lines language start)
        as [->|(c & -> & Hs & _)].
      * split; [discriminate|]. intros [|? ?] ? ? ? Hx; discriminate Hx.
      * split; [intros ? ? Hx; injection Hx as <- _; exact Hs|].
        intros [|? [|? ?]] ? ? ? Hx; discriminate Hx.
    + destruct (window_yielded re_search lines max_lines min_lines language start)
        as (c & Hw & Hs1 & Hs2).
      { rewrite slice_len by lia. apply orb_true_iff; left. apply Z.geb_le. lia. }
      rewrite Hw in H.
      set (ns := if _ <=? start then start + 1 else _) in *.
      assert (Hns : ns = Z.min (start + max_lines) total - overlap).
      { subst ns. destruct (Z.leb_spec (Z.min (start + max_lines) total - overlap) start);
          lia. }
      destruct (loop fuel ns start) as [[rest m]|] eqn:E; [|discriminate].
      injection H as <- <-.
      destruct (IH ns start rest m Ho Hm ltac:(lia) E) as [Hhd Hadj].
      split; [intros ? ? Hx; injection Hx as <- _; exact Hs1|].
      intros pre a b post Hx. destruct pre as [|p pre]; simpl in Hx.
      * injection Hx as Ha Hrest. subst a.
        rewrite (Hhd b post Hrest). lia.
      * injection Hx as _ Hrest. eapply Hadj. exact Hrest.
Qed.

End Windows.



Section Properties.

Variable re_search : string -> string -> option string.

Lemma chunks_are_loop content max_lines overlap min_lines language :
  exists n,
    chunk_loop re_search (split newline content) max_lines overlap min_lines
      language (List.length (split newline content)) 0 (-1)
    = Some (chunk_content re_search content max_lines overlap min_lines language, n).
Proof.
  destruct (chunks_run re_search content max_lines overlap min_lines language)
    as (n & _ & Hrun).
  specialize (Hrun O). rewrite Nat.add_0_r, run_is_loop in Hrun.
  exists n. exact Hrun.
Qed.

Lemma chunks_are_windows content max_lines overlap min_lines language :
  Forall (fun c => exists s,
            0 <= s < len (split newline content) /\
            In c (window re_search (split newline content) max_lines min_lines
                    language s))
    (chunk_content re_search content max_lines overlap min_lines language).
Proof.
  destruct (chunks_are_loop content max_lines overlap min_lines language) as [n H].
  eapply chunk_loop_windows. exact H.
Qed.



(** X3. The content of every yielded chunk is the text of the lines
    [start_line .. end_line], joined by newlines, and its token count is
    the number of characters of that content divided by 4, rounded down. *)
Theorem chunk_content_is_verbatim content max_lines overlap min_lines language :
  Forall (fun c =>
            Chunker.content c = text_of (slice (split newline content)
                                   (start_line c - 1) (end_line c)) /\
            token_count c = str_len (Chunker.content c) / 4)
    (chunk_content re_search content max_lines overlap min_lines language).
Proof.
  eapply Forall_impl;
    [|exact (chunks_are_windows content max_lines overlap min_lines language)].
  simpl. intros c (s & _ & Hw).
  apply window_elem in Hw. destruct Hw as (H1 & H2 & H3 & H4 & _).
  rewrite H1, H2. replace (s + 1 - 1) with s by lia. auto.
Qed.

(** X4. With [0 <= overlap < max_lines] and [min_lines <= max_lines], two
    chunks yielded one after the other share exactly [overlap] lines: the
    second starts at [end_line - overlap + 1] of the first. *)
Theorem consecutive_chunks_overlap content max_lines overlap min_lines language
    pre a b post :
  0 <= overlap < max_lines -> min_lines <= max_lines ->
  chunk_content re_search content max_lines overlap min_lines language
    = pre ++ a :: b :: post ->
  start_line b = end_line a - overlap + 1.
Proof.
  intros Ho Hm Heq.
  destruct (chunks_are_loop content max_lines overlap min_lines language) as [n H].
  destruct (chunk_loop_adjacent re_search _ _ _ _ _ _ _ _ _ _ Ho Hm (Z.le_refl 0) H)
    as [_ Hadj].
  rewrite (Hadj pre a b post Heq). lia.
Qed.


(** The shape of what [extract_symbol] returns. *)
Lemma extract_symbol_cases content language :
  let r := extract_symbol re_search content language in
  (fst r = None <-> snd r = None) /\
  (forall sym, fst r = Some sym ->
     exists lang pattern,
       language = Some lang /\ assoc lang SYMBOL_PATTERNS = Some pattern /\
       re_search pattern content = Some sym) /\
  (forall k, snd r = Some k -> StoreLogic.is_kind k) /\
  ((forall lang, language = Some lang -> assoc lang SYMBOL_PATTERNS = None) ->
   r = (None, None)).
Proof.
  unfold extract_symbol, StoreLogic.is_kind. cbv zeta.
  destruct language as [lang|].
  2:{ cbn [fst snd]. repeat split; intros; try discriminate; auto. }
  destruct (negb (truthy (Some lang))) eqn:Et.
  1:{ cbn [fst snd]. repeat split; intros; try discriminate; auto. }
  destruct (assoc lang SYMBOL_PATTERNS) as [pattern|] eqn:Ea.
  2:{ cbn [fst snd]. repeat split; intros; try discriminate; auto. }
  destruct (re_search pattern content) as [sym|] eqn:Er.
  2:{ cbn [fst snd]. repeat split; intros; try discriminate; auto. }
  cbn [fst snd]. repeat split; try (intros; discriminate).
  - intros s Hs. injection Hs as <-. exists lang, pattern. auto.
  - intros k Hk. injection Hk as <-.
    repeat match goal with
           | |- context [if ?b then _ else _] => destruct b
           end; auto.
  - intros Hno. specialize (Hno lang eq_refl). congruence.
Qed.

(** X6. [extract_symbol] gives a symbol and a kind together or neither; a
    symbol is group 1 of the match of the pattern of a language listed in
    [SYMBOL_PATTERNS]; the kind is [function], [class] or [block]; and a
    missing language, or one without a pattern, gives neither. *)
Theorem extract_symbol_shape content language :
  let r := extract_symbol re_search content language in
  (fst r = None <-> snd r = None) /\
  (forall sym, fst r = Some sym ->
     exists lang pattern,
       language = Some lang /\ assoc lang SYMBOL_PATTERNS = Some pattern /\
       re_search pattern content = Some sym) /\
  (forall k, snd r = Some k -> StoreLogic.is_kind k) /\
  ((forall lang, language = Some lang -> assoc lang SYMBOL_PATTERNS = None) ->
   r = (None, None)).
Proof. exact (extract_symbol_cases content language). Qed.

(** X7. The kind of every yielded chunk is [function], [class] or [block],
    and a chunk with a symbol was given a language that has a pattern. *)
Theorem chunk_kinds content max_lines overlap min_lines language :
  Forall (fun c =>
            StoreLogic.is_kind (kind c) /\
            (symbol c <> None ->
             exists lang, language = Some lang /\
                          assoc lang SYMBOL_PATTERNS <> None))
    (chunk_content re_search content max_lines overlap min_lines language).
Proof.
  eapply Forall_impl;
    [|exact (chunks_are_windows content max_lines overlap min_lines language)].
  cbv beta. intros c (s & _ & Hw).
  apply window_elem in Hw. destruct Hw as (_ & _ & _ & _ & Hsym & Hkind).
  destruct (extract_symbol_cases (Chunker.content c) language) as (_ & Hs & Hk & _).
  split.
  - rewrite Hkind.
    destruct (snd (extract_symbol re_search (Chunker.content c) language))
      as [[|a k]|] eqn:E; try (right; right; reflexivity).
    apply Hk. reflexivity.
  - intros Hne. rewrite Hsym in Hne.
    destruct (fst (extract_symbol re_search (Chunker.content c) language))
      as [sym|] eqn:E; [|contradiction].
    destruct (Hs sym eq_refl) as (lang & pattern & Hl & Ha & _).
    exists lang. split; [exact Hl | rewrite Ha; discriminate].
Qed.

End Properties.


Lemma consecutive_chunks_overlap_witness :
  let text := text_of ["a"; "b"; "c"; "d"; "e"]%string in
  let mk := fun s e t n =>
    {| start_line := s; end_line := e; content := text_of t;
       symbol := None; kind := "block"; token_count := n |} in
  let a := mk 1 3 ["a"; "b"; "c"]%string 1 in
  let b := mk 3 5 ["c"; "d"; "e"]%string 1 in
  chunk_content (fun _ _ => None) text 3 1 1 None = [] ++ a :: b :: [] /\
  start_line b = end_line a - 1 + 1.
Proof.
  intros text mk a b.
  assert (Heq : chunk_content (fun _ _ => None) text 3 1 1 None = [] ++ a :: b :: [])
    by (vm_compute; reflexivity).
  split; [exact Heq|].
  apply (consecutive_chunks_overlap (fun _ _ => None) text 3 1 1 None [] a b []);
    [lia | lia | exact Heq].
Defined.


End ChunkerMore.

(** ** Language detection *)

Module LanguageMore.

Import Py Chunker WalkerFacts StoreLogic.

Lemma single_dot_inv ext :
  single_dot ext = true -> exists e, ext = String "." e /\ rfind "." e = -1.
Proof.
  destruct ext as [|c e]; simpl; [discriminate|].
  intros H. apply andb_true_iff in H. destruct H as [Hc He].
  apply Ascii.eqb_eq in Hc. apply Z.eqb_eq in He. subst c. exists e. auto.
Qed.

(** A name has at most one ending made of a dot and dot-free characters. *)
Lemma single_dot_endings_agree n ext1 ext2 :
  single_dot ext1 = true -> single_dot ext2 = true ->
  endswith n ext1 = true -> endswith n ext2 = true ->
  ext1 = ext2.
Proof.
  intros H1 H2 E1 E2.
  destruct (single_dot_inv _ H1) as (e1 & -> & D1).
  destruct (single_dot_inv _ H2) as (e2 & -> & D2).
  destruct (endswith_app _ _ E1) as [q1 Hq1].
  destruct (endswith_app _ _ E2) as [q2 Hq2].
  assert (Hlen : String.length q1 = String.length q2).
  { pose proof (rfind_last_char "." e1 q1 D1) as R1.
    pose proof (rfind_last_char "." e2 q2 D2) as R2.
    rewrite <- Hq1 in R1. rewrite <- Hq2 in R2. rewrite R1 in R2.
    unfold str_len in R2. apply Nat2Z.inj. exact R2. }
  rewrite <- (str_from_app q1 (String "." e1)), <- Hq1, Hlen, Hq2.
  apply str_from_app.
Qed.

Lemma detect_language_in_assoc m : forall filename ext,
  forallb single_dot (map fst m) = true ->
  single_dot ext = true ->
  endswith filename ext = true ->
  detect_language_in m filename = assoc ext m.
Proof.
  induction m as [|[e0 l0] m IH]; intros filename ext Hall Hext Hend; simpl.
  - reflexivity.
  - simpl in Hall. apply andb_true_iff in Hall. destruct Hall as [H0 Hall].
    destruct (endswith filename e0) eqn:E0.
    + rewrite (single_dot_endings_agree filename ext e0 Hext H0 Hend E0).
      rewrite String.eqb_refl. reflexivity.
    + destruct (String.eqb_spec ext e0) as [->|Hne]; [congruence|].
      apply IH; assumption.
Qed.

(** X8. [detect_language] finds the language of every extension of
    [LANGUAGE_MAP]: a file name that ends with an extension listed there is
    given the language listed for it, whichever entries come before it in
    the table (no name ends with two of the extensions). *)
Theorem detect_language_of_extension filename ext lang :
  In (ext, lang) LANGUAGE_MAP ->
  endswith filename ext = true ->
  detect_language filename = Some lang.
Proof.
  intros Hin Hend. unfold detect_language.
  assert (H : single_dot ext = true /\ assoc ext LANGUAGE_MAP = Some lang).
  { unfold LANGUAGE_MAP in Hin. simpl in Hin.
    repeat (destruct Hin as [Heq|Hin];
            [injection Heq as <- <-; split; reflexivity|]).
    contradiction. }
  destruct H as [Hsd Has].
  rewrite (detect_language_in_assoc LANGUAGE_MAP filename ext); auto.
Qed.

Lemma detect_language_of_extension_witness :
  In (".pyi", "python")%string LANGUAGE_MAP /\
  endswith "types.d.pyi" ".pyi" = true /\
  detect_language "types.d.pyi" = Some "python"%string.
Proof.
  assert (Hin : In (".pyi", "python")%string LANGUAGE_MAP).
  { unfold LANGUAGE_MAP. do 7 right. left. reflexivity. }
  split; [exact Hin|]. split; [reflexivity|].
  apply (detect_language_of_extension "types.d.pyi" ".pyi" "python" Hin).
  reflexivity.
Defined.

End LanguageMore.

(** ** More on the walker and the ignore policy *)

Module WalkerMore.

Import Py Walker WalkerFacts StoreLogic.

Section Policy.

Variable fnmatch : string -> string -> bool.

(** What a [False] answer of [should_ignore] rules out. *)
Lemma should_ignore_false n rel pats :
  should_ignore fnmatch n rel pats = false ->
  str_mem n DEFAULT_IGNORE = false /\
  forall pattern, In pattern pats ->
    fnmatch n pattern = false /\
    fnmatch rel pattern = false /\
    (str_in "**" pattern = true -> fnmatch rel (collapse_stars pattern) = false).
Proof.
  unfold should_ignore. destruct (str_mem n DEFAULT_IGNORE); [discriminate|].
  intros H. split; [reflexivity|]. intros pattern Hin.
  assert (Hp : fnmatch n pattern || fnmatch rel pattern
               || (str_in "**" pattern && fnmatch rel (collapse_stars pattern))
               = false).
  { match goal with |- ?b = false => destruct b eqn:E; [|reflexivity] end.
    rewrite <- H. symmetry. apply existsb_exists. exists pattern. auto. }
  apply orb_false_iff in Hp. destruct Hp as [Hp H3].
  apply orb_false_iff in Hp. destruct Hp as [H1 H2].
  repeat split; auto. intros Hs. rewrite Hs in H3. exact H3.
Qed.


Variable max_depth : Z.
Variable pats : list string.

(** What the walker asked of the entry named [c] found in the directory
    [dir]: its name is not hidden and not in the static deny-set, and no
    pattern matches its name, its path, or its path once [**] is
    collapsed. *)
Let passed (dir : list string) (c : string) : Prop :=
  startswith c "." = false /\
  str_mem c DEFAULT_IGNORE = false /\
  forall pattern, In pattern pats ->
    fnmatch c pattern = false /\
    fnmatch (join "/" (dir ++ [c])) pattern = false /\
    (str_in "**" pattern = true ->
     fnmatch (join "/" (dir ++ [c])) (collapse_stars pattern) = false).

Lemma passed_entry dir n :
  startswith n "." = false ->
  should_ignore fnmatch n (join "/" (dir ++ [n])) pats = false ->
  passed dir n.
Proof.
  intros E1 E3. destruct (should_ignore_false _ _ _ E3) as [Hdef Hpat].
  split; [exact E1|]. split; [exact Hdef|]. exact Hpat.
Qed.

(** A yielded path, component by component: the components are the names
    of the entries gone through in the tree, and each of them passed the
    tests where it was found. *)
Lemma walk_entry_components e : forall dir depth w,
  depth <= max_depth ->
  In w (walk_entry fnmatch max_depth pats dir depth e) ->
  exists comps,
    leads_to e comps w /\
    rel_path w = join "/" (dir ++ comps) /\
    last comps EmptyString = name w /\
    1 <= len comps /\ depth + len comps <= max_depth + 1 /\
    forall pre c post, comps = pre ++ c :: post -> passed (dir ++ pre) c.
Proof.
  induction e as [n st rd|n|n es IH|n] using entry_tree_ind;
    intros dir depth w Hd H.
  - rewrite walk_entry_file in H.
    destruct (startswith n ".") eqn:E1; [contradiction|].
    destruct (str_mem (lower (suffix n)) IGNORE_EXTENSIONS); [contradiction|].
    destruct (should_ignore fnmatch n _ pats) eqn:E3; [contradiction|].
    destruct H as [<-|[]]. simpl rel_path. simpl name.
    exists [n]. split; [constructor|]. split; [reflexivity|].
    split; [reflexivity|].
    split; [unfold len; simpl; lia|]. split; [unfold len; simpl; lia|].
    intros pre c post Hc.
    destruct pre as [|x pre]; simpl in Hc.
    + injection Hc as <- _. rewrite app_nil_r. apply passed_entry; assumption.
    + injection Hc as _ Hc. destruct pre; discriminate Hc.
  - rewrite walk_entry_dir in H.
    destruct (startswith n "."); [contradiction|].
    destruct (should_ignore _ _ _ _); [contradiction|].
    destruct (depth + 1 >? max_depth); contradiction.
  - rewrite walk_entry_dir in H.
    destruct (startswith n ".") eqn:E1; [contradiction|].
    destruct (should_ignore fnmatch n _ pats) eqn:E3; [contradiction|].
    destruct (Z.gtb_spec (depth + 1) max_depth) as [|Hle]; [contradiction|].
    apply in_flat_map in H. destruct H as (e' & Hin & Hw).
    rewrite Forall_forall in IH.
    destruct (IH e' Hin (dir ++ [n]) (depth + 1) w Hle Hw)
      as (comps & Hlead & Hrel & Hlast & Hlen1 & Hlen2 & Hall).
    exists (n :: comps).
    split; [exact (leads_to_dir n es e' comps w Hin Hlead)|].
    split; [rewrite Hrel, <- app_assoc; reflexivity|].
    split.
    { rewrite <- Hlast.
      destruct comps as [|c cs]; [unfold len in Hlen1; simpl in Hlen1; lia|].
      reflexivity. }
    split; [unfold len in *; simpl List.length; lia|].
    split; [unfold len in *; simpl List.length; lia|].
    intros pre c post Hc.
    destruct pre as [|x pre]; simpl in Hc.
    + injection Hc as <- _. rewrite app_nil_r. apply passed_entry; assumption.
    + injection Hc as <- Hc.
      pose proof (Hall pre c post Hc) as Hp.
      rewrite <- app_assoc in Hp. exact Hp.
  - contradiction.
Qed.

End Policy.

(** The same for [walk_files], from the listing of the root. *)
Lemma walk_files_components fnmatch root max_depth w :
  In w (walk_files fnmatch root max_depth) ->
  exists comps,
    located root comps w /\
    rel_path w = join "/" comps /\
    last comps EmptyString = name w /\
    1 <= len comps <= max_depth + 1 /\
    forall pre c post, comps = pre ++ c :: post ->
      startswith c "." = false /\
      str_mem c DEFAULT_IGNORE = false /\
      forall pattern, In pattern (parse_gitignore root) ->
        fnmatch c pattern = false /\
        fnmatch (join "/" (pre ++ [c])) pattern = false /\
        (str_in "**" pattern = true ->
         fnmatch (join "/" (pre ++ [c])) (collapse_stars pattern) = false).
Proof.
  unfold walk_files, _walk. intros H.
  destruct (Z.gtb_spec 0 max_depth) as [|Hd]; [contradiction|].
  apply in_flat_map in H. destruct H as (e & He & Hw).
  destruct (walk_entry_components fnmatch max_depth (parse_gitignore root)
              e [] 0 w Hd Hw) as (comps & Hlead & Hrel & Hlast & H1 & H2 & Hall).
  exists comps. split; [exists e; split; assumption|].
  split; [exact Hrel|]. split; [exact Hlast|]. split; [lia|].
  intros pre c post Hc. exact (Hall pre c post Hc).
Qed.

(** X9. Every path [walk_files] yields is found in the tree by going
    through at most [max_depth] directories from the root and then to the
    file: its relative path is the names of those directories and of the
    file joined by [/], and none of these names begins with a dot or is a
    name of [DEFAULT_IGNORE]. So nothing below a hidden or deny-listed
    directory is yielded, at any depth, and nothing deeper than the
    limit. *)
Theorem walked_paths_avoid_denied_names fnmatch root max_depth w :
  In w (walk_files fnmatch root max_depth) ->
  exists comps,
    located root comps w /\
    rel_path w = join "/" comps /\
    last comps EmptyString = name w /\
    1 <= len comps <= max_depth + 1 /\
    Forall (fun c => startswith c "." = false /\ str_mem c DEFAULT_IGNORE = false)
      comps.
Proof.
  intros H.
  destruct (walk_files_components fnmatch root max_depth w H)
    as (comps & Hloc & Hrel & Hlast & Hlen & Hall).
  exists comps. split; [exact Hloc|]. split; [exact Hrel|].
  split; [exact Hlast|]. split; [exact Hlen|].
  apply Forall_forall. intros c Hc.
  apply in_split in Hc. destruct Hc as (pre & post & Hc).
  destruct (Hall pre c post Hc) as (Ha & Hb & _). auto.
Qed.

Lemma walked_paths_avoid_denied_names_witness :
  let w := {| rel_path := "src/lib/util.py"; name := "util.py"; stat := StatOk 5 0;
              read_text := ReadOk "y = 2" |}%string in
  map rel_path (walk_files (fun _ _ => false) Examples.nested 20)
    = ["src/lib/util.py"; "src/main.py"]%string /\
  In w (walk_files (fun _ _ => false) Examples.nested 20) /\
  exists comps,
    located Examples.nested comps w /\
    rel_path w = join "/" comps /\
    last comps EmptyString = name w /\
    1 <= len comps <= 20 + 1 /\
    Forall (fun c => startswith c "." = false /\ str_mem c DEFAULT_IGNORE = false)
      comps.
Proof.
  intros w. split; [reflexivity|].
  assert (Hin : In w (walk_files (fun _ _ => false) Examples.nested 20))
    by (left; reflexivity).
  split; [exact Hin|].
  apply (walked_paths_avoid_denied_names (fun _ _ => false) Examples.nested 20 w Hin).
Defined.

(** X10. Every path [walk_files] yields is found in the tree under names
    that no pattern read from the root [.gitignore] matches: for the file
    and for each directory on the way to it, the pattern matches neither
    the name, nor the path from the root down to it, nor that path against
    the pattern with [**] collapsed to [*]. *)
Theorem walked_paths_match_no_pattern fnmatch root max_depth w pattern :
  In w (walk_files fnmatch root max_depth) ->
  In pattern (parse_gitignore root) ->
  exists comps,
    located root comps w /\
    rel_path w = join "/" comps /\
    forall pre c post, comps = pre ++ c :: post ->
      fnmatch c pattern = false /\
      fnmatch (join "/" (pre ++ [c])) pattern = false /\
      (str_in "**" pattern = true ->
       fnmatch (join "/" (pre ++ [c])) (collapse_stars pattern) = false).
Proof.
  intros H Hp.
  destruct (walk_files_components fnmatch root max_depth w H)
    as (comps & Hloc & Hrel & _ & _ & Hall).
  exists comps. split; [exact Hloc|]. split; [exact Hrel|].
  intros pre c post Hc.
  destruct (Hall pre c post Hc) as (_ & _ & Hpat). exact (Hpat pattern Hp).
Qed.

Lemma walked_paths_match_no_pattern_witness :
  let fm := fun n pat : string => String.eqb n pat in
  let w := {| rel_path := "src/lib/util.py"; name := "util.py"; stat := StatOk 5 0;
              read_text := ReadOk "y = 2" |}%string in
  parse_gitignore Examples.nested_with_patterns = ["gen"; "src/main.py"]%string /\
  map rel_path (walk_files fm Examples.nested_with_patterns 20)
    = ["src/lib/util.py"]%string /\
  exists comps,
    located Examples.nested_with_patterns comps w /\
    rel_path w = join "/" comps /\
    forall pre c post, comps = pre ++ c :: post ->
      fm c "gen"%string = false /\
      fm (join "/" (pre ++ [c])) "gen"%string = false /\
      (str_in "**" "gen" = true ->
       fm (join "/" (pre ++ [c])) (collapse_stars "gen") = false).
Proof.
  intros fm w.
  split; [reflexivity|]. split; [reflexivity|].
  assert (Hp : In "gen"%string (parse_gitignore Examples.nested_with_patterns))
    by (left; reflexivity).
  assert (Hin : In w (walk_files fm Examples.nested_with_patterns 20))
    by (left; reflexivity).
  exact (walked_paths_match_no_pattern fm Examples.nested_with_patterns 20 w
           "gen"%string Hin Hp).
Defined.

(** X11. A file whose name ends with an extension of [IGNORE_EXTENSIONS]
    that has a single dot is never yielded, whatever the tree, the depth
    limit and the patterns. *)
Theorem single_dot_denied_extensions_skipped fnmatch root max_depth w ext :
  In w (walk_files fnmatch root max_depth) ->
  In ext IGNORE_EXTENSIONS ->
  StoreLogic.single_dot ext = true ->
  endswith (name w) ext = false.
Proof.
  intros Hw Hin Hsd.
  apply (walker_skips_single_dot_extensions fnmatch root max_depth w ext Hw Hin);
    intros ->; discriminate Hsd.
Qed.

Lemma single_dot_denied_extensions_skipped_witness :
  let w := {| rel_path := "main.js"; name := "main.js"; stat := StatOk 10 0;
              read_text := ReadOk "var c=3;" |}%string in
  In w (walk_files (fun _ _ => false) Examples.bundled 20) /\
  In ".png"%string IGNORE_EXTENSIONS /\
  endswith (name w) ".png" = false.
Proof.
  intros w.
  assert (Hin : In w (walk_files (fun _ _ => false) Examples.bundled 20))
    by (do 3 right; left; reflexivity).
  assert (Hext : In ".png"%string IGNORE_EXTENSIONS)
    by (unfold IGNORE_EXTENSIONS; do 14 right; left; reflexivity).
  split; [exact Hin|]. split; [exact Hext|].
  apply (single_dot_denied_extensions_skipped (fun _ _ => false)
           Examples.bundled 20 w ".png" Hin Hext).
  reflexivity.
Defined.

(** *** The patterns of [parse_gitignore] *)

Lemma lstrip_by_suffix f s : exists t, s = (t ++ lstrip_by f s)%string.
Proof.
  induction s as [|c s IH]; simpl.
  - exists EmptyString. reflexivity.
  - destruct (f c).
    + destruct IH as [t Ht]. exists (String c t). simpl. rewrite <- Ht. reflexivity.
    + exists EmptyString. reflexivity.
Qed.

Lemma lstrip_by_head f s c r : lstrip_by f s = String c r -> f c = false.
Proof.
  induction s as [|d s IH]; simpl; [discriminate|].
  destruct (f d) eqn:E; [exact IH|].
  intros H. injection H as <- _. exact E.
Qed.

Lemma rstrip_by_prefix f s : exists t, s = (rstrip_by f s ++ t)%string.
Proof.
  unfold rstrip_by. destruct (lstrip_by_suffix f (str_rev s)) as [t Ht].
  exists (str_rev t).
  rewrite <- str_rev_app, <- Ht. symmetry. apply str_rev_involutive.
Qed.

Lemma prefix_one_app c a b :
  String.prefix (String c EmptyString) a = true ->
  String.prefix (String c EmptyString) (a ++ b) = true.
Proof.
  destruct a as [|d a]; simpl; [discriminate|].
  destruct (ascii_dec c d); [|discriminate]. intros _.
  destruct (a ++ b)%string; reflexivity.
Qed.

Lemma rstrip_by_last c s :
  endswith (rstrip_by (Ascii.eqb c) s) (String c EmptyString) = false.
Proof.
  unfold endswith, rstrip_by. rewrite str_rev_involutive.
  change (str_rev (String c EmptyString)) with (String c EmptyString).
  destruct (lstrip_by (Ascii.eqb c) (str_rev s)) as [|d r] eqn:E; [reflexivity|].
  apply lstrip_by_head in E. simpl.
  destruct (ascii_dec c d) as [->|]; [|reflexivity].
  rewrite Ascii.eqb_refl in E. discriminate E.
Qed.

Lemma gitignore_lines_patterns ls pattern :
  In pattern (gitignore_lines ls) ->
  startswith pattern "#" = false /\
  startswith pattern "!" = false /\
  endswith pattern "/" = false.
Proof.
  induction ls as [|line ls IH]; simpl; [contradiction|].
  destruct (String.eqb (strip line) EmptyString || startswith (strip line) "#")%bool
    eqn:E1; [exact IH|].
  destruct (startswith (rstrip_by (Ascii.eqb "/") (strip line)) "!") eqn:E2;
    [exact IH|].
  intros [<-|Hin]; [|exact (IH Hin)].
  apply orb_false_iff in E1. destruct E1 as [_ Hhash].
  split; [|split; [exact E2 | apply rstrip_by_last]].
  destruct (startswith (rstrip_by (Ascii.eqb "/") (strip line)) "#") eqn:E3;
    [|reflexivity].
  destruct (rstrip_by_prefix (Ascii.eqb "/") (strip line)) as [t Ht].
  unfold startswith in *. rewrite Ht in Hhash.
  rewrite (prefix_one_app _ _ t E3) in Hhash. discriminate Hhash.
Qed.

(** X12. No pattern that [parse_gitignore] returns begins with [#] or [!]
    or ends with [/]: comment lines and negation lines never become
    patterns, and directory patterns lose their trailing slashes. *)
Theorem parsed_patterns_are_plain root :
  Forall (fun pattern =>
            startswith pattern "#" = false /\
            startswith pattern "!" = false /\
            endswith pattern "/" = false)
    (parse_gitignore root).
Proof.
  apply Forall_forall. intros pattern. unfold parse_gitignore.
  destruct (find_entry ".gitignore" root) as [[n st [content| |msg]|n l|n]|];
    try contradiction.
  apply gitignore_lines_patterns.
Qed.

End WalkerMore.

(** ** More on the store *)

Module StoreMore.

Import Py Chunker Database Scanner ScanLogic StoreLogic ScannerFacts.

Local Abbreviation by_path p := (fun r : file_row => String.eqb (f_path r) p).

(** *** [upsert_file], call by call *)

Section Upsert.

Variables (now : Z) (path h : string) (size : Z) (lang : option string)
          (mtime pid : option Z).

Local Abbreviation upd := (update_file h mtime size lang now pid path).
Local Abbreviation ins := (insert_file path h mtime size lang now pid).

(** How [upsert_file] can end: an exception after nothing or after the
    UPDATE; the id selected after an UPDATE that hit; or the id of the row
    inserted after an UPDATE that hit nothing. *)
Lemma upsert_file_effect c r c' :
  upsert_file now path h size lang mtime pid c = (r, c') ->
  committed c' = committed c /\
  ((exists msg, r = inr msg /\
      (working c' = working c \/ working c' = snd (upd (working c)))) \/
   (0 < fst (upd (working c)) /\ working c' = snd (upd (working c)) /\
    exists id, r = inl id /\ fst (select_id path (snd (upd (working c)))) = Some id) \/
   (fst (upd (working c)) <= 0 /\
    working c' = snd (ins (snd (upd (working c)))) /\
    r = inl (fst (ins (snd (upd (working c))))))).
Proof.
  intros H.
  split; [exact (proj1 (upsert_file_cases _ _ _ _ _ _ _ _ _ _ H))|].
  unfold upsert_file, sql_bind in H.
  destruct (execute upd c) as [[rowcount|msg] c1] eqn:E1.
  2:{ inversion H; subst.
      destruct (execute_cases _ _ _ _ E1) as (_ & _ & [(m & _ & Hw & _)|(Hr & _)]);
        [|discriminate].
      left. exists msg. auto. }
  destruct (execute_cases _ _ _ _ E1) as (_ & _ & [(m & Hr & _)|(Hr1 & Hw1)]);
    [discriminate|].
  assert (Hrc : fst (upd (working c)) = rowcount) by (injection Hr1; auto).
  clear Hr1. rewrite Hrc.
  destruct (Z.gtb_spec rowcount 0) as [Hpos|Hzero].
  - destruct (execute (select_id path) c1) as [[row|msg] c2] eqn:E2.
    + destruct (execute_cases _ _ _ _ E2) as (_ & _ & [(m & Hr & _)|(Hr2 & Hw2)]);
        [discriminate|].
      simpl in Hw2. rewrite Hw1 in Hw2.
      assert (Hrow : fst (select_id path (snd (upd (working c)))) = row).
      { rewrite <- Hw1. injection Hr2; auto. }
      destruct row as [id|]; inversion H; subst.
      * right. left. split; [lia|]. split; [exact Hw2|]. exists id. auto.
      * left. eexists. split; [reflexivity|]. right. exact Hw2.
    + inversion H; subst.
      destruct (execute_cases _ _ _ _ E2) as (_ & _ & [(m & _ & Hw2 & _)|(Hr & _)]);
        [|discriminate].
      left. exists msg. split; [reflexivity|]. right. congruence.
  - destruct (execute_cases _ _ _ _ H) as (_ & _ & [(m & -> & Hw2 & _)|(-> & Hw2)]).
    + left. exists m. split; [reflexivity|]. right. congruence.
    + right. right. split; [exact Hzero|]. rewrite Hw2, Hw1. auto.
Qed.

(** *** Rows before and after the UPDATE and the INSERT *)

Lemma update_file_paths d : map f_path (files (snd (upd d))) = map f_path (files d).
Proof.
  unfold update_file; simpl. rewrite map_map. apply map_ext.
  intros r. destruct (String.eqb (f_path r) path); reflexivity.
Qed.

Lemma update_file_ids d : map f_id (files (snd (upd d))) = map f_id (files d).
Proof.
  unfold update_file; simpl. rewrite map_map. apply map_ext.
  intros r. destruct (String.eqb (f_path r) path); reflexivity.
Qed.

Lemma update_file_miss d :
  fst (upd d) <= 0 -> ~ In path (map f_path (files d)).
Proof.
  unfold update_file; simpl. intros Hle Hin.
  apply in_map_iff in Hin. destruct Hin as (r & Hp & Hr).
  assert (Hf : In r (filter (by_path path) (files d))).
  { apply filter_In. split; [exact Hr|]. simpl. rewrite Hp. apply String.eqb_refl. }
  unfold len in Hle. destruct (filter (by_path path) (files d)); [contradiction|].
  simpl in Hle. lia.
Qed.

Lemma find_update_file_other p d :
  p <> path ->
  find (by_path p) (files (snd (upd d))) = find (by_path p) (files d).
Proof.
  intros Hne. unfold update_file; simpl.
  induction (files d) as [|r rows IH]; simpl; [reflexivity|].
  destruct (String.eqb_spec (f_path r) path) as [E|E]; simpl.
  - destruct (String.eqb_spec (f_path r) p); [congruence | exact IH].
  - destruct (String.eqb (f_path r) p); [reflexivity | exact IH].
Qed.

Lemma find_insert_file_other p d :
  p <> path ->
  find (by_path p) (files (snd (ins d))) = find (by_path p) (files d).
Proof.
  intros Hne. unfold insert_file; simpl. rewrite find_last; simpl.
  destruct (find (by_path p) (files d)); [reflexivity|].
  destruct (String.eqb_spec path p); [congruence | reflexivity].
Qed.

(** After an UPDATE that hit, the first row of the path is the old one with
    the new values. *)
Lemma find_update_file_hit d :
  0 < fst (upd d) ->
  exists r0,
    find (by_path path) (files d) = Some r0 /\
    find (by_path path) (files (snd (upd d))) =
      Some {| f_id := f_id r0; f_path := f_path r0; f_hash := h; f_mtime := mtime;
              f_size := size; f_lang := lang; f_indexed_at := now;
              f_project_id := pid; f_ignored := f_ignored r0 |} /\
    f_path r0 = path.
Proof.
  unfold update_file; simpl.
  induction (files d) as [|r rows IH]; simpl; [unfold len; simpl; lia|].
  destruct (String.eqb_spec (f_path r) path) as [E|E]; simpl.
  - intros _. exists r. rewrite E, String.eqb_refl. auto.
  - intros H. destruct (String.eqb_spec (f_path r) path); [contradiction | auto].
Qed.

Lemma find_insert_file_miss d :
  fst (upd d) <= 0 ->
  find (by_path path) (files (snd (ins (snd (upd d))))) =
    Some {| f_id := fst (ins (snd (upd d))); f_path := path; f_hash := h;
            f_mtime := mtime; f_size := size; f_lang := lang;
            f_indexed_at := now; f_project_id := pid; f_ignored := false |}.
Proof.
  intros Hle. pose proof (update_file_miss d Hle) as Hno.
  rewrite <- update_file_paths in Hno.
  set (u := snd (upd d)) in *. clearbody u.
  unfold insert_file; simpl. rewrite find_last.
  destruct (find (by_path path) (files u)) as [r|] eqn:E.
  - exfalso. apply Hno. apply find_some in E. destruct E as [Hin Hp].
    apply String.eqb_eq in Hp. apply in_map_iff. exists r. auto.
  - simpl. rewrite String.eqb_refl. reflexivity.
Qed.

Lemma next_id_fresh seq ids : ~ In (next_id seq ids) ids.
Proof.
  unfold next_id. intros Hin.
  assert (H : forall x, In x ids -> x <= fold_right Z.max seq ids).
  { clear Hin. induction ids as [|y ids IH]; simpl; [contradiction|].
    intros x [->|Hx]; [lia|]. specialize (IH x Hx). lia. }
  specialize (H _ Hin). lia.
Qed.

(** Whatever holds before and is kept by the UPDATE, and by the INSERT
    after an UPDATE that hit nothing, is kept by [upsert_file]. *)
Lemma upsert_file_keeps_gen (P : db -> Prop) :
  (forall d, P d -> P (snd (upd d))) ->
  (forall d, P d -> fst (upd d) <= 0 -> P (snd (ins (snd (upd d))))) ->
  sql_keeps P (upsert_file now path h size lang mtime pid).
Proof.
  intros Hu Hi c r c' H.
  destruct (upsert_file_effect c r c' H) as (Hc & Hcase).
  split; [|intros _ Hcm; rewrite Hc; exact Hcm].
  intros Hw.
  destruct Hcase as [(msg & _ & [-> | ->])|[(_ & -> & _)|(Hle & -> & _)]]; auto.
Qed.

End Upsert.

(** X13. After [upsert_file] has returned an id for a path, looking the
    path up on the same connection gives a record with that id, that path
    and the fingerprint, size and language just stored. *)
Theorem upsert_then_lookup now path h size lang mtime pid c id c1 :
  upsert_file now path h size lang mtime pid c = (inl id, c1) ->
  next_call_ok c1 = true ->
  fst (get_file_by_path path c1)
  = inl (Some {| d_id := id; d_path := path; d_hash := h; d_size := size;
                 d_lang := lang |}).
Proof.
  intros H Hok. unfold get_file_by_path. rewrite (execute_ok _ _ Hok).
  cbn [fst]. f_equal. unfold select_file. cbn [fst].
  destruct (upsert_file_effect _ _ _ _ _ _ _ _ _ _ H) as (_ & Hcase).
  destruct Hcase as [(msg & Hr & _)|[(Hpos & Hw & id' & Hr & Hsel)|(Hle & Hw & Hr)]].
  - discriminate Hr.
  - injection Hr as <-. rewrite Hw.
    destruct (find_update_file_hit now path h size lang mtime pid _ Hpos)
      as (r0 & _ & Hfind & Hp).
    unfold select_id in Hsel. cbn [fst] in Hsel. rewrite Hfind in Hsel.
    simpl in Hsel. injection Hsel as Hid.
    rewrite Hfind. simpl. rewrite Hid, Hp. reflexivity.
  - injection Hr as ->. rewrite Hw.
    rewrite (find_insert_file_miss now path h size lang mtime pid _ Hle).
    reflexivity.
Qed.

Lemma upsert_then_lookup_witness :
  let c := fresh_conn [] in
  let r := upsert_file 1000 "a.py" "abc" 5 (Some "python"%string) (Some 0) None c in
  r = (inl 1, snd r) /\
  fst (get_file_by_path "a.py" (snd r))
  = inl (Some {| d_id := 1; d_path := "a.py"; d_hash := "abc"; d_size := 5;
                 d_lang := Some "python"%string |}).
Proof.
  intros c r.
  assert (Hr : r = (inl 1, snd r)) by reflexivity.
  split; [exact Hr|].
  apply (upsert_then_lookup 1000 "a.py" "abc" 5 (Some "python"%string) (Some 0) None
           c 1 (snd r) Hr).
  reflexivity.
Defined.

(** X14. However [upsert_file] ends, it changes nothing but the row of its
    own path: the lookup of every other path gives what it gave before,
    the chunks and the shadow index are untouched and nothing is
    committed. *)
Theorem upsert_leaves_the_rest now path h size lang mtime pid c p :
  p <> path ->
  let c1 := snd (upsert_file now path h size lang mtime pid c) in
  fst (select_file p (working c1)) = fst (select_file p (working c)) /\
  chunks (working c1) = chunks (working c) /\
  chunks_fts (working c1) = chunks_fts (working c) /\
  committed c1 = committed c.
Proof.
  intros Hne c1. subst c1.
  destruct (upsert_file now path h size lang mtime pid c) as [r c1] eqn:H.
  cbn [snd].
  destruct (upsert_file_effect _ _ _ _ _ _ _ _ _ _ H) as (Hc & Hcase).
  assert (Hw : working c1 = working c \/
               working c1 = snd (update_file h mtime size lang now pid path (working c)) \/
               working c1 = snd (insert_file path h mtime size lang now pid
                                   (snd (update_file h mtime size lang now pid path
                                           (working c))))).
  { destruct Hcase as [(msg & _ & [Hw|Hw])|[(_ & Hw & _)|(_ & Hw & _)]]; auto. }
  unfold select_file. cbn [fst].
  destruct Hw as [Hw|[Hw|Hw]]; rewrite Hw.
  - auto.
  - rewrite (find_update_file_other now path h size lang mtime pid p _ Hne). auto.
  - rewrite (find_insert_file_other now path h size lang mtime pid p _ Hne).
    rewrite (find_update_file_other now path h size lang mtime pid p _ Hne). auto.
Qed.

Lemma upsert_leaves_the_rest_witness :
  let c := fst (scan_workspace_sync (fun _ _ => None) (fun _ _ => false)
                  (fun s => s) 1000 10000 1048576 80 None (fresh_conn [])
                  Examples.two_files) in
  let c1 := snd (upsert_file 2000 "a.py" "new" 9 None None None c) in
  "b.py"%string <> "a.py"%string /\
  fst (select_file "b.py" (working c1)) = fst (select_file "b.py" (working c)) /\
  chunks (working c1) = chunks (working c).
Proof.
  intros c c1.
  assert (Hne : "b.py"%string <> "a.py"%string) by discriminate.
  split; [exact Hne|].
  destruct (upsert_leaves_the_rest 2000 "a.py" "new" 9 None None None c "b.py" Hne)
    as (H1 & H2 & _).
  split; [exact H1 | exact H2].
Defined.

Lemma upsert_file_unique now path h size lang mtime pid :
  sql_keeps (fun d => unique_paths d /\ unique_ids d)
    (upsert_file now path h size lang mtime pid).
Proof.
  apply upsert_file_keeps_gen.
  - intros d [A [B C]]. unfold unique_paths, unique_ids.
    rewrite update_file_paths, update_file_ids. auto.
  - intros d [A [B C]] Hle. unfold unique_paths, unique_ids.
    pose proof (update_file_miss now path h size lang mtime pid d Hle) as Hno.
    set (u := snd (update_file h mtime size lang now pid path d)).
    assert (Hup : map f_path (files u) = map f_path (files d))
      by apply update_file_paths.
    assert (Hui : map f_id (files u) = map f_id (files d))
      by apply update_file_ids.
    assert (Huc : chunks u = chunks d) by reflexivity.
    clearbody u. unfold insert_file; simpl.
    rewrite !map_app. simpl. rewrite Hup, Hui, Huc.
    split; [|split; [|exact C]].
    + apply NoDup_app; [exact A | repeat constructor; intros [] | ].
      intros x Hx [<-|[]]. contradiction.
    + apply NoDup_app; [exact B | repeat constructor; intros [] | ].
      intros x Hx [<-|[]]. rewrite <- Hui in Hx.
      exact (next_id_fresh _ _ Hx).
Qed.

(** X15. [upsert_file] never makes a second row for a path and never
    reuses an id: if paths and ids are unique before the call they are
    unique after it, however it ends. *)
Theorem upsert_keeps_rows_unique now path h size lang mtime pid c :
  unique_paths (working c) -> unique_ids (working c) ->
  let c1 := snd (upsert_file now path h size lang mtime pid c) in
  unique_paths (working c1) /\ unique_ids (working c1).
Proof.
  intros Hp Hi c1. subst c1.
  destruct (upsert_file now path h size lang mtime pid c) as [r c1] eqn:H.
  cbn [snd].
  destruct (upsert_file_unique now path h size lang mtime pid c r c1 H) as [Kw _].
  apply Kw. auto.
Qed.

Lemma upsert_keeps_rows_unique_witness :
  let c := fresh_conn [] in
  let c1 := snd (upsert_file 1000 "a.py" "abc" 5 None None None c) in
  unique_paths (working c1) /\ unique_ids (working c1).
Proof.
  intros c c1.
  apply (upsert_keeps_rows_unique 1000 "a.py" "abc" 5 None None None c).
  - constructor.
  - split; constructor.
Defined.

(** *** The shadow index *)

Lemma NoDup_map_filter {A B} (f : A -> B) (p : A -> bool) l :
  NoDup (map f l) -> NoDup (map f (filter p l)).
Proof.
  induction l as [|x l IH]; simpl; intros H; [constructor|].
  inversion H as [|? ? Hx Hl]; subst.
  destruct (p x); simpl; [|auto].
  constructor; [|auto].
  intros Hin. apply Hx. apply in_map_iff in Hin. destruct Hin as (y & Hy & Hin).
  apply filter_In in Hin. apply in_map_iff. exists y. tauto.
Qed.

Lemma NoDup_map_same {A B} (f : A -> B) l x y :
  NoDup (map f l) -> In x l -> In y l -> f x = f y -> x = y.
Proof.
  induction l as [|a l IH]; simpl; intros H Hx Hy E; [contradiction|].
  inversion H as [|? ? Ha Hl]; subst.
  destruct Hx as [->|Hx], Hy as [->|Hy]; auto.
  - exfalso. apply Ha. rewrite E. apply in_map. exact Hy.
  - exfalso. apply Ha. rewrite <- E. apply in_map. exact Hx.
Qed.

Lemma filter_map_swap {A B} (g : A -> B) (p : B -> bool) l :
  filter p (map g l) = map g (filter (fun x => p (g x)) l).
Proof.
  induction l as [|x l IH]; simpl; [reflexivity|].
  destruct (p (g x)); simpl; rewrite IH; reflexivity.
Qed.

Lemma insert_chunk_row_shadow fid s e content sym knd d :
  shadow_ok d -> shadow_ok (snd (insert_chunk_row fid s e content sym knd d)).
Proof.
  intros [Hn Hs]. unfold shadow_ok, fts_in_sync, insert_chunk_row; simpl.
  rewrite !map_app. simpl. split.
  - apply NoDup_app; [exact Hn | repeat constructor; intros [] | ].
    intros x Hx [<-|[]]. exact (next_id_fresh _ _ Hx).
  - rewrite Hs. reflexivity.
Qed.

Lemma delete_chunks_shadow fid d :
  shadow_ok d -> shadow_ok (snd (delete_chunks fid d)).
Proof.
  intros [Hn Hs]. unfold shadow_ok, fts_in_sync, delete_chunks; simpl. split.
  - apply NoDup_map_filter. exact Hn.
  - rewrite Hs, filter_map_swap. f_equal. apply filter_ext_in.
    intros c Hc. simpl.
    destruct (Z.eqb_spec (c_file_id c) fid) as [E|E]; simpl.
    + apply negb_false_iff. apply existsb_exists. exists c. split.
      * apply filter_In. split; [exact Hc|]. apply Z.eqb_eq. exact E.
      * apply Z.eqb_refl.
    + apply negb_true_iff.
      destruct (existsb _ _) eqn:Ex; [|reflexivity].
      apply existsb_exists in Ex. destruct Ex as (c' & Hc' & Hid).
      apply filter_In in Hc'. destruct Hc' as [Hin Hf].
      apply Z.eqb_eq in Hid. apply Z.eqb_eq in Hf.
      assert (c' = c) by (eapply NoDup_map_same; eauto).
      subst c'. contradiction.
Qed.

Lemma upsert_file_shadow now path h size lang mtime pid :
  sql_keeps shadow_ok (upsert_file now path h size lang mtime pid).
Proof. apply upsert_file_keeps_gen; intros d H; auto. Qed.

(** The entries of the index that [DELETE FROM chunks] leaves: those whose
    rowid is no chunk row's. *)
Lemma delete_all_chunks_left d e :
  In e (chunks_fts (snd (delete_all_chunks d))) <->
  In e (chunks_fts d) /\ ~ In (fst e) (map c_id (chunks d)).
Proof.
  cbn [delete_all_chunks snd chunks_fts]. rewrite filter_In.
  split; intros [Hin H]; (split; [exact Hin|]).
  - intros Hid. apply in_map_iff in Hid. destruct Hid as (ch & Hid & Hch).
    apply negb_true_iff in H.
    assert (Ht : existsb (fun c => c_id c =? fst e) (chunks d) = true).
    { apply existsb_exists. exists ch. split; [exact Hch|]. apply Z.eqb_eq, Hid. }
    rewrite Ht in H. discriminate H.
  - apply negb_true_iff. destruct (existsb _ _) eqn:Ex; [|reflexivity].
    apply existsb_exists in Ex. destruct Ex as (ch & Hch & Hid).
    exfalso. apply H. apply in_map_iff. exists ch. split; [|exact Hch].
    apply Z.eqb_eq. exact Hid.
Qed.

(** An index that mirrors the chunk table is emptied with it. *)
Lemma delete_all_chunks_sync d :
  fts_in_sync d -> chunks_fts (snd (delete_all_chunks d)) = [].
Proof.
  intros Hs.
  destruct (chunks_fts (snd (delete_all_chunks d))) as [|e l] eqn:E; [reflexivity|].
  exfalso.
  assert (Hin : In e (chunks_fts (snd (delete_all_chunks d))))
    by (rewrite E; left; reflexivity).
  apply delete_all_chunks_left in Hin. destruct Hin as [Hin Hno].
  apply Hno. rewrite Hs in Hin. apply in_map_iff in Hin.
  destruct Hin as (ch & <- & Hch). simpl. apply in_map. exact Hch.
Qed.

Lemma clear_index_shadow : sql_keeps shadow_ok clear_index.
Proof.
  unfold clear_index.
  apply sql_keeps_bind.
  { apply sql_keeps_execute. intros d [_ Hs]. split; [constructor|].
    unfold fts_in_sync. rewrite (delete_all_chunks_sync d Hs). reflexivity. }
  intros _. apply sql_keeps_bind; [|intros _; apply sql_keeps_commit].
  apply sql_keeps_execute. intros d H. exact H.
Qed.

(** X16. Each writing operation of the store keeps the shadow index in
    step with the chunk table (same rowids, same contents, same order,
    rowids unique), however the operation ends: [insert_chunk],
    [delete_chunks_for_file], [upsert_file] and [clear_index]. *)
Theorem store_operations_keep_shadow_index c :
  shadow_ok (working c) ->
  (forall fid s e content sym knd,
     shadow_ok (working (snd (insert_chunk fid s e content sym knd c)))) /\
  (forall fid, shadow_ok (working (snd (delete_chunks_for_file fid c)))) /\
  (forall now path h size lang mtime pid,
     shadow_ok (working (snd (upsert_file now path h size lang mtime pid c)))) /\
  shadow_ok (working (snd (clear_index c))).
Proof.
  intros H.
  assert (K : forall A (m : Sql A), sql_keeps shadow_ok m ->
                shadow_ok (working (snd (m c)))).
  { intros A m Hm. destruct (m c) as [r c'] eqn:E.
    destruct (Hm c r c' E) as [Kw _]. apply Kw. exact H. }
  split; [|split; [|split]]; intros; apply K.
  - apply sql_keeps_execute. intros d. apply insert_chunk_row_shadow.
  - apply sql_keeps_execute. intros d. apply delete_chunks_shadow.
  - apply upsert_file_shadow.
  - apply clear_index_shadow.
Qed.

Lemma store_operations_keep_shadow_index_witness :
  let c := fst (scan_workspace_sync (fun _ _ => None) (fun _ _ => false)
                  (fun s => s) 1000 10000 1048576 80 None (fresh_conn [])
                  Examples.two_files) in
  shadow_ok (working c) /\
  shadow_ok (working (snd (delete_chunks_for_file 1 c))).
Proof.
  intros c.
  assert (H : shadow_ok (working c)).
  { split; [|reflexivity]. vm_compute. repeat constructor; simpl; intuition discriminate. }
  split; [exact H|].
  exact (proj1 (proj2 (store_operations_keep_shadow_index c H)) 1).
Defined.



End StoreMore.

(** ** More on the scan loop *)

Module ScanMore.

Import Py Chunker Walker Database Scanner ScanLogic StoreLogic ScannerFacts
       ChunkerMore StoreMore.

(** *** Code that raises only when a call on the connection fails *)

Lemma sql_calm_execute {A} (stmt : db -> A * db) : sql_calm (execute stmt).
Proof.
  intros c r c' H Hnil.
  destruct (execute_cases _ _ _ _ H) as (_ & Hf & [(m & _ & _ & Hn)|(-> & _)]).
  - rewrite (next_call_ok_nil _ Hnil) in Hn. discriminate.
  - rewrite Hf, Hnil. split; [reflexivity | eexists; reflexivity].
Qed.

Lemma sql_calm_commit : sql_calm commit.
Proof.
  intros c r c' H Hnil.
  destruct (commit_cases _ _ _ H) as (_ & Hf & [(m & _ & _ & Hn)|(-> & _)]).
  - rewrite (next_call_ok_nil _ Hnil) in Hn. discriminate.
  - rewrite Hf, Hnil. split; [reflexivity | eexists; reflexivity].
Qed.

Lemma sql_calm_upsert_file now path h size lang mtime pid :
  sql_calm (upsert_file now path h size lang mtime pid).
Proof.
  intros c r c' H Hnil.
  destruct (upsert_file_cases _ _ _ _ _ _ _ _ _ _ H) as (_ & _ & Hf & Hr).
  split; [auto|]. destruct r as [a|msg]; [eexists; reflexivity | contradiction].
Qed.

Lemma calm_ret {A} (a : A) : calm (ret a).
Proof.
  intros st o st' H. inversion H; subst.
  split; [discriminate|]. intros Hn. split; [exact Hn | discriminate].
Qed.

Lemma calm_continue {A} : calm (@continue A).
Proof.
  intros st o st' H. inversion H; subst.
  split; [discriminate|]. intros Hn. split; [exact Hn | discriminate].
Qed.

Lemma calm_update f : calm (update f).
Proof.
  intros st o st' H. inversion H; subst.
  split; [discriminate|]. intros Hn. split; [exact Hn | discriminate].
Qed.

Lemma calm_sql {A} (m : Sql A) : sql_calm m -> calm (sql m).
Proof.
  intros Hm st o st' H. unfold sql in H.
  destruct (m (st_conn st)) as [[a|msg] c] eqn:E; inversion H; subst; simpl.
  - split; [discriminate|]. intros Hn.
    destruct (Hm _ _ _ E Hn) as [Hf _]. split; [exact Hf | discriminate].
  - split; [discriminate|]. intros Hn.
    destruct (Hm _ _ _ E Hn) as [_ [a Ha]]. discriminate Ha.
Qed.

Lemma calm_bind {A B} (m : M A) (k : A -> M B) :
  calm m -> (forall a, calm (k a)) -> calm (bind m k).
Proof.
  intros Hm Hk st o st' H. unfold bind in H.
  destruct (m st) as [[a| |e] st1] eqn:E.
  - destruct (Hm _ _ _ E) as [_ H1]. destruct (Hk a _ _ _ H) as [H2 H3].
    split; [exact H2|]. intros Hn. destruct (H1 Hn) as [Hf _]. exact (H3 Hf).
  - inversion H; subst. destruct (Hm _ _ _ E) as [_ H1].
    split; [discriminate|]. intros Hn. destruct (H1 Hn) as [Hf _].
    split; [exact Hf | discriminate].
  - inversion H; subst. destruct (Hm _ _ _ E) as [H0 H1].
    split; [intros Hx; apply H0; congruence|]. intros Hn.
    destruct (H1 Hn) as [Hf Hno]. exfalso. exact (Hno e eq_refl).
Qed.

Lemma calm_insert_chunks file_id cs : calm (insert_chunks file_id cs).
Proof.
  induction cs as [|ch cs IH]; simpl; [apply calm_ret|].
  apply calm_bind; [apply calm_sql, sql_calm_execute|].
  intros _. apply calm_bind; [apply calm_update | intros _; exact IH].
Qed.

Section Turn.

Variable re_search : string -> string -> option string.
Variable sha256_hexdigest : string -> string.
Variables now max_files max_file_size max_chunk_lines : Z.
Variable project_id : option Z.

Local Abbreviation body :=
  (try_body re_search sha256_hexdigest now max_file_size max_chunk_lines project_id).
Local Abbreviation turn :=
  (loop_body re_search sha256_hexdigest now max_file_size max_chunk_lines project_id).
Local Abbreviation run :=
  (scan_loop re_search sha256_hexdigest now max_files max_file_size
     max_chunk_lines project_id).

(** An exception that is a [UnicodeDecodeError], or that comes while no
    call on the connection fails, is raised by [stat] or by [read_text],
    before anything was written or counted. *)
Lemma try_body_raised f st e st' :
  body f st = (Raised e, st') ->
  e = UnicodeDecodeError \/ faults (st_conn st) = [] ->
  st' = st.
Proof.
  intros H Hwhy. unfold try_body in H.
  unfold bind at 1 in H. unfold path_stat in H.
  destruct (stat f) as [file_size file_mtime|msg0];
    [unfold ret at 1 in H | unfold raise at 1 in H]; cbv beta iota in H.
  2:{ inversion H; reflexivity. }
  destruct (file_size >? max_file_size).
  { inversion H. }
  unfold bind at 1 in H. unfold path_read_text in H.
  destruct (read_text f) as [content| |msg0];
    [unfold ret at 1 in H | unfold raise at 1 in H | unfold raise at 1 in H];
    cbv beta iota in H.
  2:{ inversion H; reflexivity. }
  2:{ inversion H; reflexivity. }
  exfalso. revert H.
  match goal with
  | |- ?m st = _ -> False =>
      assert (Hcalm : calm m); [|intros H; destruct (Hcalm _ _ _ H) as [H1 H2]]
  end.
  - apply calm_bind; [apply calm_sql, sql_calm_execute|].
    intros existing. cbv zeta. destruct (same_hash existing _).
    { apply calm_bind; [apply calm_update | intros _; apply calm_continue]. }
    apply calm_bind; [apply calm_sql, sql_calm_upsert_file|].
    intros file_id. apply calm_bind.
    { destruct existing; [apply calm_sql, sql_calm_execute | apply calm_ret]. }
    intros _. apply calm_bind; [apply calm_insert_chunks|].
    intros _. apply calm_bind; [apply calm_update|].
    intros _. apply calm_sql, sql_calm_commit.
  - destruct Hwhy as [->|Hn]; [contradiction|].
    destruct (H2 Hn) as [_ H3]. exact (H3 e eq_refl).
Qed.

(** What one turn does to the counters that no exit touches. *)
Lemma loop_body_scanned f st :
  files_scanned (st_result (turn f st)) = files_scanned (st_result st) + 1 /\
  stopped_early (st_result (turn f st)) = stopped_early (st_result st).
Proof.
  unfold loop_body.
  destruct (body f _) as [[[]| |[|msg]] st'] eqn:E;
    apply try_body_post in E; destruct E as (Hs & _ & Hst & _); simpl in *;
    split; assumption.
Qed.

Lemma scan_loop_ceiling paths : forall st,
  files_scanned (st_result (run paths st))
  = files_scanned (st_result st)
    + Z.min (len paths) (Z.max 0 (max_files - files_scanned (st_result st))) /\
  stopped_early (st_result (run paths st))
  = stopped_early (st_result st)
    || (len paths >? Z.max 0 (max_files - files_scanned (st_result st))).
Proof.
  induction paths as [|f paths IH]; intros st; simpl scan_loop.
  - unfold len; simpl. split; [lia|].
    destruct (Z.gtb_spec 0 (Z.max 0 (max_files - files_scanned (st_result st))));
      [lia|]. rewrite orb_false_r. reflexivity.
  - assert (Hl : len (f :: paths) = len paths + 1)
      by (unfold len; simpl List.length; lia).
    pose proof (PyFacts.len_nonneg paths) as Hnn. rewrite Hl.
    destruct (Z.geb_spec (files_scanned (st_result st)) max_files) as [Hge|Hlt].
    + simpl. split; [lia|].
      destruct (Z.gtb_spec (len paths + 1)
                  (Z.max 0 (max_files - files_scanned (st_result st)))); [|lia].
      symmetry. apply orb_true_r.
    + destruct (IH (turn f st)) as [H1 H2].
      destruct (loop_body_scanned f st) as [Hs Hst].
      rewrite H1, H2, Hs, Hst. split; [lia|]. f_equal.
      destruct (Z.gtb_spec (len paths)
                  (Z.max 0 (max_files - (files_scanned (st_result st) + 1))));
        destruct (Z.gtb_spec (len paths + 1)
                    (Z.max 0 (max_files - files_scanned (st_result st))));
        try reflexivity; lia.
Qed.

(** X18. The scan loop takes from the walker at most [max_files] paths
    (none when [max_files] is not positive): [files_scanned] is the smaller
    of the number of walked paths and the ceiling, and [stopped_early] is
    set exactly when there were more paths than the ceiling, whatever the
    files and the connection do. *)
Theorem scan_stops_at_the_ceiling fnmatch c root :
  let r := snd (scan_workspace_sync re_search fnmatch sha256_hexdigest now
                  max_files max_file_size max_chunk_lines project_id c root) in
  let n := len (walk_files fnmatch root 20) in
  files_scanned r = Z.min n (Z.max 0 max_files) /\
  stopped_early r = (n >? Z.max 0 max_files).
Proof.
  cbv zeta. unfold scan_workspace_sync. cbn [snd].
  destruct (scan_loop_ceiling (walk_files fnmatch root 20)
              {| st_conn := c; st_result := empty_result |}) as [H1 H2].
  rewrite H1, H2. simpl. rewrite Z.sub_0_r. auto.
Qed.

(** X19. A turn that counts its file as skipped (too large, not decodable,
    or unchanged) writes nothing: the tables the connection sees and the
    committed ones are as before, and so are [files_indexed],
    [chunks_created] and the errors. *)
Theorem skipped_file_writes_nothing f st :
  let st' := loop_body re_search sha256_hexdigest now max_file_size
               max_chunk_lines project_id f st in
  files_skipped (st_result st') = files_skipped (st_result st) + 1 ->
  working (st_conn st') = working (st_conn st) /\
  committed (st_conn st') = committed (st_conn st) /\
  files_indexed (st_result st') = files_indexed (st_result st) /\
  chunks_created (st_result st') = chunks_created (st_result st) /\
  errors (st_result st') = errors (st_result st).
Proof.
  cbv zeta. unfold loop_body.
  destruct (body f _) as [[[]| |[|msg]] st'] eqn:E.
  - apply try_body_post in E. destruct E as (_ & _ & _ & _ & Ho).
    simpl in Ho. intros H. lia.
  - apply try_body_post in E. destruct E as (_ & He & _ & _ & Ho).
    simpl in *. intros _. intuition.
  - apply try_body_raised in E; [|left; reflexivity]. subst st'.
    intros _. simpl. auto.
  - apply try_body_post in E. destruct E as (_ & _ & _ & _ & Ho).
    simpl in *. intros H. lia.
Qed.

(** X20. On a connection none of whose calls fails, every turn ends with
    all its writes committed, so the scan leaves nothing that closing the
    connection would lose: the tables the connection sees are the
    committed ones. *)
Theorem fault_free_scan_commits_everything fnmatch c root :
  faults c = [] -> working c = committed c ->
  let c' := fst (scan_workspace_sync re_search fnmatch sha256_hexdigest now
                   max_files max_file_size max_chunk_lines project_id c root) in
  working c' = committed c' /\ faults c' = [].
Proof.
  intros Hn Hw. cbv zeta. unfold scan_workspace_sync. cbn [fst].
  set (st0 := {| st_conn := c; st_result := empty_result |}).
  assert (H0 : working (st_conn st0) = committed (st_conn st0) /\
               faults (st_conn st0) = []) by (simpl; auto).
  clearbody st0. revert st0 H0.
  induction (walk_files fnmatch root 20) as [|f paths IH]; intros st [H1 H2];
    simpl scan_loop; [auto|].
  destruct (files_scanned (st_result st) >=? max_files); [simpl; auto|].
  apply IH. unfold loop_body.
  destruct (body f _) as [[[]| |[|msg]] st'] eqn:E.
  - apply try_body_post in E. destruct E as (_ & _ & _ & Hf & Ho).
    simpl in *. destruct Ho as (_ & _ & Hc & _). auto.
  - apply try_body_post in E. destruct E as (_ & _ & _ & Hf & Ho).
    simpl in *. destruct Ho as (_ & _ & _ & Hw' & Hc'). rewrite Hw', Hc'. auto.
  - apply try_body_raised in E; [|left; reflexivity]. subst st'. simpl. auto.
  - apply try_body_raised in E; [|right; exact H2]. subst st'. simpl. auto.
Qed.

End Turn.

(** *** Properties of the store that every turn keeps *)

(** Without a language no chunk has a symbol and all are blocks. *)
Lemma chunks_without_language re_search content max_lines overlap min_lines :
  Forall (fun ch => symbol ch = None /\ kind ch = "block"%string)
    (chunk_content re_search content max_lines overlap min_lines None).
Proof.
  eapply Forall_impl;
    [|exact (chunks_are_windows re_search content max_lines overlap min_lines None)].
  cbv beta. intros c (s & _ & Hw).
  apply window_elem in Hw. destruct Hw as (_ & _ & _ & _ & Hsym & Hkind).
  rewrite Hsym, Hkind. split; reflexivity.
Qed.

Section Invariant.

Variable re_search : string -> string -> option string.
Variable sha256_hexdigest : string -> string.
Variables now max_files max_file_size max_chunk_lines : Z.
Variable project_id : option Z.

Variable P : db -> Prop.

Hypothesis upsert_ok :
  forall now path h size lang mtime pid,
    sql_keeps P (upsert_file now path h size lang mtime pid).
Hypothesis delete_ok :
  forall fid d, P d -> P (snd (delete_chunks fid d)).
Hypothesis insert_ok :
  forall fid s e content d,
    P d -> P (snd (insert_chunk_row fid s e content None (Some "block"%string) d)).

Lemma insert_chunks_inv file_id cs :
  Forall (fun ch => symbol ch = None /\ kind ch = "block"%string) cs ->
  keeps P (insert_chunks file_id cs).
Proof.
  induction cs as [|ch cs IH]; simpl; intros Hall; [apply keeps_ret|].
  inversion Hall as [|? ? [Hs Hk] Hrest]; subst.
  apply keeps_bind.
  - apply keeps_sql. apply sql_keeps_execute. rewrite Hs, Hk. intros d.
    apply insert_ok.
  - intros _. apply keeps_bind; [apply keeps_update | intros _; exact (IH Hrest)].
Qed.

Lemma try_body_inv f :
  keeps P (try_body re_search sha256_hexdigest now max_file_size
             max_chunk_lines project_id f).
Proof.
  unfold try_body.
  apply keeps_bind; [apply keeps_path_stat|]. intros [file_size file_mtime].
  destruct (file_size >? max_file_size).
  { apply keeps_bind; [apply keeps_update | intros _; apply keeps_continue]. }
  apply keeps_bind; [apply keeps_path_read_text|]. intros content.
  apply keeps_bind.
  { apply keeps_sql. apply sql_keeps_execute. auto. }
  intros existing. destruct (same_hash existing _).
  { apply keeps_bind; [apply keeps_update | intros _; apply keeps_continue]. }
  apply keeps_bind.
  { apply keeps_sql. apply upsert_ok. }
  intros file_id. apply keeps_bind.
  { destruct existing; [|apply keeps_ret].
    apply keeps_sql. apply sql_keeps_execute. intros d. apply delete_ok. }
  intros _. apply keeps_bind.
  { apply insert_chunks_inv. apply chunks_without_language. }
  intros _. apply keeps_bind; [apply keeps_update|].
  intros _. apply keeps_sql. apply sql_keeps_commit.
Qed.

Lemma scan_loop_inv paths : forall st,
  conn_keeps P (st_conn st)
    (st_conn (scan_loop re_search sha256_hexdigest now max_files max_file_size
                max_chunk_lines project_id paths st)).
Proof.
  induction paths as [|f paths IH]; intros st; simpl.
  - apply conn_keeps_refl.
  - destruct (files_scanned (st_result st) >=? max_files); [apply conn_keeps_refl|].
    eapply conn_keeps_trans; [|apply IH].
    unfold loop_body.
    destruct (try_body _ _ _ _ _ _ f _) as [[[]| |[|msg]] st'] eqn:E;
      apply try_body_inv in E; exact E.
Qed.

(** What holds of the tables before a scan, for the connection and
    durably, holds after it. *)
Lemma scan_inv fnmatch c root :
  P (working c) -> P (committed c) ->
  let c' := fst (scan_workspace_sync re_search fnmatch sha256_hexdigest now
                   max_files max_file_size max_chunk_lines project_id c root) in
  P (working c') /\ P (committed c').
Proof.
  intros Hw Hc. cbv zeta. unfold scan_workspace_sync. cbn [fst].
  destruct (scan_loop_inv (walk_files fnmatch root 20)
              {| st_conn := c; st_result := empty_result |}) as [Kw Kc].
  simpl in Kw, Kc. auto.
Qed.

End Invariant.

(** X21. A scan keeps the shadow index in step with the chunk table: if
    the index mirrors the table (with unique rowids) before the scan, for
    the connection and durably, it does after it, whatever fails on the
    way. *)
Theorem scan_keeps_shadow_index re_search fnmatch sha256_hexdigest now
    max_files max_file_size max_chunk_lines project_id c root :
  shadow_ok (working c) -> shadow_ok (committed c) ->
  let c' := fst (scan_workspace_sync re_search fnmatch sha256_hexdigest now
                   max_files max_file_size max_chunk_lines project_id c root) in
  shadow_ok (working c') /\ shadow_ok (committed c').
Proof.
  apply scan_inv.
  - intros. apply upsert_file_shadow.
  - intros fid d. apply delete_chunks_shadow.
  - intros fid s e content d. apply insert_chunk_row_shadow.
Qed.

(** X22. A scan keeps the rows unique: if no two rows of [files] have the
    same path or the same id and no two rows of [chunks] the same id before
    the scan, none do after it, whatever fails on the way. *)
Theorem scan_keeps_rows_unique re_search fnmatch sha256_hexdigest now
    max_files max_file_size max_chunk_lines project_id c root :
  unique_paths (working c) /\ unique_ids (working c) ->
  unique_paths (committed c) /\ unique_ids (committed c) ->
  let c' := fst (scan_workspace_sync re_search fnmatch sha256_hexdigest now
                   max_files max_file_size max_chunk_lines project_id c root) in
  (unique_paths (working c') /\ unique_ids (working c')) /\
  (unique_paths (committed c') /\ unique_ids (committed c')).
Proof.
  apply (scan_inv re_search sha256_hexdigest now max_files max_file_size
           max_chunk_lines project_id (fun d => unique_paths d /\ unique_ids d)).
  - intros. apply upsert_file_unique.
  - intros fid d [A [B C]]. split; [exact A|]. split; [exact B|].
    unfold delete_chunks; simpl. apply NoDup_map_filter. exact C.
  - intros fid s e content d [A [B C]]. split; [exact A|]. split; [exact B|].
    unfold insert_chunk_row; simpl. rewrite map_app. simpl.
    apply NoDup_app; [exact C | repeat constructor; intros [] | ].
    intros x Hx [<-|[]]. exact (next_id_fresh _ _ Hx).
Qed.

(** X23. The scan never stores a symbol: it chunks without a language, so
    every chunk row it inserts has no symbol and kind [block]. If all
    chunk rows are such before a scan, all are after it. *)
Theorem scan_stores_no_symbols re_search fnmatch sha256_hexdigest now
    max_files max_file_size max_chunk_lines project_id c root :
  no_symbols (working c) -> no_symbols (committed c) ->
  let c' := fst (scan_workspace_sync re_search fnmatch sha256_hexdigest now
                   max_files max_file_size max_chunk_lines project_id c root) in
  no_symbols (working c') /\ no_symbols (committed c').
Proof.
  apply scan_inv.
  - intros. apply upsert_file_keeps_gen; [intros d H | intros d H _]; exact H.
  - intros fid d H. unfold no_symbols, delete_chunks in *; simpl.
    apply Forall_forall. intros x Hx. apply filter_In in Hx.
    rewrite Forall_forall in H. apply H. tauto.
  - intros fid s e content d H. unfold no_symbols, insert_chunk_row in *; simpl.
    apply Forall_app. split; [exact H|]. repeat constructor.
Qed.

(** X24. When no call on the connection fails, whatever [stat] and
    [read_text] do, the result of a scan counts every file it took exactly
    once: [files_scanned = files_indexed + files_skipped + len(errors)]. *)
Theorem fault_free_scan_counts_once re_search fnmatch sha256_hexdigest now
    max_files max_file_size max_chunk_lines project_id c root :
  faults c = [] ->
  let r := snd (scan_workspace_sync re_search fnmatch sha256_hexdigest now
                  max_files max_file_size max_chunk_lines project_id c root) in
  files_scanned r = files_indexed r + files_skipped r + len (errors r).
Proof. apply scan_counts_without_db_faults. Qed.

Lemma scan_keeps_shadow_index_witness :
  let c' := fst (scan_workspace_sync (fun _ _ => None) (fun _ _ => false)
                   (fun s => s) 1000 10000 1048576 80 None
                   (fresh_conn [None; None; None; Some "locked"%string])
                   Examples.two_files) in
  List.length (chunks (committed c')) = 1%nat /\
  shadow_ok (working c') /\ shadow_ok (committed c').
Proof.
  intros c'. split; [reflexivity|].
  apply (scan_keeps_shadow_index (fun _ _ => None) (fun _ _ => false) (fun s => s)
           1000 10000 1048576 80 None
           (fresh_conn [None; None; None; Some "locked"%string]) Examples.two_files);
    (split; [constructor | reflexivity]).
Defined.

Lemma scan_keeps_rows_unique_witness :
  let c' := fst (scan_workspace_sync (fun _ _ => None) (fun _ _ => false)
                   (fun s => s) 1000 10000 1048576 80 None (fresh_conn [])
                   Examples.two_files) in
  List.length (files (committed c')) = 2%nat /\
  unique_paths (committed c') /\ unique_ids (committed c').
Proof.
  intros c'. split; [reflexivity|].
  apply (scan_keeps_rows_unique (fun _ _ => None) (fun _ _ => false) (fun s => s)
           1000 10000 1048576 80 None (fresh_conn []) Examples.two_files);
    (split; [constructor | split; constructor]).
Defined.

Lemma scan_stores_no_symbols_witness :
  let c' := fst (scan_workspace_sync (fun _ _ => Some "f"%string) (fun _ _ => false)
                   (fun s => s) 1000 10000 1048576 80 None (fresh_conn [])
                   Examples.two_files) in
  List.length (chunks (committed c')) = 2%nat /\
  no_symbols (working c') /\ no_symbols (committed c').
Proof.
  intros c'. split; [reflexivity|].
  apply (scan_stores_no_symbols (fun _ _ => Some "f"%string) (fun _ _ => false)
           (fun s => s) 1000 10000 1048576 80 None (fresh_conn [])
           Examples.two_files);
    constructor.
Defined.

Lemma fault_free_scan_counts_once_witness :
  let root := [ File "a.py" (StatOk 5 0) (ReadOk "x = 1");
                File "b.py" (StatError "gone") (ReadOk "y");
                File "c.py" (StatOk 5 0) ReadDecodeError ]%string in
  let r := snd (scan_workspace_sync (fun _ _ => None) (fun _ _ => false)
                  (fun s => s) 1000 10000 1048576 80 None (fresh_conn []) root) in
  files_indexed r = 1 /\ files_skipped r = 1 /\ len (errors r) = 1 /\
  files_scanned r = files_indexed r + files_skipped r + len (errors r).
Proof.
  intros root r. split; [reflexivity|]. split; [reflexivity|].
  split; [reflexivity|].
  apply (fault_free_scan_counts_once (fun _ _ => None) (fun _ _ => false)
           (fun s => s) 1000 10000 1048576 80 None (fresh_conn []) root).
  reflexivity.
Defined.

Lemma skipped_file_writes_nothing_witness :
  let big := {| rel_path := "big.py"; name := "big.py"; stat := StatOk 2000000 0;
                read_text := ReadOk "x" |}%string in
  let st := {| st_conn := fresh_conn []; st_result := empty_result |} in
  let st' := loop_body (fun _ _ => None) (fun s => s) 1000 1048576 80 None big st in
  files_skipped (st_result st') = files_skipped (st_result st) + 1 /\
  working (st_conn st') = working (st_conn st) /\
  files_indexed (st_result st') = files_indexed (st_result st).
Proof.
  intros big st st'.
  assert (H : files_skipped (st_result st') = files_skipped (st_result st) + 1)
    by reflexivity.
  split; [exact H|].
  destruct (skipped_file_writes_nothing (fun _ _ => None) (fun s => s)
              1000 1048576 80 None big st H) as (H1 & _ & H2 & _).
  split; [exact H1 | exact H2].
Defined.

Lemma fault_free_scan_commits_everything_witness :
  let c' := fst (scan_workspace_sync (fun _ _ => None) (fun _ _ => false)
                   (fun s => s) 1000 10000 1048576 80 None (fresh_conn [])
                   Examples.two_files) in
  List.length (chunks (working c')) = 2%nat /\
  working c' = committed c' /\ faults c' = [].
Proof.
  intros c'. split; [reflexivity|].
  apply (fault_free_scan_commits_everything (fun _ _ => None) (fun s => s)
           1000 10000 1048576 80 None (fun _ _ => false) (fresh_conn [])
           Examples.two_files);
    reflexivity.
Defined.

(** *** Indexing one file when no call on the connection fails *)

Lemma execute_nofault {A} (stmt : db -> A * db) c :
  faults c = [] ->
  execute stmt c =
    (inl (fst (stmt (working c))),
     {| working := snd (stmt (working c)); committed := committed c; faults := [] |}).
Proof.
  intros Hn. rewrite (execute_ok _ _ (next_call_ok_nil _ Hn)), Hn. reflexivity.
Qed.

Lemma commit_nofault c :
  faults c = [] ->
  commit c = (inl tt, {| working := working c; committed := working c; faults := [] |}).
Proof. unfold commit. intros ->. reflexivity. Qed.

Lemma insert_rows_cons file_id ch cs d :
  insert_rows file_id (ch :: cs) d =
  insert_rows file_id cs
    (snd (insert_chunk_row file_id (start_line ch) (end_line ch) (content ch)
            (symbol ch) (Some (kind ch)) d)).
Proof. reflexivity. Qed.

Lemma insert_rows_chunks file_id cs : forall d,
  files (insert_rows file_id cs d) = files d /\
  exists rows,
    chunks (insert_rows file_id cs d) = chunks d ++ rows /\
    map row_payload rows = map (chunk_payload file_id) cs.
Proof.
  induction cs as [|ch cs IH]; intros d.
  - split; [reflexivity|]. exists []. simpl. rewrite app_nil_r. auto.
  - rewrite insert_rows_cons. destruct (IH (snd (insert_chunk_row file_id (start_line ch) (end_line ch)
                         (content ch) (symbol ch) (Some (kind ch)) d)))
      as (Hf & rows & Hc & Hp).
    split; [rewrite Hf; reflexivity|].
    eexists (_ :: rows). split.
    + rewrite Hc. simpl. rewrite <- app_assoc. reflexivity.
    + simpl. rewrite Hp. reflexivity.
Qed.

Lemma insert_chunks_nofault file_id cs : forall st,
  faults (st_conn st) = [] ->
  exists r,
    insert_chunks file_id cs st =
      (Normal tt,
       {| st_conn := {| working := insert_rows file_id cs (working (st_conn st));
                        committed := committed (st_conn st); faults := [] |};
          st_result := r |}) /\
    same_counts (st_result st) r /\
    chunks_created r = chunks_created (st_result st) + len cs.
Proof.
  induction cs as [|ch cs IH]; intros st Hn.
  - exists (st_result st). simpl. unfold ret.
    destruct st as [[w cm fl] r]; simpl in *.
    subst fl. unfold same_counts, len; simpl. repeat split; lia.
  - rewrite insert_rows_cons. simpl insert_chunks.
    unfold bind at 1. unfold sql, insert_chunk.
    rewrite (execute_nofault _ _ Hn). cbv beta iota.
    unfold bind at 1. unfold update at 1. cbv beta iota.
    match goal with
    | |- context [insert_chunks file_id cs ?s] =>
        destruct (IH s eq_refl) as (r & Heq & Hsame & Hcc); rewrite Heq
    end.
    exists r. split; [reflexivity|]. simpl in Hsame, Hcc.
    split; [exact Hsame|].
    unfold len in *. simpl List.length. lia.
Qed.

Lemma filter_filter_neg {A} (p : A -> bool) l :
  filter p (filter (fun x => negb (p x)) l) = [].
Proof.
  induction l as [|x l IH]; simpl; [reflexivity|].
  destruct (p x) eqn:E; simpl; [exact IH | rewrite E; exact IH].
Qed.

Lemma filter_idem {A} (p : A -> bool) l : filter p (filter p l) = filter p l.
Proof.
  induction l as [|x l IH]; simpl; [reflexivity|].
  destruct (p x) eqn:E; simpl; [rewrite E, IH; reflexivity | exact IH].
Qed.

Lemma payload_file_id file_id cs rows :
  map row_payload rows = map (chunk_payload file_id) cs ->
  Forall (fun c => c_file_id c = file_id) rows.
Proof.
  revert cs. induction rows as [|c rows IH]; intros cs H; [constructor|].
  destruct cs as [|ch cs]; [discriminate|].
  simpl in H. injection H as Hc _ _ _ _ _ Hrest.
  constructor; [exact Hc | exact (IH _ Hrest)].
Qed.

Lemma filter_all {A} (p : A -> bool) l :
  Forall (fun x => p x = true) l -> filter p l = l.
Proof.
  induction 1 as [|x l Hx _ IH]; simpl; [reflexivity|]. rewrite Hx, IH. reflexivity.
Qed.

Lemma filter_none {A} (p : A -> bool) l :
  Forall (fun x => p x = false) l -> filter p l = [].
Proof.
  induction 1 as [|x l Hx _ IH]; simpl; [reflexivity|]. rewrite Hx, IH. reflexivity.
Qed.

Local Abbreviation by_path p := (fun r : file_row => String.eqb (f_path r) p).

Lemma upsert_nofault_hit now path h size lang mtime pid c r c1 fid :
  faults c = [] ->
  stored_id (working c) path = Some fid ->
  upsert_file now path h size lang mtime pid c = (r, c1) ->
  r = inl fid /\
  working c1 = snd (update_file h mtime size lang now pid path (working c)) /\
  committed c1 = committed c /\ faults c1 = [].
Proof.
  intros Hn Hid H.
  destruct (sql_calm_upsert_file _ _ _ _ _ _ _ _ _ _ H Hn) as [Hf [a ->]].
  destruct (upsert_file_effect _ _ _ _ _ _ _ _ _ _ H) as (Hc & Hcase).
  unfold stored_id in Hid.
  destruct (find (by_path path) (files (working c))) as [r0|] eqn:Efind;
    [|discriminate].
  simpl in Hid. injection Hid as Hid.
  destruct Hcase as [(msg & Hr & _)|[(Hpos & Hw & id & Hr & Hsel)|(Hle & _)]].
  - discriminate Hr.
  - injection Hr as ->.
    destruct (find_update_file_hit now path h size lang mtime pid _ Hpos)
      as (r1 & Hf1 & Hf2 & _).
    rewrite Efind in Hf1. injection Hf1 as <-.
    unfold select_id in Hsel. cbn [fst] in Hsel. rewrite Hf2 in Hsel.
    simpl in Hsel. injection Hsel as <-.
    rewrite Hid. auto.
  - exfalso.
    apply (update_file_miss now path h size lang mtime pid _ Hle).
    apply find_some in Efind. destruct Efind as [Hin Hp].
    apply String.eqb_eq in Hp. apply in_map_iff. exists r0. auto.
Qed.

Lemma upsert_nofault_miss now path h size lang mtime pid c r c1 :
  faults c = [] ->
  stored_id (working c) path = None ->
  upsert_file now path h size lang mtime pid c = (r, c1) ->
  let u := snd (update_file h mtime size lang now pid path (working c)) in
  r = inl (fst (insert_file path h mtime size lang now pid u)) /\
  working c1 = snd (insert_file path h mtime size lang now pid u) /\
  committed c1 = committed c /\ faults c1 = [].
Proof.
  intros Hn Hid H u. subst u.
  destruct (sql_calm_upsert_file _ _ _ _ _ _ _ _ _ _ H Hn) as [Hf [a ->]].
  destruct (upsert_file_effect _ _ _ _ _ _ _ _ _ _ H) as (Hc & Hcase).
  destruct Hcase as [(msg & Hr & _)|[(Hpos & _)|(Hle & Hw & Hr)]].
  - discriminate Hr.
  - exfalso.
    destruct (find_update_file_hit now path h size lang mtime pid _ Hpos)
      as (r1 & Hf1 & _).
    unfold stored_id in Hid. rewrite Hf1 in Hid. discriminate Hid.
  - auto.
Qed.

Lemma rowcount_hit now path h size lang mtime pid d r0 :
  find (by_path path) (files d) = Some r0 ->
  0 < fst (update_file h mtime size lang now pid path d).
Proof.
  intros Hf.
  destruct (Z.lt_ge_cases 0 (fst (update_file h mtime size lang now pid path d)))
    as [H|H]; [exact H|].
  exfalso. apply (update_file_miss now path h size lang mtime pid d H).
  apply find_some in Hf. destruct Hf as [Hin Hp].
  apply String.eqb_eq in Hp. apply in_map_iff. exists r0. auto.
Qed.

Lemma rowcount_miss now path h size lang mtime pid d :
  find (by_path path) (files d) = None ->
  fst (update_file h mtime size lang now pid path d) <= 0.
Proof.
  intros Hf. unfold update_file. cbn [fst].
  induction (files d) as [|r l IH]; simpl in *; [reflexivity|].
  destruct (String.eqb (f_path r) path); [discriminate|]. auto.
Qed.

Section Reindex.

Variable re_search : string -> string -> option string.
Variable sha256_hexdigest : string -> string.
Variables now max_file_size max_chunk_lines : Z.
Variable project_id : option Z.

Local Abbreviation turn :=
  (loop_body re_search sha256_hexdigest now max_file_size max_chunk_lines project_id).

(** The turn for a readable file whose fingerprint is not the stored one,
    when no call on the connection fails: the tables at the end, in terms
    of the statements run. *)
Lemma loop_body_indexes f st size mtime content :
  faults (st_conn st) = [] ->
  stat f = StatOk size mtime -> (size >? max_file_size) = false ->
  read_text f = ReadOk content ->
  stored_hash (working (st_conn st)) (rel_path f)
    <> Some (hash_content sha256_hexdigest content) ->
  let w := working (st_conn st) in
  let cs := chunk_content re_search content max_chunk_lines 5 3 None in
  let u := snd (update_file (hash_content sha256_hexdigest content) (Some mtime)
                  size (detect_language (name f)) now project_id (rel_path f) w) in
  let final :=
    match stored_id w (rel_path f) with
    | Some fid => insert_rows fid cs (snd (delete_chunks fid u))
    | None =>
        let i := insert_file (rel_path f) (hash_content sha256_hexdigest content)
                   (Some mtime) size (detect_language (name f)) now project_id u in
        insert_rows (fst i) cs (snd i)
    end in
  st_conn (turn f st) = {| working := final; committed := final; faults := [] |} /\
  files_indexed (st_result (turn f st)) = files_indexed (st_result st) + 1 /\
  files_skipped (st_result (turn f st)) = files_skipped (st_result st) /\
  chunks_created (st_result (turn f st)) = chunks_created (st_result st) + len cs /\
  errors (st_result (turn f st)) = errors (st_result st).
Proof.
  intros Hn Hstat Hsize Hread Hdiff w cs u final.
  remember (turn f st) as t eqn:Et.
  unfold loop_body, try_body in Et.
  unfold bind at 1 in Et. unfold path_stat in Et. rewrite Hstat in Et.
  unfold ret at 1 in Et. cbv beta iota in Et. rewrite Hsize in Et.
  unfold bind at 1 in Et. unfold path_read_text in Et. rewrite Hread in Et.
  unfold ret at 1 in Et. cbv beta iota in Et.
  unfold bind at 1 in Et. unfold sql at 1 in Et. unfold get_file_by_path in Et.
  rewrite execute_nofault in Et by exact Hn.
  cbv beta iota in Et. cbn [st_conn st_result] in Et. fold w in Et.
  assert (Hsame : same_hash (fst (select_file (rel_path f) w))
                    (hash_content sha256_hexdigest content) = false).
  { unfold select_file, stored_hash in *. cbn [fst]. fold w in Hdiff.
    destruct (find (by_path (rel_path f)) (files w)) as [r0|]; [|reflexivity].
    simpl in *. destruct (String.eqb_spec (f_hash r0)
                            (hash_content sha256_hexdigest content)); [|reflexivity].
    exfalso. apply Hdiff. congruence. }
  cbv zeta in Et. rewrite Hsame in Et.
  unfold bind at 1 in Et. unfold sql at 1 in Et. cbn [st_conn st_result] in Et.
  change (snd (select_file (rel_path f) w)) with w in Et.
  match type of Et with
  | context [upsert_file ?a ?b ?c ?d ?e ?g ?i ?cn] =>
      destruct (upsert_file a b c d e g i cn) as [r c3] eqn:Eup
  end.
  assert (Hex : match fst (select_file (rel_path f) w) with
                | Some _ => stored_id w (rel_path f) <> None
                | None => stored_id w (rel_path f) = None
                end).
  { unfold select_file, stored_id. cbn [fst].
    destruct (find (by_path (rel_path f)) (files w)); simpl;
      [discriminate | reflexivity]. }
  subst final.
  destruct (stored_id w (rel_path f)) as [fid|] eqn:Eid.
  - apply upsert_nofault_hit with (fid := fid) in Eup; [|reflexivity|exact Eid].
    destruct Eup as (-> & Hw3 & Hc3 & Hf3).
    simpl in Hw3, Hc3. fold u in Hw3.
    destruct (fst (select_file (rel_path f) w)) as [ex|]; [|discriminate Hex].
    unfold bind at 1 in Et. unfold sql at 1 in Et.
    unfold delete_chunks_for_file in Et. cbn [st_conn st_result] in Et.
    rewrite execute_nofault in Et by exact Hf3. cbv beta iota in Et.
    unfold bind at 1 in Et.
    match type of Et with
    | context [insert_chunks fid ?l ?s] =>
        destruct (insert_chunks_nofault fid l s eq_refl)
          as (r4 & Heq & (S1 & S2 & S3 & S4 & S5) & Hcc); rewrite Heq in Et
    end.
    cbv beta iota in Et. unfold bind at 1 in Et. unfold update at 1 in Et.
    cbv beta iota in Et. unfold sql in Et. cbn [st_conn st_result] in Et.
    rewrite commit_nofault in Et by reflexivity. cbn [working committed] in Et.
    subst t. rewrite Hw3. simpl in *. fold cs in Hcc |- *.
    repeat split; try congruence; lia.
  - apply upsert_nofault_miss in Eup; [|reflexivity|exact Eid].
    destruct Eup as (-> & Hw3 & Hc3 & Hf3).
    simpl in Hw3, Hc3. fold u in Hw3.
    destruct (fst (select_file (rel_path f) w)) as [ex|];
      [exfalso; apply Hex; reflexivity|].
    unfold bind at 1 in Et. unfold ret at 1 in Et. cbv beta iota in Et.
    unfold bind at 1 in Et.
    match type of Et with
    | context [insert_chunks ?i ?l ?s] =>
        destruct (insert_chunks_nofault i l s Hf3)
          as (r4 & Heq & (S1 & S2 & S3 & S4 & S5) & Hcc); rewrite Heq in Et
    end.
    cbv beta iota in Et. unfold bind at 1 in Et. unfold update at 1 in Et.
    cbv beta iota in Et. unfold sql in Et. cbn [st_conn st_result] in Et.
    rewrite commit_nofault in Et by reflexivity. cbn [working committed] in Et.
    subst t. rewrite Hw3. simpl in *. fold cs in Hcc |- *.
    repeat split; try congruence; lia.
Qed.

(** X25. A turn on a file already stored under another fingerprint, when no
    call on the connection fails, keeps the file's id, stores the new
    fingerprint, replaces the file's chunk rows by one row per chunk of the
    new text, in order, leaves the chunk rows of the other files as they
    were, and commits. *)
Theorem changed_file_chunks_replaced f st size mtime content fid :
  faults (st_conn st) = [] ->
  stat f = StatOk size mtime -> (size >? max_file_size) = false ->
  read_text f = ReadOk content ->
  stored_id (working (st_conn st)) (rel_path f) = Some fid ->
  stored_hash (working (st_conn st)) (rel_path f)
    <> Some (hash_content sha256_hexdigest content) ->
  let d := working (st_conn st) in
  let d' := working (st_conn (turn f st)) in
  stored_id d' (rel_path f) = Some fid /\
  stored_hash d' (rel_path f) = Some (hash_content sha256_hexdigest content) /\
  map row_payload (chunks_of fid d') =
    map (chunk_payload fid)
      (chunk_content re_search content max_chunk_lines 5 3 None) /\
  chunks_not_of fid d' = chunks_not_of fid d /\
  committed (st_conn (turn f st)) = d'.
Proof.
  intros Hn Hstat Hsize Hread Hid Hdiff d d'.
  destruct (loop_body_indexes f st size mtime content Hn Hstat Hsize Hread Hdiff)
    as (Hc & _).
  fold d in Hid, Hc. rewrite Hid in Hc.
  subst d'. rewrite Hc. cbn [working committed].
  set (h := hash_content sha256_hexdigest content) in *.
  set (cs := chunk_content re_search content max_chunk_lines 5 3 None) in *.
  set (u := snd (update_file h (Some mtime) size (detect_language (name f)) now
                   project_id (rel_path f) d)) in *.
  destruct (insert_rows_chunks fid cs (snd (delete_chunks fid u)))
    as (Hfiles & rows & Hrows & Hpay).
  unfold stored_id in Hid.
  destruct (find (by_path (rel_path f)) (files d)) as [r0|] eqn:Efind;
    [|discriminate].
  simpl in Hid. injection Hid as Hid.
  destruct (find_update_file_hit now (rel_path f) h size (detect_language (name f))
              (Some mtime) project_id d
              (rowcount_hit _ _ _ _ _ _ _ _ _ Efind)) as (r1 & Hf1 & Hf2 & _).
  rewrite Efind in Hf1. injection Hf1 as <-. fold u in Hf2.
  assert (Hown : Forall (fun c => c_file_id c = fid) rows)
    by (exact (payload_file_id _ _ _ Hpay)).
  split; [|split; [|split; [|split]]].
  - unfold stored_id. rewrite Hfiles. cbn [delete_chunks snd files].
    rewrite Hf2. simpl. congruence.
  - unfold stored_hash. rewrite Hfiles. cbn [delete_chunks snd files].
    rewrite Hf2. reflexivity.
  - unfold chunks_of. rewrite Hrows. cbn [delete_chunks snd chunks].
    rewrite filter_app, filter_filter_neg. cbn [app].
    rewrite filter_all; [exact Hpay|].
    eapply Forall_impl; [|exact Hown]. intros c Hcf. apply Z.eqb_eq. exact Hcf.
  - unfold chunks_not_of. rewrite Hrows. cbn [delete_chunks snd chunks].
    rewrite filter_app, filter_idem.
    rewrite (filter_none _ rows); [apply app_nil_r|].
    eapply Forall_impl; [|exact Hown]. intros c Hcf.
    apply negb_false_iff, Z.eqb_eq. exact Hcf.
  - reflexivity.
Qed.

(** X26. A turn on a file stored under no row, when no call on the connection
    fails, gives it a row whose id is above every id of [files] and above the
    table's counter, records its fingerprint, appends one chunk row per chunk
    of its text, in order, after the rows already there, and commits. *)
Theorem new_file_rows_appended f st size mtime content :
  faults (st_conn st) = [] ->
  stat f = StatOk size mtime -> (size >? max_file_size) = false ->
  read_text f = ReadOk content ->
  stored_id (working (st_conn st)) (rel_path f) = None ->
  let d := working (st_conn st) in
  let d' := working (st_conn (turn f st)) in
  exists fid rows,
    stored_id d' (rel_path f) = Some fid /\
    files_seq d < fid /\ Forall (fun r => f_id r < fid) (files d) /\
    stored_hash d' (rel_path f) = Some (hash_content sha256_hexdigest content) /\
    chunks d' = chunks d ++ rows /\
    map row_payload rows =
      map (chunk_payload fid)
        (chunk_content re_search content max_chunk_lines 5 3 None) /\
    committed (st_conn (turn f st)) = d'.
Proof.
  intros Hn Hstat Hsize Hread Hid d d'.
  assert (Hdiff : stored_hash (working (st_conn st)) (rel_path f)
                    <> Some (hash_content sha256_hexdigest content)).
  { unfold stored_hash. unfold stored_id in Hid.
    destruct (find _ (files (working (st_conn st)))); [discriminate Hid|].
    discriminate. }
  destruct (loop_body_indexes f st size mtime content Hn Hstat Hsize Hread Hdiff)
    as (Hc & _).
  fold d in Hid, Hc. rewrite Hid in Hc.
  subst d'. rewrite Hc. cbn [working committed].
  set (h := hash_content sha256_hexdigest content) in *.
  set (cs := chunk_content re_search content max_chunk_lines 5 3 None) in *.
  set (u := snd (update_file h (Some mtime) size (detect_language (name f)) now
                   project_id (rel_path f) d)) in *.
  cbv zeta in *.
  set (i := insert_file (rel_path f) h (Some mtime) size (detect_language (name f))
              now project_id u) in *.
  destruct (insert_rows_chunks (fst i) cs (snd i)) as (Hfiles & rows & Hrows & Hpay).
  unfold stored_id in Hid.
  destruct (find (by_path (rel_path f)) (files d)) as [r0|] eqn:Efind;
    [discriminate|].
  pose proof (find_insert_file_miss now (rel_path f) h size
                (detect_language (name f)) (Some mtime) project_id d
                (rowcount_miss _ _ _ _ _ _ _ _ Efind)) as Hf.
  fold u in Hf. fold i in Hf.
  assert (Hmax : forall seq ids, seq < next_id seq ids /\
                                 Forall (fun x => x < next_id seq ids) ids).
  { intros seq ids. unfold next_id.
    induction ids as [|x l [IH1 IH2]]; simpl; [split; [lia|constructor]|].
    split; [lia|]. constructor; [lia|].
    eapply Forall_impl; [|exact IH2]. simpl. intros; lia. }
  assert (Hids : map f_id (files u) = map f_id (files d)).
  { subst u. apply update_file_ids. }
  exists (fst i), rows.
  split; [|split; [|split; [|split; [|split; [|split]]]]].
  - unfold stored_id. rewrite Hfiles, Hf. reflexivity.
  - subst i. cbn [insert_file fst]. subst u. cbn [update_file snd files_seq].
    apply Hmax.
  - subst i. cbn [insert_file fst]. rewrite Hids.
    destruct (Hmax (files_seq u) (map f_id (files d))) as [_ H2].
    rewrite Forall_map in H2. exact H2.
  - unfold stored_hash. rewrite Hfiles, Hf. reflexivity.
  - rewrite Hrows. reflexivity.
  - exact Hpay.
  - reflexivity.
Qed.

End Reindex.

Lemma changed_file_chunks_replaced_witness :
  let v1 := {| rel_path := "a.py"; name := "a.py"; stat := StatOk 5 0;
               read_text := ReadOk "x = 1" |}%string in
  let v2 := {| rel_path := "a.py"; name := "a.py"; stat := StatOk 11 7;
               read_text := ReadOk ("x = 1" ++ String newline "y = 2") |}%string in
  let turn := loop_body (fun _ _ => None) (fun s => s) 1000 1048576 80 None in
  let st := turn v1 {| st_conn := fresh_conn []; st_result := empty_result |} in
  let d' := working (st_conn (turn v2 st)) in
  stored_id (working (st_conn st)) "a.py" = Some 1 /\
  stored_id d' "a.py" = Some 1 /\
  map c_content (chunks_of 1 d') = ["x = 1" ++ String newline "y = 2"]%string /\
  committed (st_conn (turn v2 st)) = d'.
Proof.
  intros v1 v2 turn st d'.
  assert (Hid : stored_id (working (st_conn st)) (rel_path v2) = Some 1)
    by reflexivity.
  split; [exact Hid|].
  destruct (changed_file_chunks_replaced (fun _ _ => None) (fun s => s)
              1000 1048576 80 None v2 st 11 7
              ("x = 1" ++ String newline "y = 2")%string 1
              eq_refl eq_refl eq_refl eq_refl Hid)
    as (H1 & _ & _ & _ & H5).
  - vm_compute. discriminate.
  - split; [exact H1|]. split; [reflexivity | exact H5].
Defined.

Lemma new_file_rows_appended_witness :
  let a := {| rel_path := "a.py"; name := "a.py"; stat := StatOk 5 0;
              read_text := ReadOk "x = 1" |}%string in
  let st := {| st_conn := fresh_conn []; st_result := empty_result |} in
  let d' := working (st_conn (loop_body (fun _ _ => None) (fun s => s)
                                1000 1048576 80 None a st)) in
  stored_id (working (st_conn st)) "a.py" = None /\
  exists fid rows,
    stored_id d' "a.py" = Some fid /\
    chunks d' = chunks (working (st_conn st)) ++ rows.
Proof.
  intros a st d'.
  assert (Hid : stored_id (working (st_conn st)) (rel_path a) = None)
    by reflexivity.
  split; [exact Hid|].
  destruct (new_file_rows_appended (fun _ _ => None) (fun s => s)
              1000 1048576 80 None a st 5 0 "x = 1"%string
              eq_refl eq_refl eq_refl eq_refl Hid)
    as (fid & rows & H1 & _ & _ & _ & H5 & _).
  exists fid, rows. split; [exact H1 | exact H5].
Defined.

(** *** Every chunk row belongs to a file row *)

Section Triples.

Variable C : db -> Prop.

Lemma triple_ret {A} (a : A) (W' : A -> db -> Prop) : triple C (W' a) (ret a) W'.
Proof. intros st o st' H Hw Hc. inversion H; subst. auto. Qed.

Lemma triple_raise {A} (W : db -> Prop) e (W' : A -> db -> Prop) :
  (forall d, W d -> C d) -> triple C W (raise e) W'.
Proof. intros WC st o st' H Hw Hc. inversion H; subst. auto. Qed.

Lemma triple_continue {A} (W : db -> Prop) (W' : A -> db -> Prop) :
  (forall d, W d -> C d) -> triple C W continue W'.
Proof. intros WC st o st' H Hw Hc. inversion H; subst. auto. Qed.

Lemma triple_update (W : db -> Prop) f : triple C W (update f) (fun _ => W).
Proof. intros st o st' H Hw Hc. inversion H; subst. auto. Qed.

Lemma triple_bind {A B} (W : db -> Prop) (V : A -> db -> Prop)
    (W' : B -> db -> Prop) (m : M A) (k : A -> M B) :
  triple C W m V -> (forall a, triple C (V a) (k a) W') ->
  triple C W (bind m k) W'.
Proof.
  intros Hm Hk st o st' H Hw Hc. unfold bind in H.
  destruct (m st) as [[a| |e] st1] eqn:E;
    destruct (Hm _ _ _ E Hw Hc) as [Hc1 Hw1].
  - exact (Hk a _ _ _ H Hw1 Hc1).
  - inversion H; subst. auto.
  - inversion H; subst. auto.
Qed.

Lemma triple_execute {A} (W : db -> Prop) (W' : A -> db -> Prop)
    (stmt : db -> A * db) :
  (forall d, W d -> C d) ->
  (forall d, W d -> W' (fst (stmt d)) (snd (stmt d))) ->
  triple C W (sql (execute stmt)) W'.
Proof.
  intros WC Hs st o st' H Hw Hc. unfold sql in H.
  destruct (execute stmt (st_conn st)) as [r c] eqn:E.
  destruct (execute_cases _ _ _ _ E) as (Hcm & _ & [(msg & -> & Hwk & _)|(-> & Hwk)]);
    inversion H; subst; simpl; rewrite Hwk, Hcm; auto.
Qed.

Lemma triple_commit (W : db -> Prop) :
  (forall d, W d -> C d) -> triple C W (sql commit) (fun _ => W).
Proof.
  intros WC st o st' H Hw Hc. unfold sql, commit in H.
  destruct (faults (st_conn st)) as [|[msg|] rest]; inversion H; subst; simpl; auto.
Qed.

Lemma triple_path_stat p : triple C C (path_stat p) (fun _ => C).
Proof.
  unfold path_stat. destruct (stat p);
    [exact (triple_ret _ (fun _ => C)) | apply triple_raise; auto].
Qed.

Lemma triple_path_read_text p : triple C C (path_read_text p) (fun _ => C).
Proof.
  unfold path_read_text. destruct (read_text p);
    [exact (triple_ret _ (fun _ => C)) | apply triple_raise; auto
     | apply triple_raise; auto].
Qed.

End Triples.

Lemma owns_owned fid d : owns fid d -> chunks_owned d.
Proof. intros [H _]. exact H. Qed.

Lemma delete_chunks_owns fid fid' d :
  owns fid d -> owns fid (snd (delete_chunks fid' d)).
Proof.
  intros [Ho Hin]. split; [|exact Hin].
  intros c Hc. cbn [delete_chunks snd chunks] in Hc. apply filter_In in Hc.
  apply Ho. tauto.
Qed.

Lemma insert_chunk_row_owns fid s e content sym kind d :
  owns fid d -> owns fid (snd (insert_chunk_row fid s e content sym kind d)).
Proof.
  intros [Ho Hin]. split; [|exact Hin].
  intros c Hc. cbn [insert_chunk_row snd chunks] in Hc.
  apply in_app_or in Hc. destruct Hc as [Hc|[<-|[]]]; [apply Ho; exact Hc|].
  exact Hin.
Qed.

Lemma upsert_file_owns now path h size lang mtime pid :
  triple chunks_owned chunks_owned
    (sql (upsert_file now path h size lang mtime pid)) owns.
Proof.
  intros st o st' H Hw Hc. unfold sql in H.
  destruct (upsert_file now path h size lang mtime pid (st_conn st))
    as [r c] eqn:E.
  destruct (upsert_file_effect _ _ _ _ _ _ _ _ _ _ E) as (Hcm & Hcase).
  set (u := snd (update_file h mtime size lang now pid path (working (st_conn st))))
    in *.
  assert (Hu : chunks_owned u).
  { intros x Hx. subst u. rewrite update_file_ids. apply Hw. exact Hx. }
  destruct Hcase as [(msg & -> & [Hwk|Hwk])|[(_ & Hwk & id & -> & Hsel)|(_ & Hwk & ->)]];
    inversion H; subst; simpl; rewrite Hcm, Hwk; (split; [exact Hc|]); auto.
  - split; [exact Hu|].
    unfold select_id in Hsel. cbn [fst] in Hsel.
    destruct (find (by_path path) (files u)) as [r0|] eqn:Ef; [|discriminate].
    simpl in Hsel. injection Hsel as <-.
    apply find_some in Ef. apply in_map. tauto.
  - split.
    + intros x Hx. cbn [insert_file snd files chunks] in *.
      rewrite map_app. apply in_or_app. left. apply Hu. exact Hx.
    + cbn [insert_file snd fst files]. rewrite map_app. apply in_or_app.
      right. left. reflexivity.
Qed.

Section Owned.

Variable re_search : string -> string -> option string.
Variable sha256_hexdigest : string -> string.
Variables now max_files max_file_size max_chunk_lines : Z.
Variable project_id : option Z.

Lemma insert_chunks_owns file_id cs :
  triple chunks_owned (owns file_id) (insert_chunks file_id cs)
    (fun _ => owns file_id).
Proof.
  induction cs as [|ch cs IH]; simpl;
    [exact (triple_ret _ _ (fun _ => owns file_id))|].
  apply (triple_bind _ (owns file_id) (fun _ => owns file_id)).
  - apply (triple_execute _ (owns file_id) (fun _ => owns file_id));
      [apply owns_owned|].
    intros d. apply insert_chunk_row_owns.
  - intros ?. apply (triple_bind _ (owns file_id) (fun _ => owns file_id));
      [apply triple_update | intros ?; exact IH].
Qed.

Lemma try_body_owned f :
  triple chunks_owned chunks_owned
    (try_body re_search sha256_hexdigest now max_file_size max_chunk_lines
       project_id f)
    (fun _ => chunks_owned).
Proof.
  pose (C := chunks_owned).
  assert (Hskip : triple C C (update incr_skipped;; continue)%scan
                    (fun _ : unit => C)).
  { apply (triple_bind _ C (fun _ => C));
      [apply triple_update | intros ?; apply triple_continue; auto]. }
  unfold try_body. fold C.
  apply (triple_bind _ C (fun _ => C)); [apply triple_path_stat|].
  intros [file_size file_mtime]. cbv beta iota.
  destruct (file_size >? max_file_size); [exact Hskip|].
  apply (triple_bind _ C (fun _ => C)); [apply triple_path_read_text|].
  intros content.
  apply (triple_bind _ C (fun _ => C)).
  { apply (triple_execute _ C (fun _ => C)); auto. }
  intros existing. cbv beta zeta. destruct (same_hash existing _); [exact Hskip|].
  apply (triple_bind _ C owns); [apply upsert_file_owns|].
  intros file_id. cbv beta.
  apply (triple_bind _ (owns file_id) (fun _ => owns file_id)).
  { destruct existing; [|exact (triple_ret _ _ (fun _ => owns file_id))].
    apply (triple_execute _ (owns file_id) (fun _ => owns file_id));
      [apply owns_owned|].
    intros d. apply delete_chunks_owns. }
  intros ?. apply (triple_bind _ (owns file_id) (fun _ => owns file_id));
    [apply insert_chunks_owns|].
  intros ?. apply (triple_bind _ (owns file_id) (fun _ => owns file_id));
    [apply triple_update|].
  intros ? st o st' H Hw Hc.
  destruct (triple_commit chunks_owned (owns file_id) (owns_owned file_id)
              _ _ _ H Hw Hc) as [H1 H2].
  split; [exact H1|]. destruct o; [apply (owns_owned file_id)|..]; exact H2.
Qed.

Lemma scan_loop_owned paths : forall st,
  chunks_owned (working (st_conn st)) -> chunks_owned (committed (st_conn st)) ->
  let st' := scan_loop re_search sha256_hexdigest now max_files max_file_size
               max_chunk_lines project_id paths st in
  chunks_owned (working (st_conn st')) /\ chunks_owned (committed (st_conn st')).
Proof.
  induction paths as [|f paths IH]; intros st Hw Hc; simpl; [auto|].
  destruct (files_scanned (st_result st) >=? max_files); [simpl; auto|].
  unfold loop_body.
  destruct (try_body _ _ _ _ _ _ f _) as [o st1] eqn:E.
  destruct (try_body_owned f _ _ _ E Hw Hc) as [Hc1 Hw1].
  destruct o as [[]| |[|msg]]; apply IH; simpl; auto.
Qed.

(** X27. A scan leaves no chunk row without its file row: if every chunk row
    names the id of a row of [files] before the scan, for the connection and
    durably, every chunk row does after it, whatever fails on the way. *)
Theorem scan_keeps_chunks_owned fnmatch c root :
  chunks_owned (working c) -> chunks_owned (committed c) ->
  let c' := fst (scan_workspace_sync re_search fnmatch sha256_hexdigest now
                   max_files max_file_size max_chunk_lines project_id c root) in
  chunks_owned (working c') /\ chunks_owned (committed c').
Proof.
  intros Hw Hc. cbv zeta. unfold scan_workspace_sync. cbn [fst].
  apply (scan_loop_owned (walk_files fnmatch root 20)
           {| st_conn := c; st_result := empty_result |}); assumption.
Qed.

End Owned.

Lemma scan_keeps_chunks_owned_witness :
  let c' := fst (scan_workspace_sync (fun _ _ => None) (fun _ _ => false)
                   (fun s => s) 1000 10000 1048576 80 None
                   (fresh_conn [None; None; Some "disk I/O error"%string])
                   Examples.two_files) in
  List.length (chunks (working c')) = 1%nat /\
  chunks_owned (working c') /\ chunks_owned (committed c').
Proof.
  intros c'. split; [reflexivity|].
  apply (scan_keeps_chunks_owned (fun _ _ => None) (fun s => s)
           1000 10000 1048576 80 None (fun _ _ => false));
    intros x [].
Defined.

End ScanMore.
